(** * Buffer allocation by a genetic algorithm: model and properties

    A shallow embedding of [services/geneticAlgorithm.ts] (with the records of
    [types.ts]) and the properties of its operators and of [runGA].

    Numbers.  Every value of the program is a JavaScript [number], that is
    an IEEE-754 binary64.  The model splits them by role:
    - buffer counts, slot indices, lengths and the integer settings are
      integer-valued and far below 2^53, where binary64 addition and
      subtraction of integers is exact: they are modelled in [Z] / [nat];
    - throughput and fitness values are genuine floating-point results
      (division, square root, exponential): they are modelled by Rocq's
      primitive binary64 [float], with the IEEE comparison semantics of
      [NaN] and of the infinities;
    - the results of [Math.random()] and the two probability settings they
      are compared with are modelled as rationals (every finite binary64 is
      one), with the contract [0 <= Math.random() < 1] as an explicit
      hypothesis on the random source; the product in
      [Math.floor(Math.random() * n)] is taken exactly (rounding it can move
      a draw to the next index, never out of the range [0, n)).

    Arrays.  The program shares arrays (the best individual and selected
    parents are pushed by reference) but writes only to arrays it has just
    created: [createIndividual] to its [new Array], [repair] to the result of
    [slice]/[concat], [mutate] to its copy [[...chromosome]].  No write goes
    through a shared reference, so arrays are modelled as values (lists).

    Effects.  The operators draw from [Math.random()]: the source is a tape
    [rng : nat -> Q] and the state is the number of draws made.  Reading a
    property of [null]/[undefined] throws a [TypeError]: computations of the
    evolution loop end in an [outcome].  The two [while] loops that are not
    counted loops take fuel; the fuel the model gives them suffices
    ([repair_loop_enough_fuel], [runGA_fuel_suffices]).

    [Math.exp] and [Math.pow] are "implementation-approximated" in
    ECMAScript: they are parameters of the model.  [Math.sqrt] and the four
    arithmetic operations are correctly rounded and are the primitive ones. *)

From Stdlib Require Import ZArith List Lia Bool Floats QArith Qround Permutation Sorted.
Import ListNotations.

(** ** Conversions and the order on binary64 *)

Module Num.

(** The binary64 nearest to an integer (exact below 2^53). *)
Definition of_Z (z : Z) : float :=
  SF2Prim (binary_normalize prec emax z 0 false).

Definition of_nat (n : nat) : float := of_Z (Z.of_nat n).

(** JavaScript's [a > b] and [a <= b] on numbers. *)
Definition gt (a b : float) : bool := PrimFloat.ltb b a.
Definition le (a b : float) : bool := PrimFloat.leb a b.

(** A rank of the non-NaN binary64 values, ordered lexicographically as
    [SFcompare] orders the values; [NaN] has none.  Used to reason about
    comparisons only. *)
Definition rank (x : spec_float) : option (Z * Z * Z) :=
  match x with
  | S754_nan => None
  | S754_infinity true => Some (-2, 0, 0)%Z
  | S754_finite true m e => Some (-1, - e, - Z.pos m)%Z
  | S754_zero _ => Some (0, 0, 0)%Z
  | S754_finite false m e => Some (1, e, Z.pos m)%Z
  | S754_infinity false => Some (2, 0, 0)%Z
  end.

Definition lex_lt (a b : Z * Z * Z) : Prop :=
  let '(a1, a2, a3) := a in
  let '(b1, b2, b3) := b in
  (a1 < b1 \/ (a1 = b1 /\ (a2 < b2 \/ (a2 = b2 /\ a3 < b3))))%Z.

Definition lex_le (a b : Z * Z * Z) : Prop := lex_lt a b \/ a = b.

End Num.

(** ** Data model ([types.ts]) *)

Definition Chromosome := list Z.

(** A reference to a chromosome that may be [null] or [undefined] at run
    time ([None]); both behave alike here: reading a property of either
    throws a [TypeError]. *)
Definition Ref := option Chromosome.
Definition Population := list Ref.

Record GASettings := {
  populationSize : Z;
  generations : Z;
  mutationRate : Q;
  crossoverRate : Q;
  tournamentSize : Z
}.

Record OptimizationParams := {
  numStations : Z;
  totalBuffers : Z;
  w1 : float;
  w2 : float
}.

Module OptimizationResult.
Record t := {
  bestAllocation : Chromosome;
  predictedThroughput : float;
  totalBuffersUsed : Z;
  bestFitness : float
}.
End OptimizationResult.

Module ProgressData.
Record t := {
  generation : Z;
  bestFitness : float;
  avgFitness : float
}.
End ProgressData.

(** [c.reduce((a, b) => a + b, 0)] *)
Definition sum (c : Chromosome) : Z := fold_left Z.add c 0%Z.

(** [c[i] = f(c[i])] for an index within bounds (every index the program
    computes is, see [randomIndex_lt]); the list is left as it is otherwise. *)
Fixpoint updateAt (f : Z -> Z) (i : nat) (c : Chromosome) : Chromosome :=
  match c, i with
  | [], _ => []
  | x :: c', O => f x :: c'
  | x :: c', S i' => x :: updateAt f i' c'
  end.

(** [c.findIndex(p)], [None] for -1. *)
Fixpoint findIndex (p : Z -> bool) (c : Chromosome) : option nat :=
  match c with
  | [] => None
  | x :: c' => if p x then Some O else option_map S (findIndex p c')
  end.

(** [l.slice(0, e)]: a negative [e] counts from the end. *)
Definition slice0 {A : Type} (l : list A) (e : Z) : list A :=
  if (e <? 0)%Z then firstn (Z.to_nat (Z.of_nat (length l) + e)) l
  else firstn (Z.to_nat e) l.

(** A chromosome of a run: the right length, the right sum, no negative
    entry. *)
Definition valid (numBufferSlots totalBuffers : Z) (c : Chromosome) : Prop :=
  Z.of_nat (length c) = numBufferSlots /\ sum c = totalBuffers /\
  Forall (fun b => (0 <= b)%Z) c.

(** ** The fitness model *)

Section Fitness.

Variable Math_exp : float -> float.
Variable Math_pow : float -> float -> float.

(** The accumulation [buffers.reduce((sum, b) => sum + Math.pow(b - mean, 2), 0)]. *)
Definition squaredDeviations (mean : float) (buffers : Chromosome) : float :=
  fold_left (fun acc b => (acc + Math_pow (Num.of_Z b - mean) 2)%float) buffers 0%float.

(** The literal [0.05] is the binary64 [0x1.999999999999ap-5]. *)
Definition predictThroughput (buffers : Chromosome) : float :=
  if (length buffers =? 0)%nat then 0%float
  else
    let totalBuffers := sum buffers in
    if (totalBuffers =? 0)%Z then 50%float
    else
      let mean := (Num.of_Z totalBuffers / Num.of_nat (length buffers))%float in
      let variance := (squaredDeviations mean buffers / Num.of_nat (length buffers))%float in
      let stdDev := PrimFloat.sqrt variance in
      let baseThroughput :=
        (1000 * (1 - Math_exp (-0x1.999999999999ap-5 * Num.of_Z totalBuffers)))%float in
      let imbalancePenalty := (1 + stdDev / (mean + 1))%float in
      (baseThroughput / imbalancePenalty)%float.

Definition calculateFitness (chromosome : Chromosome) (w1 w2 : float) : float :=
  let throughput := predictThroughput chromosome in
  let totalBuffers := sum chromosome in
  (w1 * throughput - w2 * Num.of_Z totalBuffers)%float.

End Fitness.

(** ** Randomness and control effects *)

(** [Math.floor(u * n)] for a result [u] of [Math.random()]. *)
Definition randomIndex (u : Q) (n : Z) : nat := Z.to_nat (Qfloor (u * inject_Z n)).

(** [u < rate] *)
Definition Qltb (u rate : Q) : bool := negb (Qle_bool rate u).

(** The contract of [Math.random()]. *)
Definition unit_source (rng : nat -> Q) : Prop :=
  forall i : nat, (0 <= rng i)%Q /\ (rng i < 1)%Q.

(** How a computation ends: with a value, with a [TypeError] (a property of
    [null] or [undefined] was read), or with the fuel of a [while] loop of
    the model used up (which no run does, see [runGA_fuel_suffices]). *)
Inductive outcome (A : Type) : Type :=
| Returns (a : A)
| Throws
| OutOfFuel.
Arguments Returns {A} a.
Arguments Throws {A}.
Arguments OutOfFuel {A}.

(** Computations that draw from the random source: the state is the number
    of draws made so far. *)
Definition M (A : Type) : Type := nat -> outcome (A * nat).

Definition ret {A : Type} (a : A) : M A := fun pos => Returns (a, pos).

Definition bind {A B : Type} (m : M A) (k : A -> M B) : M B :=
  fun pos =>
    match m pos with
    | Returns (a, pos') => k a pos'
    | Throws => Throws
    | OutOfFuel => OutOfFuel
    end.

Definition throw {A : Type} : M A := fun _ => Throws.

(** A computation that neither throws nor loops. *)
Definition lift {A : Type} (f : nat -> A * nat) : M A := fun pos => Returns (f pos).

Notation "x <- m ;; k" := (bind m (fun x => k))
  (at level 61, m at next level, right associativity).
Notation "' pat <- m ;; k" := (bind m (fun x => match x with pat => k end))
  (at level 61, pat pattern, m at next level, right associativity).

(** ** The operators *)

Section Operators.

(** The successive results of [Math.random()]. *)
Variable rng : nat -> Q.

Definition random : M Q := fun pos => Returns (rng pos, S pos).

(** The loop [while (remainingBuffers > 0) { ...; remainingBuffers--; }]. *)
Fixpoint createIndividual_loop (remainingBuffers : nat) (numBufferSlots : Z)
    (individual : Chromosome) (pos : nat) : Chromosome * nat :=
  match remainingBuffers with
  | O => (individual, pos)
  | S remaining =>
      let slot := randomIndex (rng pos) numBufferSlots in
      createIndividual_loop remaining numBufferSlots (updateAt Z.succ slot individual) (S pos)
  end.

Definition createIndividual (numBufferSlots totalBuffers : Z) (pos : nat) : Chromosome * nat :=
  if (numBufferSlots <=? 0)%Z then ([], pos)
  else
    createIndividual_loop (Z.to_nat totalBuffers) numBufferSlots
      (repeat 0%Z (Z.to_nat numBufferSlots)) pos.

(** [Array.from({ length: popSize }, () => createIndividual(...))] *)
Fixpoint initializePopulation_loop (popSize : nat) (numBufferSlots totalBuffers : Z)
    (pos : nat) : Population * nat :=
  match popSize with
  | O => ([], pos)
  | S n =>
      let (individual, pos1) := createIndividual numBufferSlots totalBuffers pos in
      let (rest, pos2) := initializePopulation_loop n numBufferSlots totalBuffers pos1 in
      (Some individual :: rest, pos2)
  end.

Definition initializePopulation (popSize numBufferSlots totalBuffers : Z) (pos : nat)
    : Population * nat :=
  initializePopulation_loop (Z.to_nat popSize) numBufferSlots totalBuffers pos.

(** The [for] loop of [tournamentSelection]; [fitnesses[i]] out of bounds is
    [undefined], which is greater than nothing. *)
Fixpoint tournament_loop (n : nat) (population : Population) (fitnesses : list float)
    (best : Ref) (bestFitness : float) (pos : nat) : Ref * nat :=
  match n with
  | O => (best, pos)
  | S n' =>
      let randomIndex := randomIndex (rng pos) (Z.of_nat (length population)) in
      match nth_error fitnesses randomIndex with
      | Some f =>
          if Num.gt f bestFitness
          then tournament_loop n' population fitnesses (nth randomIndex population None) f (S pos)
          else tournament_loop n' population fitnesses best bestFitness (S pos)
      | None => tournament_loop n' population fitnesses best bestFitness (S pos)
      end
  end.

Definition tournamentSelection (population : Population) (fitnesses : list float)
    (tournamentSize : Z) (pos : nat) : Ref * nat :=
  tournament_loop (Z.to_nat tournamentSize) population fitnesses None neg_infinity pos.

(** The loop of [repair]; it also counts its iterations. *)
Fixpoint repair_loop (fuel : nat) (size totalBuffers : Z) (child : Chromosome)
    (currentSum : Z) (iterations : nat) (pos : nat) : option (Chromosome * nat * nat) :=
  if (currentSum =? totalBuffers)%Z then Some (child, iterations, pos)
  else
    match fuel with
    | O => None
    | S fuel' =>
        if (currentSum >? totalBuffers)%Z then
          match findIndex (fun val => (val >? 0)%Z) child with
          | Some indexToReduce =>
              repair_loop fuel' size totalBuffers (updateAt Z.pred indexToReduce child)
                (currentSum - 1) (S iterations) pos
          | None =>
              let (fresh, pos') := createIndividual size totalBuffers pos in
              Some (fresh, S iterations, pos')
          end
        else
          let indexToIncrease := randomIndex (rng pos) size in
          repair_loop fuel' size totalBuffers (updateAt Z.succ indexToIncrease child)
            (currentSum + 1) (S iterations) (S pos)
    end.

(** The distance the loop has to cover; it is all the fuel it needs
    ([repair_loop_enough_fuel]). *)
Definition deviation (child : Chromosome) (totalBuffers : Z) : nat :=
  Z.to_nat (Z.abs (sum child - totalBuffers)).

Definition repair (size totalBuffers : Z) (child : Chromosome) : M Chromosome :=
  fun pos =>
    match repair_loop (deviation child totalBuffers) size totalBuffers child (sum child) 0 pos with
    | Some (repaired, _, pos') => Returns (repaired, pos')
    | None => OutOfFuel
    end.

Definition crossover (parent1 parent2 : Ref) (totalBuffers : Z) : M (Chromosome * Chromosome) :=
  match parent1 with
  | None => throw
  | Some parent1 =>
      let size := length parent1 in
      if (size <=? 1)%nat then
        match parent2 with
        | None => throw
        | Some parent2 => ret (parent1, parent2)
        end
      else
        u <- random ;;
        let crossoverPoint := (randomIndex u (Z.of_nat size - 1) + 1)%nat in
        match parent2 with
        | None => throw
        | Some parent2 =>
            let offspring1 := firstn crossoverPoint parent1 ++ skipn crossoverPoint parent2 in
            let offspring2 := firstn crossoverPoint parent2 ++ skipn crossoverPoint parent1 in
            repaired1 <- repair (Z.of_nat size) totalBuffers offspring1 ;;
            repaired2 <- repair (Z.of_nat size) totalBuffers offspring2 ;;
            ret (repaired1, repaired2)
        end
  end.

Definition mutate (chromosome : Chromosome) (pos : nat) : Chromosome * nat :=
  if (length chromosome <=? 1)%nat then (chromosome, pos)
  else
    let mutated := chromosome in
    let idx1 := randomIndex (rng pos) (Z.of_nat (length mutated)) in
    if (nth idx1 mutated 0 >? 0)%Z then
      let idx2 := randomIndex (rng (S pos)) (Z.of_nat (length mutated)) in
      (updateAt Z.succ idx2 (updateAt Z.pred idx1 mutated), S (S pos))
    else (mutated, S pos).

(** [mutate] applied to a reference: [chromosome.length] throws on [null]. *)
Definition mutateRef (chromosome : Ref) : M Ref :=
  match chromosome with
  | None => throw
  | Some c => c' <- lift (mutate c) ;; ret (Some c')
  end.

End Operators.

(** ** The evolution loop *)

Record LoopState := {
  population : Population;
  bestEver : Ref;
  bestFitnessEver : float
}.

(** What one generation leaves behind: the report it yields, and (not part
    of the program's output) the population it evaluated and the one it
    built. *)
Record GenerationRecord := {
  evaluatedPopulation : Population;
  nextPopulation : Population;
  report : ProgressData.t
}.

Record Run := {
  trace : list GenerationRecord;
  result : outcome OptimizationResult.t
}.

(** The [ProgressData] sequence a run yields. *)
Definition progress (r : Run) : list ProgressData.t := map report (trace r).

(** A member of a population that is [null] or a valid chromosome, and one
    that is a valid chromosome. *)
Definition ref_ok (L total : Z) (r : Ref) : Prop :=
  match r with
  | None => True
  | Some c => valid L total c
  end.

Definition ref_valid (L total : Z) (r : Ref) : Prop :=
  exists c : Chromosome, r = Some c /\ valid L total c.

(** The fitness of every chromosome of the run is a number greater than
    [-Infinity]: no overflow to [-Infinity], no [NaN]. *)
Definition fitness_defined (Math_exp : float -> float) (Math_pow : float -> float -> float)
    (params : OptimizationParams) : Prop :=
  forall c : Chromosome,
    valid (numStations params - 1) (totalBuffers params) c ->
    Num.gt (calculateFitness Math_exp Math_pow c (w1 params) (w2 params)) neg_infinity = true.

(** The state of the loop with a full population of valid chromosomes and
    a valid best individual. *)
Definition state_valid (L total popSize : Z) (st : LoopState) : Prop :=
  Forall (ref_valid L total) (population st) /\
  Z.of_nat (length (population st)) = popSize /\
  ref_valid L total (bestEver st).

(** What a computation started after [pos] draws establishes: [Q] of its
    value and of the draws made when it returns, [E] when it throws; it does
    not run out of fuel. *)
Definition post {A : Type} (m : M A) (pos : nat) (Q : A -> nat -> Prop) (E : Prop) : Prop :=
  match m pos with
  | Returns (a, pos') => Q a pos'
  | Throws => E
  | OutOfFuel => False
  end.

Section Evolution.

Variable Math_exp : float -> float.
Variable Math_pow : float -> float -> float.
Variable rng : nat -> Q.
Variable params : OptimizationParams.
Variable settings : GASettings.

(** [population.map(ind => calculateFitness(ind, w1, w2))]: [None] when it
    throws on a [null] member. *)
Fixpoint evaluate (population : Population) : option (list float) :=
  match population with
  | [] => Some []
  | None :: _ => None
  | Some ind :: rest =>
      match evaluate rest with
      | Some fitnesses =>
          Some (calculateFitness Math_exp Math_pow ind (w1 params) (w2 params) :: fitnesses)
      | None => None
      end
  end.

(** The scan [for (let i = 0; i < population.length; i++)] over the
    population and its fitnesses (of the same length). *)
Fixpoint scan (population : Population) (fitnesses : list float)
    (currentBestFitness : float) (currentBestIndividual : Ref) (totalFitness : float)
    : float * Ref * float :=
  match population, fitnesses with
  | ind :: population', f :: fitnesses' =>
      if Num.gt f currentBestFitness
      then scan population' fitnesses' f ind (totalFitness + f)%float
      else scan population' fitnesses' currentBestFitness currentBestIndividual
             (totalFitness + f)%float
  | _, _ => (currentBestFitness, currentBestIndividual, totalFitness)
  end.

(** One turn of [while (newPopulation.length < populationSize)]. *)
Definition reproduce (population : Population) (fitnesses : list float)
    (newPopulation : Population) : M Population :=
  parent1 <- lift (tournamentSelection rng population fitnesses (tournamentSize settings)) ;;
  u <- random rng ;;
  '(offspring1, newPopulation) <-
    (if Qltb u (crossoverRate settings) then
       parent2 <- lift (tournamentSelection rng population fitnesses (tournamentSize settings)) ;;
       '(offspring1, offspring2) <- crossover rng parent1 parent2 (totalBuffers params) ;;
       u <- random rng ;;
       offspring2 <- (if Qltb u (mutationRate settings)
                      then lift (mutate rng offspring2) else ret offspring2) ;;
       ret (Some offspring1,
            if (Z.of_nat (length newPopulation) <? populationSize settings)%Z
            then newPopulation ++ [Some offspring2] else newPopulation)
     else ret (parent1, newPopulation)) ;;
  u <- random rng ;;
  offspring1 <- (if Qltb u (mutationRate settings)
                 then mutateRef rng offspring1 else ret offspring1) ;;
  ret (newPopulation ++ [offspring1]).

Fixpoint reproduce_loop (fuel : nat) (population : Population) (fitnesses : list float)
    (newPopulation : Population) : M Population :=
  if (Z.of_nat (length newPopulation) <? populationSize settings)%Z then
    match fuel with
    | O => fun _ => OutOfFuel
    | S fuel' =>
        newPopulation <- reproduce population fitnesses newPopulation ;;
        reproduce_loop fuel' population fitnesses newPopulation
    end
  else ret newPopulation.

(** The body of [for (let gen = 0; gen < generations; gen++)]. *)
Definition generation_step (gen : Z) (st : LoopState) : M (LoopState * ProgressData.t) :=
  match evaluate (population st) with
  | None => throw
  | Some fitnesses =>
      let '(currentBestFitness, currentBestIndividual, totalFitness) :=
        scan (population st) fitnesses neg_infinity None 0%float in
      let '(bestFitnessEver, bestEver) :=
        if Num.gt currentBestFitness (bestFitnessEver st)
        then (currentBestFitness, currentBestIndividual)
        else (bestFitnessEver st, bestEver st) in
      newPopulation <-
        reproduce_loop (Z.to_nat (populationSize settings)) (population st) fitnesses [bestEver] ;;
      let population := slice0 newPopulation (populationSize settings) in
      ret ({| population := population;
              bestEver := bestEver;
              bestFitnessEver := bestFitnessEver |},
           {| ProgressData.generation := gen + 1;
              ProgressData.bestFitness := bestFitnessEver;
              ProgressData.avgFitness := (totalFitness / Num.of_nat (length population))%float |})
  end.

Fixpoint generations_loop (n : nat) (gen : Z) (st : LoopState) (pos : nat)
    : list GenerationRecord * outcome (LoopState * nat) :=
  match n with
  | O => ([], Returns (st, pos))
  | S n' =>
      match generation_step gen st pos with
      | Returns (st', pd, pos') =>
          let (records, final) := generations_loop n' (gen + 1) st' pos' in
          ({| evaluatedPopulation := population st;
              nextPopulation := population st';
              report := pd |} :: records, final)
      | Throws => ([], Throws)
      | OutOfFuel => ([], OutOfFuel)
      end
  end.

(** [return { bestAllocation: bestEver, ... }]; [predictThroughput(bestEver)]
    throws when [bestEver] is [undefined]. *)
Definition finalResult (st : LoopState) : outcome OptimizationResult.t :=
  match bestEver st with
  | None => Throws
  | Some best =>
      Returns {| OptimizationResult.bestAllocation := best;
                 OptimizationResult.predictedThroughput := predictThroughput Math_exp Math_pow best;
                 OptimizationResult.totalBuffersUsed := sum best;
                 OptimizationResult.bestFitness := bestFitnessEver st |}
  end.

Definition runGA : Run :=
  let numBufferSlots := (numStations params - 1)%Z in
  if (numBufferSlots <=? 0)%Z then
    {| trace := [];
       result := Returns {| OptimizationResult.bestAllocation := [];
                            OptimizationResult.predictedThroughput := 0%float;
                            OptimizationResult.totalBuffersUsed := 0%Z;
                            OptimizationResult.bestFitness := neg_infinity |} |}
  else
    let (population, pos) :=
      initializePopulation rng (populationSize settings) numBufferSlots (totalBuffers params) 0 in
    let bestEver := nth 0 population None in
    let (records, final) :=
      generations_loop (Z.to_nat (generations settings)) 0
        {| population := population; bestEver := bestEver; bestFitnessEver := neg_infinity |} pos in
    {| trace := records;
       result := match final with
                 | Returns (st, _) => finalResult st
                 | Throws => Throws
                 | OutOfFuel => OutOfFuel
                 end |}.

End Evolution.

(** ** Sample platform and inputs, used to evaluate concrete runs *)

(** [pow_sample] is the correctly rounded square, the only power the program
    asks for; [exp_sample] lists the correctly rounded exponential at the one
    argument the concrete inputs below reach, [-0.05 * 8]. *)
Definition pow_sample (x y : float) : float :=
  if (y =? 2)%float then (x * x)%float else nan.

Definition exp_sample (x : float) : float :=
  if (x =? -0x1.999999999999ap-2)%float then 0x1.57343067270eep-1%float else nan.

(** Six stations and eight buffers, with the default weights 1 and 2. *)
Definition params_sample : OptimizationParams :=
  {| numStations := 6; totalBuffers := 8; w1 := 1%float; w2 := 2%float |}.

(** The same with a cost weight so large that the cost [w2 * 8] overflows. *)

Definition params_overflow : OptimizationParams :=
  {| numStations := 6; totalBuffers := 8; w1 := 1%float;
     w2 := 0x1.1ccf385ebc8ap+1023%float (* 1e308 *) |}.

Definition settings_sample : GASettings :=
  {| populationSize := 4; generations := 3; mutationRate := 1 # 2;
     crossoverRate := 1 # 2; tournamentSize := 2 |}.

(** Selection only: neither crossover nor mutation. *)
Definition settings_selection : GASettings :=
  {| populationSize := 2; generations := 2; mutationRate := 0;
     crossoverRate := 0; tournamentSize := 1 |}.

(** All the ways to write [n] as a sum of [k] non-negative integers, that is,
    all the valid chromosomes of [k] slots and [n] buffers. *)
Fixpoint compositions (k n : nat) : list Chromosome :=
  match k with
  | O => if (n =? 0)%nat then [[]] else []
  | S k' =>
      flat_map (fun i => map (cons (Z.of_nat i)) (compositions k' (n - i))) (seq 0 (S n))
  end.

(** A random source: the sevenths [0, 4/7, 3/7, 4/7, 0, 5/7, 5/7, ...]. *)
Definition rng_sample (i : nat) : Q := Z.of_nat ((i * i + 3 * i) mod 7) # 7.

(** ** The user interface ([App.tsx], [components/InputControl.tsx]) *)

(** [Math.min] and [Math.max] of two numbers: [NaN] when an argument is
    [NaN]; [-0] counts as less than [+0]. *)
Definition is_neg_zero (x : float) : bool :=
  match Prim2SF x with
  | S754_zero true => true
  | _ => false
  end.

Definition Math_min (a b : float) : float :=
  if is_nan a || is_nan b then nan
  else if (a <? b)%float then a
  else if (b <? a)%float then b
  else if is_neg_zero a then a else b.

Definition Math_max (a b : float) : float :=
  if is_nan a || is_nan b then nan
  else if (a <? b)%float then b
  else if (b <? a)%float then a
  else if is_neg_zero a then b else a.

(** The value [handleBlur] of [InputControl] commits ([onChange(numValue)]),
    given the number [parseInt]/[parseFloat] read from the text typed
    ([NaN] when it is no number) and the bounds of the control (its [min]
    and [max] props, never [undefined]: they have defaults). *)
Definition handleBlur (parsed min max : float) : float :=
  let numValue := if is_nan parsed then min else parsed in
  let numValue := Math_min numValue max in
  let numValue := Math_max numValue min in
  numValue.

Definition run_result (r : Run) : outcome OptimizationResult.t := result r.

Module App.

(** The state of [App] that [handleRunOptimization] writes. *)
Record state := {
  isRunning : bool;
  progress : list ProgressData.t;
  result : option OptimizationResult.t;
  currentGeneration : Z
}.

(** The body of the loop [while (!iteration.done)]: one report received. *)
Definition receive (st : state) (value : ProgressData.t) : state :=
  {| isRunning := isRunning st;
     progress := progress st ++ [value];
     result := result st;
     currentGeneration := ProgressData.generation value |}.

(** The state [handleRunOptimization] leaves for a run of the generator: it
    resets the four fields, receives the reports one by one and, when the
    generator is done, stores the result and clears [isRunning].  It has no
    [try]: when [gaRunner.next()] rejects, the handler ends there. *)
Definition consume (r : Run) : state :=
  let started :=
    {| isRunning := true; progress := []; result := None; currentGeneration := 0%Z |} in
  let received := fold_left receive (map report (trace r)) started in
  match run_result r with
  | Returns value =>
      {| isRunning := false;
         progress := progress received;
         result := Some value;
         currentGeneration := currentGeneration received |}
  | Throws | OutOfFuel => received
  end.

End App.

Definition handleRunOptimization (Math_exp : float -> float)
    (Math_pow : float -> float -> float) (rng : nat -> Q)
    (params : OptimizationParams) (gaSettings : GASettings) : App.state :=
  App.consume (runGA Math_exp Math_pow rng params gaSettings).

(** ** The order of binary64 numbers *)

Module NumFacts.

Lemma SFcompare_rank (x y : spec_float) :
  match SFcompare x y with
  | None => Num.rank x = None \/ Num.rank y = None
  | Some c =>
      exists a b, Num.rank x = Some a /\ Num.rank y = Some b /\
        match c with
        | Lt => Num.lex_lt a b
        | Eq => a = b
        | Gt => Num.lex_lt b a
        end
  end.
Proof.
  destruct x as [sx|sx| |sx mx ex], y as [sy|sy| |sy my ey]; simpl;
    try (now left); try (now right);
    try (destruct sx); try (destruct sy); simpl;
    try (do 2 eexists; repeat split; simpl; lia).
  - destruct (Z.compare_spec ex ey) as [E|E|E].
    + rewrite Pos.compare_cont_spec. simpl.
      destruct (Pos.compare_spec mx my) as [F|F|F]; simpl;
        do 2 eexists; repeat split; simpl; try lia.
      subst. reflexivity.
    + do 2 eexists; repeat split; simpl; lia.
    + do 2 eexists; repeat split; simpl; lia.
  - destruct (Z.compare_spec ex ey) as [E|E|E].
    + rewrite Pos.compare_cont_spec. simpl.
      destruct (Pos.compare_spec mx my) as [F|F|F]; simpl;
        do 2 eexists; repeat split; simpl; try lia.
      subst. reflexivity.
    + do 2 eexists; repeat split; simpl; lia.
    + do 2 eexists; repeat split; simpl; lia.
Qed.


Lemma lex_lt_irrefl (a : Z * Z * Z) : ~ Num.lex_lt a a.
Proof. destruct a as [[a1 a2] a3]. simpl. lia. Qed.

Lemma lex_lt_asym (a b : Z * Z * Z) : Num.lex_lt a b -> ~ Num.lex_lt b a.
Proof. destruct a as [[a1 a2] a3], b as [[b1 b2] b3]. simpl. lia. Qed.

Lemma lex_lt_trans (a b c : Z * Z * Z) : Num.lex_lt a b -> Num.lex_lt b c -> Num.lex_lt a c.
Proof.
  destruct a as [[a1 a2] a3], b as [[b1 b2] b3], c as [[c1 c2] c3]. simpl. lia.
Qed.

Lemma lex_le_trans (a b c : Z * Z * Z) : Num.lex_le a b -> Num.lex_le b c -> Num.lex_le a c.
Proof.
  intros [H1|H1] [H2|H2]; subst; try (now left); try (now right).
  left. eapply lex_lt_trans; eassumption.
Qed.

Lemma ltb_rank (x y : float) :
  (x <? y)%float = true <->
  exists a b, Num.rank (Prim2SF x) = Some a /\ Num.rank (Prim2SF y) = Some b /\ Num.lex_lt a b.
Proof.
  rewrite ltb_spec. unfold SFltb.
  pose proof (SFcompare_rank (Prim2SF x) (Prim2SF y)) as H.
  destruct (SFcompare (Prim2SF x) (Prim2SF y)) as [[| |]|].
  - destruct H as (a & b & Ha & Hb & E). split; [discriminate|].
    intros (a' & b' & Ha' & Hb' & L). exfalso.
    rewrite Ha in Ha'. rewrite Hb in Hb'. injection Ha' as <-. injection Hb' as <-.
    subst. now apply (lex_lt_irrefl b).
  - destruct H as (a & b & Ha & Hb & L). split; [|reflexivity].
    intros _. now exists a, b.
  - destruct H as (a & b & Ha & Hb & G). split; [discriminate|].
    intros (a' & b' & Ha' & Hb' & L). exfalso.
    rewrite Ha in Ha'. rewrite Hb in Hb'. injection Ha' as <-. injection Hb' as <-.
    now apply (lex_lt_asym _ _ L).
  - split; [discriminate|].
    intros (a' & b' & Ha' & Hb' & _). destruct H; congruence.
Qed.

Lemma leb_rank (x y : float) :
  (x <=? y)%float = true <->
  exists a b, Num.rank (Prim2SF x) = Some a /\ Num.rank (Prim2SF y) = Some b /\ Num.lex_le a b.
Proof.
  rewrite leb_spec. unfold SFleb.
  pose proof (SFcompare_rank (Prim2SF x) (Prim2SF y)) as H.
  destruct (SFcompare (Prim2SF x) (Prim2SF y)) as [[| |]|].
  - destruct H as (a & b & Ha & Hb & E). split; [|reflexivity].
    intros _. exists a, b. repeat split; trivial. now right.
  - destruct H as (a & b & Ha & Hb & L). split; [|reflexivity].
    intros _. exists a, b. repeat split; trivial. now left.
  - destruct H as (a & b & Ha & Hb & G). split; [discriminate|].
    intros (a' & b' & Ha' & Hb' & L). exfalso.
    rewrite Ha in Ha'. rewrite Hb in Hb'. injection Ha' as <-. injection Hb' as <-.
    destruct L as [L|L].
    + now apply (lex_lt_asym _ _ L).
    + subst. now apply (lex_lt_irrefl b).
  - split; [discriminate|].
    intros (a' & b' & Ha' & Hb' & _). destruct H; congruence.
Qed.

(** [a > b] entails [b <= a]. *)
Lemma gt_le (a b : float) : Num.gt a b = true -> Num.le b a = true.
Proof.
  unfold Num.gt, Num.le. rewrite ltb_rank, leb_rank.
  intros (x & y & Hx & Hy & L). exists x, y. repeat split; trivial. now left.
Qed.

(** Neither side of a true comparison is [NaN]: each is [<=] itself. *)
Lemma gt_refl_l (a b : float) : Num.gt a b = true -> Num.le a a = true.
Proof.
  unfold Num.gt, Num.le. rewrite ltb_rank, leb_rank.
  intros (x & y & Hx & Hy & L). exists y, y. repeat split; trivial. now right.
Qed.

Lemma le_trans (a b c : float) :
  Num.le a b = true -> Num.le b c = true -> Num.le a c = true.
Proof.
  unfold Num.le. rewrite !leb_rank.
  intros (x & y & Hx & Hy & L) (y' & z & Hy' & Hz & L').
  rewrite Hy in Hy'. injection Hy' as <-.
  exists x, z. repeat split; trivial. eapply lex_le_trans; eassumption.
Qed.

Lemma le_neg_infinity_refl : Num.le neg_infinity neg_infinity = true.
Proof. reflexivity. Qed.

(** [NaN] and [-Infinity] are exactly the numbers that are not [> -Infinity]. *)
Lemma gt_neg_infinity_false (x : float) :
  Num.gt x neg_infinity = false <-> (x = neg_infinity \/ is_nan x = true).
Proof.
  unfold Num.gt, is_nan.
  rewrite ltb_spec, FloatAxioms.eqb_spec. unfold SFltb, SFeqb.
  change (Prim2SF neg_infinity) with (S754_infinity true).
  split.
  - intros H. destruct (Prim2SF x) as [s|s| |s m e] eqn:E; simpl in *.
    + destruct s; discriminate.
    + destruct s; [|discriminate]. left.
      rewrite <- (SF2Prim_Prim2SF x), E. reflexivity.
    + now right.
    + destruct s; discriminate.
  - intros [->|H]; [reflexivity|].
    destruct (Prim2SF x) as [s|s| |s m e] eqn:E; simpl in *; trivial.
    + discriminate.
    + destruct s; discriminate.
    + destruct s; simpl in H.
      * rewrite Z.compare_refl, Pos.compare_cont_refl in H. discriminate.
      * rewrite Z.compare_refl, Pos.compare_cont_refl in H. discriminate.
Qed.

(** Nothing is less than [-Infinity]. *)
Lemma gt_neg_infinity_l (x : float) : Num.gt neg_infinity x = false.
Proof.
  unfold Num.gt. rewrite ltb_spec. unfold SFltb.
  change (Prim2SF neg_infinity) with (S754_infinity true).
  destruct (Prim2SF x) as [s|s| |s m e]; simpl; try destruct s; reflexivity.
Qed.

(** Whatever is diminished by [Infinity] is [-Infinity] or [NaN]. *)
Lemma sub_infinity_not_gt (x : float) : Num.gt (x - infinity) neg_infinity = false.
Proof.
  unfold Num.gt. rewrite ltb_spec, sub_spec. unfold SFltb, SF64sub.
  change (Prim2SF neg_infinity) with (S754_infinity true).
  change (Prim2SF infinity) with (S754_infinity false).
  destruct (Prim2SF x) as [s|s| |s m e]; simpl; try destruct s; reflexivity.
Qed.

Lemma Prim2SF_inj (x y : float) : Prim2SF x = Prim2SF y -> x = y.
Proof. intros H. rewrite <- (SF2Prim_Prim2SF x), H. apply SF2Prim_Prim2SF. Qed.

Lemma SFadd_comm (x y : spec_float) : SFadd prec emax x y = SFadd prec emax y x.
Proof.
  destruct x as [sx|sx| |sx mx ex], y as [sy|sy| |sy my ey]; simpl; trivial;
    try (destruct sx, sy; reflexivity).
  rewrite (Z.min_comm ey ex). f_equal. apply Z.add_comm.
Qed.

Lemma SFadd_zero_swap (x y : spec_float) :
  SFadd prec emax (SFadd prec emax (S754_zero false) x) y =
  SFadd prec emax (SFadd prec emax (S754_zero false) y) x.
Proof.
  destruct x as [sx|sx| |sx mx ex], y as [sy|sy| |sy my ey];
    try (destruct sx); try (destruct sy); try reflexivity;
    apply (SFadd_comm (S754_finite _ _ _) (S754_finite _ _ _)).
Qed.

(** The first two terms of an accumulation that starts from 0 may be
    exchanged (addition of two binary64 numbers is commutative; of three, it
    is not associative). *)
Lemma add_zero_swap (x y : float) : (0 + x + y = 0 + y + x)%float.
Proof.
  apply Prim2SF_inj. rewrite !add_spec. apply SFadd_zero_swap.
Qed.

End NumFacts.

(** ** Sums and permutations *)

Lemma fold_left_add_shift (c : Chromosome) (a : Z) :
  fold_left Z.add c a = (a + sum c)%Z.
Proof.
  unfold sum. revert a.
  induction c as [|x c IH]; intros a; simpl.
  - lia.
  - rewrite (IH (a + x)%Z), (IH x). lia.
Qed.

Lemma sum_nil : sum [] = 0%Z.
Proof. reflexivity. Qed.

Lemma sum_cons (x : Z) (c : Chromosome) : sum (x :: c) = (x + sum c)%Z.
Proof. unfold sum at 1. simpl. apply fold_left_add_shift. Qed.

Lemma sum_app (c d : Chromosome) : sum (c ++ d) = (sum c + sum d)%Z.
Proof.
  induction c as [|x c IH].
  - change (sum d = (0 + sum d)%Z). lia.
  - change ((x :: c) ++ d) with (x :: (c ++ d)). rewrite !sum_cons, IH. lia.
Qed.

Lemma sum_repeat_zero (n : nat) : sum (repeat 0%Z n) = 0%Z.
Proof.
  induction n as [|n IH]; simpl.
  - reflexivity.
  - rewrite sum_cons, IH. reflexivity.
Qed.

Lemma sum_Permutation (c c' : Chromosome) : Permutation c c' -> sum c = sum c'.
Proof.
  induction 1 as [|x l l' _ IH|x y l|l l' l'' _ IH1 _ IH2].
  - reflexivity.
  - rewrite !sum_cons, IH. reflexivity.
  - rewrite !sum_cons. lia.
  - congruence.
Qed.

Lemma float_neq (a b : float) : Prim2SF a <> Prim2SF b -> a <> b.
Proof. intros H E. apply H. now rewrite E. Qed.

(** ** Arrays *)

Lemma length_updateAt (f : Z -> Z) (i : nat) (c : Chromosome) :
  length (updateAt f i c) = length c.
Proof.
  revert i. induction c as [|x c IH]; intros [|i]; simpl; auto.
Qed.

Lemma sum_updateAt (f : Z -> Z) (i : nat) (c : Chromosome) :
  (i < length c)%nat ->
  sum (updateAt f i c) = (sum c + (f (nth i c 0) - nth i c 0))%Z.
Proof.
  revert i. induction c as [|x c IH]; intros [|i] Hi; simpl in *; try lia.
  - rewrite !sum_cons. lia.
  - rewrite !sum_cons, IH by lia. lia.
Qed.

Lemma Forall_updateAt (P : Z -> Prop) (f : Z -> Z) (i : nat) (c : Chromosome) :
  Forall P c -> P (f (nth i c 0%Z)) -> Forall P (updateAt f i c).
Proof.
  revert i. induction c as [|x c IH]; intros [|i] Hc Hf; simpl in *; trivial.
  - inversion Hc; subst. now constructor.
  - inversion Hc; subst. constructor; auto.
Qed.

Lemma Forall_nth_nonneg (i : nat) (c : Chromosome) :
  Forall (fun b => (0 <= b)%Z) c -> (0 <= nth i c 0)%Z.
Proof.
  revert i. induction c as [|x c IH]; intros [|i] Hc; simpl; try lia.
  - now inversion Hc.
  - inversion Hc; subst. auto.
Qed.

Lemma findIndex_Some (p : Z -> bool) (c : Chromosome) (i : nat) :
  findIndex p c = Some i -> (i < length c)%nat /\ p (nth i c 0%Z) = true.
Proof.
  revert i. induction c as [|x c IH]; intros i H; simpl in *; [discriminate|].
  destruct (p x) eqn:E.
  - injection H as <-. split; [lia | exact E].
  - destruct (findIndex p c) as [j|]; [|discriminate].
    injection H as <-. destruct (IH j eq_refl). split; [lia | assumption].
Qed.

Lemma findIndex_None (p : Z -> bool) (c : Chromosome) :
  findIndex p c = None -> Forall (fun x => p x = false) c.
Proof.
  induction c as [|x c IH]; intros H; simpl in *; [constructor|].
  destruct (p x) eqn:E; [discriminate|].
  destruct (findIndex p c); [discriminate|]. constructor; auto.
Qed.

(** Without a positive entry the sum is not positive. *)
Lemma sum_no_positive (c : Chromosome) :
  Forall (fun x => (x >? 0)%Z = false) c -> (sum c <= 0)%Z.
Proof.
  induction 1 as [|x c Hx _ IH].
  - rewrite sum_nil. lia.
  - rewrite sum_cons. lia.
Qed.

Lemma sum_nonneg (c : Chromosome) :
  Forall (fun b => (0 <= b)%Z) c -> (0 <= sum c)%Z.
Proof.
  induction 1 as [|x c Hx _ IH].
  - rewrite sum_nil. lia.
  - rewrite sum_cons. lia.
Qed.

Lemma Forall_repeat_zero (n : nat) : Forall (fun b => (0 <= b)%Z) (repeat 0%Z n).
Proof. induction n; simpl; constructor; auto; lia. Qed.

(** ** Random indices *)

Lemma randomIndex_lt (u : Q) (n : Z) :
  (0 <= u)%Q -> (u < 1)%Q -> (0 < n)%Z -> (randomIndex u n < Z.to_nat n)%nat.
Proof.
  intros H0 H1 Hn. unfold randomIndex.
  assert (Hq : (0 < inject_Z n)%Q).
  { change 0%Q with (inject_Z 0). rewrite <- Zlt_Qlt. exact Hn. }
  assert (Hlo : (0 <= Qfloor (u * inject_Z n))%Z).
  { rewrite <- (Qfloor_Z 0). apply Qfloor_resp_le.
    apply Qmult_le_0_compat; [exact H0 | now apply Qlt_le_weak]. }
  assert (Hhi : (Qfloor (u * inject_Z n) < n)%Z).
  { rewrite Zlt_Qlt. eapply Qle_lt_trans; [apply Qfloor_le|].
    rewrite <- (Qmult_1_l (inject_Z n)) at 2.
    now apply Qmult_lt_compat_r. }
  lia.
Qed.

(** ** The operators keep chromosomes valid *)

Section OperatorFacts.

Variable rng : nat -> Q.
Hypothesis rng_unit : unit_source rng.

Lemma slot_lt (pos : nat) (n : Z) :
  (0 < n)%Z -> (randomIndex (rng pos) n < Z.to_nat n)%nat.
Proof. intros Hn. destruct (rng_unit pos). now apply randomIndex_lt. Qed.

Lemma createIndividual_loop_spec (remaining : nat) (L : Z) (individual : Chromosome) (pos : nat) :
  (0 < L)%Z -> Z.of_nat (length individual) = L ->
  Forall (fun b => (0 <= b)%Z) individual ->
  let r := createIndividual_loop rng remaining L individual pos in
  length (fst r) = length individual /\
  sum (fst r) = (sum individual + Z.of_nat remaining)%Z /\
  Forall (fun b => (0 <= b)%Z) (fst r) /\
  snd r = (pos + remaining)%nat.
Proof.
  revert individual pos.
  induction remaining as [|remaining IH]; intros individual pos HL Hlen Hpos; simpl.
  - repeat split; trivial; lia.
  - pose proof (slot_lt pos L HL) as Hslot.
    set (slot := randomIndex (rng pos) L) in *.
    assert (Hin : (slot < length individual)%nat) by lia.
    destruct (IH (updateAt Z.succ slot individual) (S pos) HL) as (H1 & H2 & H3 & H4).
    + rewrite length_updateAt. exact Hlen.
    + apply Forall_updateAt; trivial.
      pose proof (Forall_nth_nonneg slot _ Hpos). lia.
    + rewrite length_updateAt in H1. rewrite sum_updateAt in H2 by exact Hin.
      repeat split; trivial; lia.
Qed.

Lemma createIndividual_valid (L total : Z) (pos : nat) :
  (0 < L)%Z -> (0 <= total)%Z ->
  valid L total (fst (createIndividual rng L total pos)).
Proof.
  intros HL Ht. unfold createIndividual.
  destruct (Z.leb_spec L 0) as [H|H]; [lia|].
  destruct (createIndividual_loop_spec (Z.to_nat total) L (repeat 0%Z (Z.to_nat L)) pos HL)
    as (H1 & H2 & H3 & _).
  - rewrite repeat_length. lia.
  - apply Forall_repeat_zero.
  - rewrite repeat_length in H1. rewrite sum_repeat_zero in H2.
    unfold valid. repeat split; trivial; lia.
Qed.

Lemma mutate_valid (L total : Z) (c : Chromosome) (pos : nat) :
  valid L total c -> valid L total (fst (mutate rng c pos)).
Proof.
  intros (Hl & Hs & Hp). unfold mutate.
  destruct (length c <=? 1)%nat eqn:E; [now repeat split|].
  apply Nat.leb_gt in E. cbv zeta.
  assert (HL : (0 < Z.of_nat (length c))%Z) by lia.
  pose proof (slot_lt pos _ HL) as H1. pose proof (slot_lt (S pos) _ HL) as H2.
  rewrite Nat2Z.id in H1, H2.
  set (idx1 := randomIndex (rng pos) (Z.of_nat (length c))) in *.
  set (idx2 := randomIndex (rng (S pos)) (Z.of_nat (length c))) in *.
  destruct (Z.gtb_spec (nth idx1 c 0%Z) 0) as [G|G]; simpl; [|now repeat split].
  assert (Hp1 : Forall (fun b => (0 <= b)%Z) (updateAt Z.pred idx1 c)).
  { apply Forall_updateAt; trivial. lia. }
  repeat split.
  - now rewrite !length_updateAt.
  - rewrite sum_updateAt by (now rewrite length_updateAt).
    rewrite sum_updateAt by exact H1. lia.
  - apply Forall_updateAt; trivial.
    pose proof (Forall_nth_nonneg idx2 _ Hp1). lia.
Qed.

Lemma Forall_firstn_skipn (P : Z -> Prop) (n : nat) (c : Chromosome) :
  Forall P c -> Forall P (firstn n c) /\ Forall P (skipn n c).
Proof.
  intros H. rewrite <- (firstn_skipn n c) in H. now apply Forall_app in H.
Qed.

(** The loop of [repair] reaches the target within [|currentSum - target|]
    iterations, exactly that many when the child has no negative entry (the
    safeguard branch is then never taken). *)
Lemma repair_loop_spec (size total : Z) (fuel : nat) :
  forall (child : Chromosome) (currentSum : Z) (iterations pos : nat),
  (0 < size)%Z -> (0 <= total)%Z ->
  Z.of_nat (length child) = size -> currentSum = sum child ->
  (Z.abs (currentSum - total) <= Z.of_nat fuel)%Z ->
  exists (repaired : Chromosome) (iterations' pos' : nat),
    repair_loop rng fuel size total child currentSum iterations pos =
      Some (repaired, iterations', pos') /\
    Z.of_nat (length repaired) = size /\ sum repaired = total /\
    (iterations' <= iterations + Z.to_nat (Z.abs (currentSum - total)))%nat /\
    (Forall (fun b => (0 <= b)%Z) child ->
     Forall (fun b => (0 <= b)%Z) repaired /\
     iterations' = (iterations + Z.to_nat (Z.abs (currentSum - total)))%nat).
Proof.
  induction fuel as [|fuel IH]; intros child cs it pos Hsize Htot Hlen Hcs Hfuel.
  - simpl. destruct (Z.eqb_spec cs total) as [E|E]; [|lia].
    exists child, it, pos. replace (cs - total)%Z with 0%Z by lia.
    split; [reflexivity|]. split; [exact Hlen|]. split; [congruence|]. split; [simpl; lia|].
    intros Hc. split; [exact Hc | simpl; lia].
  - simpl. destruct (Z.eqb_spec cs total) as [E|E].
    + exists child, it, pos. replace (cs - total)%Z with 0%Z by lia.
      split; [reflexivity|]. split; [exact Hlen|]. split; [congruence|]. split; [simpl; lia|].
      intros Hc. split; [exact Hc | simpl; lia].
    + destruct (Z.gtb_spec cs total) as [G|G].
      * destruct (findIndex (fun val => (val >? 0)%Z) child) as [i|] eqn:F.
        -- apply findIndex_Some in F. destruct F as [Hi Hp].
           apply Z.gtb_lt in Hp.
           destruct (IH (updateAt Z.pred i child) (cs - 1)%Z (S it) pos Hsize Htot)
             as (r & it' & pos' & Hr & Hl & Hs & Hit & Hnn).
           ++ now rewrite length_updateAt.
           ++ rewrite sum_updateAt by exact Hi. lia.
           ++ lia.
           ++ exists r, it', pos'.
              split; [exact Hr|]. split; [exact Hl|]. split; [exact Hs|]. split; [lia|].
              intros Hc. destruct Hnn as [Hn1 Hn2].
              { apply Forall_updateAt; trivial. lia. }
              split; [exact Hn1 | lia].
        -- apply findIndex_None in F. apply sum_no_positive in F.
           pose proof (createIndividual_valid size total pos Hsize Htot) as (V1 & V2 & V3).
           destruct (createIndividual rng size total pos) as [fresh pos'] eqn:C.
           simpl in V1, V2, V3.
           exists fresh, (S it), pos'.
           split; [reflexivity|]. split; [exact V1|]. split; [exact V2|]. split; [lia|].
           intros Hc. apply sum_nonneg in Hc. lia.
      * pose proof (slot_lt pos size Hsize) as Hslot.
        set (i := randomIndex (rng pos) size) in *.
        assert (Hi : (i < length child)%nat) by lia.
        destruct (IH (updateAt Z.succ i child) (cs + 1)%Z (S it) (S pos) Hsize Htot)
          as (r & it' & pos' & Hr & Hl & Hs & Hit & Hnn).
        -- now rewrite length_updateAt.
        -- rewrite sum_updateAt by exact Hi. lia.
        -- lia.
        -- exists r, it', pos'.
           split; [exact Hr|]. split; [exact Hl|]. split; [exact Hs|]. split; [lia|].
           intros Hc. destruct Hnn as [Hn1 Hn2].
           { apply Forall_updateAt; trivial.
             pose proof (Forall_nth_nonneg i _ Hc). lia. }
           split; [exact Hn1 | lia].
Qed.

(** What the loop returns does not depend on the fuel, once it suffices. *)
Lemma repair_loop_more_fuel (size total : Z) (fuel extra : nat) :
  forall (child : Chromosome) (currentSum : Z) (iterations pos : nat)
         (r : Chromosome * nat * nat),
  repair_loop rng fuel size total child currentSum iterations pos = Some r ->
  repair_loop rng (fuel + extra) size total child currentSum iterations pos = Some r.
Proof.
  induction fuel as [|fuel IH]; intros child cs it pos r; simpl.
  - destruct (cs =? total)%Z eqn:E; [|discriminate].
    intros H. destruct extra; simpl; now rewrite E.
  - destruct (cs =? total)%Z; [trivial|].
    destruct (cs >? total)%Z.
    + destruct (findIndex (fun val => (val >? 0)%Z) child); [apply IH | trivial].
    + apply IH.
Qed.

Lemma repair_spec (size total : Z) (child : Chromosome) (pos : nat) :
  (0 < size)%Z -> (0 <= total)%Z ->
  Z.of_nat (length child) = size -> Forall (fun b => (0 <= b)%Z) child ->
  exists (repaired : Chromosome) (iterations pos' : nat),
    (forall fuel : nat, (deviation child total <= fuel)%nat ->
       repair_loop rng fuel size total child (sum child) 0 pos =
         Some (repaired, iterations, pos')) /\
    repair rng size total child pos = Returns (repaired, pos') /\
    iterations = deviation child total /\
    valid size total repaired.
Proof.
  intros Hsize Htot Hlen Hnn.
  destruct (repair_loop_spec size total (deviation child total) child (sum child) 0 pos
              Hsize Htot Hlen eq_refl) as (r & it & pos' & Hr & Hl & Hs & _ & Hc).
  { unfold deviation. lia. }
  destruct (Hc Hnn) as [Hr1 Hr2].
  exists r, it, pos'. split; [|split; [|split]].
  - intros fuel Hfuel.
    replace fuel with (deviation child total + (fuel - deviation child total))%nat by lia.
    now apply repair_loop_more_fuel.
  - unfold repair. now rewrite Hr.
  - exact Hr2.
  - now repeat split.
Qed.

(** Crossover of two parents of the same length, at least 2: the cut point,
    the two children and their repair. *)
Lemma crossover_spec (total : Z) (parent1 parent2 : Chromosome) (pos : nat) :
  (2 <= length parent1)%nat -> length parent2 = length parent1 -> (0 <= total)%Z ->
  Forall (fun b => (0 <= b)%Z) parent1 -> Forall (fun b => (0 <= b)%Z) parent2 ->
  let size := Z.of_nat (length parent1) in
  let crossoverPoint := (randomIndex (rng pos) (size - 1) + 1)%nat in
  let child1 := firstn crossoverPoint parent1 ++ skipn crossoverPoint parent2 in
  let child2 := firstn crossoverPoint parent2 ++ skipn crossoverPoint parent1 in
  exists (offspring1 : Chromosome) (n1 pos1 : nat) (offspring2 : Chromosome) (n2 pos2 : nat),
    (forall fuel : nat, (deviation child1 total <= fuel)%nat ->
       repair_loop rng fuel size total child1 (sum child1) 0 (S pos) =
         Some (offspring1, n1, pos1)) /\
    (forall fuel : nat, (deviation child2 total <= fuel)%nat ->
       repair_loop rng fuel size total child2 (sum child2) 0 pos1 =
         Some (offspring2, n2, pos2)) /\
    crossover rng (Some parent1) (Some parent2) total pos =
      Returns ((offspring1, offspring2), pos2) /\
    n1 = deviation child1 total /\ n2 = deviation child2 total /\
    valid size total offspring1 /\ valid size total offspring2.
Proof.
  intros Hlen1 Hlen2 Htot Hnn1 Hnn2 size cp child1 child2.
  assert (Hsize : (0 < size)%Z) by (unfold size; lia).
  assert (Hcp : (1 <= cp <= length parent1 - 1)%nat).
  { pose proof (slot_lt pos (size - 1)) as H. unfold cp, size in *. lia. }
  destruct (Forall_firstn_skipn _ cp parent1 Hnn1) as [F1 S1].
  destruct (Forall_firstn_skipn _ cp parent2 Hnn2) as [F2 S2].
  assert (Hc1 : Z.of_nat (length child1) = size).
  { unfold child1, size. rewrite length_app, length_firstn, length_skipn. lia. }
  assert (Hc2 : Z.of_nat (length child2) = size).
  { unfold child2, size. rewrite length_app, length_firstn, length_skipn. lia. }
  assert (Hn1 : Forall (fun b => (0 <= b)%Z) child1) by (apply Forall_app; now split).
  assert (Hn2 : Forall (fun b => (0 <= b)%Z) child2) by (apply Forall_app; now split).
  destruct (repair_spec size total child1 (S pos) Hsize Htot Hc1 Hn1)
    as (o1 & n1 & pos1 & R1 & Q1 & I1 & V1).
  destruct (repair_spec size total child2 pos1 Hsize Htot Hc2 Hn2)
    as (o2 & n2 & pos2 & R2 & Q2 & I2 & V2).
  exists o1, n1, pos1, o2, n2, pos2.
  split; [exact R1|]. split; [exact R2|].
  split; [|split; [exact I1|split; [exact I2|split; [exact V1|exact V2]]]].
  unfold crossover.
  destruct (Nat.leb_spec (length parent1) 1) as [H|_]; [lia|].
  unfold bind, random. fold size. fold cp. fold child1. fold child2.
  rewrite Q1, Q2. reflexivity.
Qed.

(** Crossover of two valid parents returns two valid offspring. *)
Lemma crossover_valid (L total : Z) (parent1 parent2 : Chromosome) (pos : nat) :
  (0 <= total)%Z -> valid L total parent1 -> valid L total parent2 ->
  exists (offspring1 offspring2 : Chromosome) (pos' : nat),
    crossover rng (Some parent1) (Some parent2) total pos =
      Returns ((offspring1, offspring2), pos') /\
    valid L total offspring1 /\ valid L total offspring2.
Proof.
  intros Htot V1 V2.
  destruct (Nat.leb_spec (length parent1) 1) as [H|H].
  - exists parent1, parent2, pos. split; [|now split].
    unfold crossover. destruct (Nat.leb_spec (length parent1) 1); [reflexivity | lia].
  - destruct V1 as (L1 & S1 & N1), V2 as (L2 & S2 & N2).
    destruct (crossover_spec total parent1 parent2 pos) as
      (o1 & n1 & pos1 & o2 & n2 & pos2 & _ & _ & C & _ & _ & W1 & W2);
      trivial; try lia.
    rewrite L1 in W1, W2. now exists o1, o2, pos2.
Qed.

End OperatorFacts.

(** The fuel [deviation child total] is enough whatever the child, the
    target and the random source are: [repair] never runs out of it. *)
Lemma repair_loop_enough_fuel (rng : nat -> Q) (size total : Z) (fuel : nat) :
  forall (child : Chromosome) (currentSum : Z) (iterations pos : nat),
  (Z.abs (currentSum - total) <= Z.of_nat fuel)%Z ->
  repair_loop rng fuel size total child currentSum iterations pos <> None.
Proof.
  induction fuel as [|fuel IH]; intros child cs it pos Hfuel; simpl.
  - destruct (Z.eqb_spec cs total); [discriminate | lia].
  - destruct (Z.eqb_spec cs total); [discriminate|].
    destruct (Z.gtb_spec cs total).
    + destruct (findIndex (fun val => (val >? 0)%Z) child).
      * apply IH. lia.
      * destruct (createIndividual rng size total pos). discriminate.
    + apply IH. lia.
Qed.

(** ** Tournament selection *)

Section TournamentFacts.

Variable rng : nat -> Q.

(** The selected reference is the initial one, [undefined], or a member of
    the population. *)
Lemma tournament_loop_member (n : nat) (population : Population) (fitnesses : list float) :
  forall (best : Ref) (bestFitness : float) (pos : nat),
  let r := fst (tournament_loop rng n population fitnesses best bestFitness pos) in
  r = best \/ r = None \/ In r population.
Proof.
  induction n as [|n IH]; intros best bf pos; simpl; [now left|].
  set (i := randomIndex (rng pos) (Z.of_nat (length population))).
  destruct (nth_error fitnesses i) as [f|]; [|apply IH].
  destruct (Num.gt f bf); [|apply IH].
  destruct (IH (nth i population None) f (S pos)) as [H|[H|H]].
  - right. rewrite H. destruct (nth_in_or_default i population None) as [G|G]; auto.
  - now right; left.
  - now right; right.
Qed.

Lemma tournamentSelection_member (population : Population) (fitnesses : list float)
    (tournamentSize : Z) (pos : nat) :
  let r := fst (tournamentSelection rng population fitnesses tournamentSize pos) in
  r = None \/ In r population.
Proof.
  unfold tournamentSelection.
  destruct (tournament_loop_member (Z.to_nat tournamentSize) population fitnesses
              None neg_infinity pos) as [H|[H|H]]; auto.
Qed.

(** While every drawn fitness is [-Infinity] or [NaN] nothing is selected. *)
Lemma tournament_loop_none (population : Population) (fitnesses : list float) (n : nat) :
  forall pos : nat,
  (forall i : nat, (i < n)%nat ->
     let f := nth (randomIndex (rng (pos + i)) (Z.of_nat (length population))) fitnesses nan in
     f = neg_infinity \/ is_nan f = true) ->
  fst (tournament_loop rng n population fitnesses None neg_infinity pos) = None.
Proof.
  induction n as [|n IH]; intros pos H; simpl; [reflexivity|].
  assert (Hrest : fst (tournament_loop rng n population fitnesses None neg_infinity (S pos)) = None).
  { apply IH. intros i Hi. specialize (H (S i)). rewrite Nat.add_succ_r in H.
    apply H. lia. }
  specialize (H 0%nat). rewrite Nat.add_0_r in H. cbv zeta in H.
  set (i := randomIndex (rng pos) (Z.of_nat (length population))) in *.
  destruct (nth_error fitnesses i) as [f|] eqn:E; [|exact Hrest].
  rewrite (nth_error_nth _ _ nan E) in H.
  apply NumFacts.gt_neg_infinity_false in H; [|lia]. now rewrite H.
Qed.

Hypothesis rng_unit : unit_source rng.

Lemma tournament_index_lt (population : Population) (pos : nat) :
  population <> [] ->
  (randomIndex (rng pos) (Z.of_nat (length population)) < length population)%nat.
Proof.
  intros Hne. destruct (rng_unit pos) as [H0 H1].
  pose proof (randomIndex_lt (rng pos) (Z.of_nat (length population)) H0 H1) as H.
  destruct population; [congruence|]. simpl length in *. lia.
Qed.

Lemma tournament_loop_In (n : nat) (population : Population) (fitnesses : list float) :
  forall (best : Ref) (bestFitness : float) (pos : nat),
  population <> [] -> In best population ->
  In (fst (tournament_loop rng n population fitnesses best bestFitness pos)) population.
Proof.
  induction n as [|n IH]; intros best bf pos Hne Hin; simpl; trivial.
  pose proof (tournament_index_lt population pos Hne) as Hi.
  set (i := randomIndex (rng pos) (Z.of_nat (length population))) in *.
  destruct (nth_error fitnesses i) as [f|]; [|now apply IH].
  destruct (Num.gt f bf); [|now apply IH].
  apply IH; trivial. now apply nth_In.
Qed.

(** When every fitness is greater than [-Infinity], the first draw already
    replaces the initial [null], and a member of the population is selected. *)
Lemma tournament_loop_first (n : nat) (population : Population) (fitnesses : list float)
    (pos : nat) :
  population <> [] -> length fitnesses = length population ->
  (forall f : float, In f fitnesses -> Num.gt f neg_infinity = true) ->
  In (fst (tournament_loop rng (S n) population fitnesses None neg_infinity pos)) population.
Proof.
  intros Hne Hlen Hgt. simpl.
  pose proof (tournament_index_lt population pos Hne) as Hi.
  set (i := randomIndex (rng pos) (Z.of_nat (length population))) in *.
  destruct (nth_error fitnesses i) as [f|] eqn:E.
  - rewrite (Hgt f (nth_error_In _ _ E)).
    apply tournament_loop_In; trivial. now apply nth_In.
  - apply nth_error_None in E. lia.
Qed.

Lemma tournamentSelection_In (population : Population) (fitnesses : list float)
    (tournamentSize : Z) (pos : nat) :
  population <> [] -> length fitnesses = length population ->
  (forall f : float, In f fitnesses -> Num.gt f neg_infinity = true) ->
  (1 <= tournamentSize)%Z ->
  In (fst (tournamentSelection rng population fitnesses tournamentSize pos)) population.
Proof.
  intros Hne Hlen Hgt HT. unfold tournamentSelection.
  destruct (Z.to_nat tournamentSize) as [|n] eqn:E; [lia|].
  now apply tournament_loop_first.
Qed.

End TournamentFacts.

(** ** Rules for computations *)

Lemma post_ret {A : Type} (a : A) (pos : nat) (Q : A -> nat -> Prop) (E : Prop) :
  Q a pos -> post (ret a) pos Q E.
Proof. trivial. Qed.

Lemma post_throw {A : Type} (pos : nat) (Q : A -> nat -> Prop) (E : Prop) :
  E -> post throw pos Q E.
Proof. trivial. Qed.

Lemma post_lift {A : Type} (f : nat -> A * nat) (pos : nat) (Q : A -> nat -> Prop) (E : Prop) :
  Q (fst (f pos)) (snd (f pos)) -> post (lift f) pos Q E.
Proof. unfold post, lift. now destruct (f pos). Qed.

Lemma post_random (rng : nat -> Q) (pos : nat) (Q : Q -> nat -> Prop) (E : Prop) :
  Q (rng pos) (S pos) -> post (random rng) pos Q E.
Proof. trivial. Qed.

Lemma post_bind {A B : Type} (m : M A) (k : A -> M B) (pos : nat)
    (Q : B -> nat -> Prop) (E : Prop) :
  post m pos (fun a pos' => post (k a) pos' Q E) E -> post (bind m k) pos Q E.
Proof.
  unfold post, bind. destruct (m pos) as [[a pos']| |]; trivial.
Qed.

Lemma post_seq {A B : Type} (m : M A) (k : A -> M B) (pos : nat)
    (R : A -> nat -> Prop) (Q : B -> nat -> Prop) (E : Prop) :
  post m pos R E -> (forall a pos', R a pos' -> post (k a) pos' Q E) ->
  post (bind m k) pos Q E.
Proof.
  intros H1 H2. unfold post, bind in *.
  destruct (m pos) as [[a pos']| |]; trivial. exact (H2 a pos' H1).
Qed.

Lemma post_weaken {A : Type} (m : M A) (pos : nat) (Q Q' : A -> nat -> Prop) (E E' : Prop) :
  post m pos Q E -> (forall a pos', Q a pos' -> Q' a pos') -> (E -> E') ->
  post m pos Q' E'.
Proof.
  unfold post. destruct (m pos) as [[a pos']| |]; auto.
Qed.

Lemma length_initializePopulation (rng : nat -> Q) (popSize L total : Z) (pos : nat) :
  length (fst (initializePopulation rng popSize L total pos)) = Z.to_nat popSize.
Proof.
  unfold initializePopulation. generalize (Z.to_nat popSize) as n. intros n. revert pos.
  induction n as [|n IH]; intros pos; simpl; [reflexivity|].
  destruct (createIndividual rng L total pos) as [individual pos1].
  specialize (IH pos1).
  destruct (initializePopulation_loop rng n L total pos1) as [rest pos2].
  simpl in *. now rewrite IH.
Qed.

(** ** One generation *)

Section GenerationFacts.

Variable Math_exp : float -> float.
Variable Math_pow : float -> float -> float.
Variable rng : nat -> Q.
Variable params : OptimizationParams.
Variable settings : GASettings.

Let fitness (c : Chromosome) : float :=
  calculateFitness Math_exp Math_pow c (w1 params) (w2 params).

(** A population is evaluated only when it has no [null] member. *)
Lemma evaluate_Some (population : Population) (fitnesses : list float) :
  evaluate Math_exp Math_pow params population = Some fitnesses ->
  exists chromosomes : list Chromosome,
    population = map Some chromosomes /\ fitnesses = map fitness chromosomes.
Proof.
  revert fitnesses. induction population as [|[c|] population IH]; intros fitnesses H; simpl in H.
  - injection H as <-. now exists [].
  - destruct (evaluate Math_exp Math_pow params population) as [fs|]; [|discriminate].
    injection H as <-. destruct (IH fs eq_refl) as (cs & -> & ->).
    now exists (c :: cs).
  - discriminate.
Qed.

Lemma scan_total (population : Population) (fitnesses : list float) :
  length fitnesses = length population ->
  forall (currentBestFitness : float) (currentBestIndividual : Ref) (totalFitness : float),
  snd (scan population fitnesses currentBestFitness currentBestIndividual totalFitness) =
  fold_left PrimFloat.add fitnesses totalFitness.
Proof.
  revert fitnesses.
  induction population as [|ind population IH]; intros [|f fitnesses] Hlen b i t;
    simpl in *; try discriminate; trivial.
  destruct (Num.gt f b); apply IH; lia.
Qed.

(** The scan leaves its best individual as it was or sets it to a member. *)
Lemma scan_best (population : Population) (fitnesses : list float) :
  forall (currentBestFitness : float) (currentBestIndividual : Ref) (totalFitness : float),
  let r := fst (scan population fitnesses currentBestFitness currentBestIndividual totalFitness) in
  (fst r = currentBestFitness /\ snd r = currentBestIndividual) \/ In (snd r) population.
Proof.
  revert fitnesses.
  induction population as [|ind population IH]; intros [|f fitnesses] b i t;
    simpl; try (now left).
  destruct (Num.gt f b).
  - right. destruct (IH fitnesses f ind (t + f)%float) as [[_ H]|H]; [left | right]; auto.
  - destruct (IH fitnesses b i (t + f)%float) as [H|H]; [left | right; right]; auto.
Qed.

(** The loop that fills the new population is left only through its guard. *)
Lemma reproduce_loop_exit (fuel : nat) (population : Population) (fitnesses : list float) :
  forall (newPopulation : Population) (pos : nat) (filled : Population) (pos' : nat),
  reproduce_loop rng params settings fuel population fitnesses newPopulation pos =
    Returns (filled, pos') ->
  (populationSize settings <= Z.of_nat (length filled))%Z.
Proof.
  induction fuel as [|fuel IH]; intros np pos filled pos'; simpl;
    destruct (Z.ltb_spec (Z.of_nat (length np)) (populationSize settings)) as [G|G].
  - discriminate.
  - unfold ret. intros H. injection H as <- <-. exact G.
  - unfold bind.
    destruct (reproduce rng params settings population fitnesses np pos) as [[np1 pos1]| |];
      try discriminate.
    apply IH.
  - unfold ret. intros H. injection H as <- <-. exact G.
Qed.

Lemma length_slice0 {A : Type} (l : list A) (e : Z) :
  (0 <= e <= Z.of_nat (length l))%Z -> Z.of_nat (length (slice0 l e)) = e.
Proof.
  intros H. unfold slice0. destruct (Z.ltb_spec e 0); [lia|].
  rewrite length_firstn. lia.
Qed.

(** What a generation that completes has done. *)
Lemma generation_step_inv (gen : Z) (st st' : LoopState) (pd : ProgressData.t) (pos pos' : nat) :
  generation_step Math_exp Math_pow rng params settings gen st pos = Returns ((st', pd), pos') ->
  exists (fitnesses : list float) (newPopulation : Population),
    evaluate Math_exp Math_pow params (population st) = Some fitnesses /\
    let r := scan (population st) fitnesses neg_infinity None 0%float in
    let improved := Num.gt (fst (fst r)) (bestFitnessEver st) in
    bestFitnessEver st' = (if improved then fst (fst r) else bestFitnessEver st) /\
    bestEver st' = (if improved then snd (fst r) else bestEver st) /\
    reproduce_loop rng params settings (Z.to_nat (populationSize settings))
      (population st) fitnesses [bestEver st'] pos = Returns (newPopulation, pos') /\
    population st' = slice0 newPopulation (populationSize settings) /\
    pd = {| ProgressData.generation := gen + 1;
            ProgressData.bestFitness := bestFitnessEver st';
            ProgressData.avgFitness :=
              (snd r / Num.of_nat (length (population st')))%float |}.
Proof.
  unfold generation_step.
  destruct (evaluate Math_exp Math_pow params (population st)) as [fitnesses|];
    [|discriminate].
  destruct (scan (population st) fitnesses neg_infinity None 0%float) as [[cbf cbi] tf] eqn:Es.
  destruct (Num.gt cbf (bestFitnessEver st)) eqn:G;
    unfold bind; simpl;
    match goal with
    | |- context [reproduce_loop ?a ?b ?c ?d ?e ?f ?g ?h] =>
        destruct (reproduce_loop a b c d e f g h) as [[np pos1]| |] eqn:R
    end; try discriminate;
    unfold ret; intros H; injection H as <- <- <-;
    exists fitnesses, np; cbv zeta; rewrite Es; simpl; rewrite ?G; repeat split; trivial.
Qed.

(** The best fitness reported is the best fitness kept, and it is the
    previous one or greater. *)
Lemma generation_step_bestFitness (gen : Z) (st st' : LoopState) (pd : ProgressData.t)
    (pos pos' : nat) :
  generation_step Math_exp Math_pow rng params settings gen st pos = Returns ((st', pd), pos') ->
  Num.le (bestFitnessEver st) (bestFitnessEver st) = true ->
  ProgressData.generation pd = (gen + 1)%Z /\
  ProgressData.bestFitness pd = bestFitnessEver st' /\
  Num.le (bestFitnessEver st) (bestFitnessEver st') = true /\
  Num.le (bestFitnessEver st') (bestFitnessEver st') = true.
Proof.
  intros H Hrefl. apply generation_step_inv in H.
  destruct H as (fits & np & _ & Hb & _ & _ & _ & ->). simpl.
  split; [reflexivity|]. split; [reflexivity|].
  rewrite Hb.
  destruct (Num.gt _ (bestFitnessEver st)) eqn:G; [|now split].
  split; [now apply NumFacts.gt_le | now apply NumFacts.gt_refl_l in G].
Qed.

(** The average reported divides the sum of the fitnesses of the population
    that was evaluated by the size of the new one, [populationSize]. *)
Lemma generation_step_avgFitness (gen : Z) (st st' : LoopState) (pd : ProgressData.t)
    (pos pos' : nat) :
  (1 <= populationSize settings)%Z ->
  generation_step Math_exp Math_pow rng params settings gen st pos = Returns ((st', pd), pos') ->
  exists chromosomes : list Chromosome,
    population st = map Some chromosomes /\
    Z.of_nat (length (population st')) = populationSize settings /\
    ProgressData.avgFitness pd =
      (fold_left PrimFloat.add (map fitness chromosomes) 0 /
       Num.of_Z (populationSize settings))%float.
Proof.
  intros Hpop H. apply generation_step_inv in H.
  destruct H as (fits & np & He & _ & _ & Hr & Hp & ->). simpl.
  apply reproduce_loop_exit in Hr.
  assert (Hlen : Z.of_nat (length (population st')) = populationSize settings).
  { rewrite Hp. apply length_slice0. lia. }
  destruct (evaluate_Some _ _ He) as (cs & Hcs & Hfits).
  exists cs. split; [exact Hcs|]. split; [exact Hlen|].
  rewrite scan_total.
  - unfold Num.of_nat. now rewrite Hlen, Hfits.
  - rewrite Hfits, Hcs, !length_map. reflexivity.
Qed.

End GenerationFacts.

(** ** The sequence of generations *)

Section RunFacts.

Variable Math_exp : float -> float.
Variable Math_pow : float -> float -> float.
Variable rng : nat -> Q.
Variable params : OptimizationParams.
Variable settings : GASettings.

Let fitness (c : Chromosome) : float :=
  calculateFitness Math_exp Math_pow c (w1 params) (w2 params).

Let best_le (a b : ProgressData.t) : Prop :=
  Num.le (ProgressData.bestFitness a) (ProgressData.bestFitness b) = true.

(** At most [n] reports, numbered from [gen + 1] on. *)
Lemma generations_loop_numbering (n : nat) :
  forall (g : nat) (st : LoopState) (pos : nat),
  let r := generations_loop Math_exp Math_pow rng params settings n (Z.of_nat g) st pos in
  (length (fst r) <= n)%nat /\
  map ProgressData.generation (map report (fst r)) =
    map Z.of_nat (seq (S g) (length (fst r))) /\
  (forall (st' : LoopState) (pos' : nat), snd r = Returns (st', pos') -> length (fst r) = n).
Proof.
  induction n as [|n IH]; intros g st pos; simpl.
  - repeat split; trivial.
  - destruct (generation_step Math_exp Math_pow rng params settings (Z.of_nat g) st pos)
      as [[[st1 pd] pos1]| |] eqn:G; simpl; try (repeat split; trivial; try lia; discriminate).
    specialize (IH (S g) st1 pos1). cbv zeta in IH.
    replace (Z.of_nat g + 1)%Z with (Z.of_nat (S g)) by lia.
    destruct (generations_loop Math_exp Math_pow rng params settings n (Z.of_nat (S g)) st1 pos1)
      as [records final].
    simpl in *. destruct IH as (H1 & H2 & H3).
    apply generation_step_inv in G. destruct G as (fits & np & _ & _ & _ & _ & _ & ->).
    simpl. split; [lia|]. split.
    + rewrite H2. f_equal. lia.
    + intros st' pos' E. f_equal. eapply H3. exact E.
Qed.

(** The best fitness never decreases along the reports, and the state left
    at the end holds a best fitness that is at least each of them. *)
Lemma generations_loop_bestFitness (n : nat) :
  forall (gen : Z) (st : LoopState) (pos : nat),
  Num.le (bestFitnessEver st) (bestFitnessEver st) = true ->
  let r := generations_loop Math_exp Math_pow rng params settings n gen st pos in
  Sorted best_le (map report (fst r)) /\
  Forall (fun pd => Num.le (bestFitnessEver st) (ProgressData.bestFitness pd) = true)
    (map report (fst r)) /\
  (forall (st' : LoopState) (pos' : nat), snd r = Returns (st', pos') ->
     Num.le (bestFitnessEver st) (bestFitnessEver st') = true /\
     Forall (fun pd => Num.le (ProgressData.bestFitness pd) (bestFitnessEver st') = true)
       (map report (fst r))).
Proof.
  induction n as [|n IH]; intros gen st pos Hrefl; simpl.
  - split; [constructor|]. split; [constructor|].
    intros st' pos' E. injection E as <- _. now split.
  - destruct (generation_step Math_exp Math_pow rng params settings gen st pos)
      as [[[st1 pd] pos1]| |] eqn:G; simpl;
      try (split; [constructor|]; split; [constructor|]; discriminate).
    destruct (generation_step_bestFitness _ _ _ _ _ _ _ _ _ _ _ G Hrefl) as (_ & Hpd & Hle & Hrefl1).
    specialize (IH (gen + 1)%Z st1 pos1 Hrefl1). cbv zeta in IH.
    destruct (generations_loop Math_exp Math_pow rng params settings n (gen + 1) st1 pos1)
      as [records final].
    simpl in *. destruct IH as (HS & HF & HR).
    split; [|split].
    + constructor; [exact HS|].
      destruct (map report records) as [|pd1 rest]; constructor.
      inversion HF; subst. unfold best_le. now rewrite Hpd.
    + constructor; [now rewrite Hpd|].
      eapply Forall_impl; [|exact HF]. intros a Ha. simpl in Ha.
      eapply NumFacts.le_trans; eassumption.
    + intros st' pos' E. destruct (HR st' pos' E) as [H1 H2].
      split; [eapply NumFacts.le_trans; eassumption|].
      constructor; [now rewrite Hpd | exact H2].
Qed.

(** Every report averages over the population that was evaluated. *)
Lemma generations_loop_avgFitness (n : nat) :
  (1 <= populationSize settings)%Z ->
  forall (gen : Z) (st : LoopState) (pos : nat),
  Z.of_nat (length (population st)) = populationSize settings ->
  Forall (fun rec =>
            exists chromosomes : list Chromosome,
              evaluatedPopulation rec = map Some chromosomes /\
              Z.of_nat (length chromosomes) = populationSize settings /\
              ProgressData.avgFitness (report rec) =
                (fold_left PrimFloat.add (map fitness chromosomes) 0 /
                 Num.of_Z (populationSize settings))%float)
    (fst (generations_loop Math_exp Math_pow rng params settings n gen st pos)).
Proof.
  intros Hpop. induction n as [|n IH]; intros gen st pos Hlen; simpl; [constructor|].
  destruct (generation_step Math_exp Math_pow rng params settings gen st pos)
    as [[[st1 pd] pos1]| |] eqn:G; simpl; try constructor.
  destruct (generation_step_avgFitness _ _ _ _ _ _ _ _ _ _ _ Hpop G) as (cs & H1 & H2 & H3).
  specialize (IH (gen + 1)%Z st1 pos1 H2).
  destruct (generations_loop Math_exp Math_pow rng params settings n (gen + 1) st1 pos1)
    as [records final].
  simpl in *. constructor; [|exact IH].
  exists cs. split; [exact H1|]. split; [|exact H3].
  rewrite H1, length_map in Hlen. exact Hlen.
Qed.

End RunFacts.

(** ** The fuel of the model suffices *)

Section FuelFacts.

Variable Math_exp : float -> float.
Variable Math_pow : float -> float -> float.
Variable rng : nat -> Q.
Variable params : OptimizationParams.
Variable settings : GASettings.

Lemma repair_total (size total : Z) (child : Chromosome) (pos : nat) :
  post (repair rng size total child) pos (fun _ _ => True) True.
Proof.
  unfold post, repair.
  pose proof (repair_loop_enough_fuel rng size total (deviation child total) child
                (sum child) 0 pos) as H.
  destruct (repair_loop rng (deviation child total) size total child (sum child) 0 pos)
    as [[[repaired n] pos']|]; [trivial|].
  apply H; [unfold deviation; lia | reflexivity].
Qed.

Lemma crossover_total (parent1 parent2 : Ref) (total : Z) (pos : nat) :
  post (crossover rng parent1 parent2 total) pos (fun _ _ => True) True.
Proof.
  unfold crossover. destruct parent1 as [p1|]; [|exact I].
  destruct (length p1 <=? 1)%nat.
  - destruct parent2; exact I.
  - apply post_bind, post_random. destruct parent2 as [p2|]; [|exact I].
    eapply post_seq; [apply repair_total|]. intros o1 pos1 _.
    eapply post_seq; [apply repair_total|]. intros o2 pos2 _.
    exact I.
Qed.

(** A turn of the filling loop that returns has added one or two members. *)
Lemma reproduce_grows (population : Population) (fitnesses : list float)
    (newPopulation : Population) (pos : nat) :
  post (reproduce rng params settings population fitnesses newPopulation) pos
    (fun filled _ => (length newPopulation < length filled)%nat) True.
Proof.
  unfold reproduce. apply post_bind, post_lift, post_bind, post_random.
  apply post_seq with
    (R := fun (a : Ref * Population) (_ : nat) => (length newPopulation <= length (snd a))%nat).
  - destruct (Qltb _ (crossoverRate settings)); [|now apply post_ret].
    apply post_bind, post_lift.
    eapply post_seq; [apply crossover_total|]. intros [o1 o2] pos2 _.
    apply post_bind, post_random.
    apply post_seq with (R := fun (_ : Chromosome) (_ : nat) => True).
    + destruct (Qltb _ (mutationRate settings)); [now apply post_lift | now apply post_ret].
    + intros o2' pos3 _. apply post_ret. simpl.
      destruct (Z.of_nat (length newPopulation) <? populationSize settings)%Z; [|lia].
      rewrite length_app. lia.
  - intros [offspring1 filled] pos2 Hlen. simpl in Hlen.
    apply post_bind, post_random.
    apply post_seq with (R := fun (_ : Ref) (_ : nat) => True).
    + destruct (Qltb _ (mutationRate settings)); [|now apply post_ret].
      destruct offspring1; [|exact I].
      unfold mutateRef. now apply post_bind, post_lift, post_ret.
    + intros o pos3 _. apply post_ret. rewrite length_app. simpl. lia.
Qed.

Lemma reproduce_loop_total (fuel : nat) (population : Population) (fitnesses : list float) :
  forall (newPopulation : Population) (pos : nat),
  (populationSize settings - Z.of_nat (length newPopulation) <= Z.of_nat fuel)%Z ->
  post (reproduce_loop rng params settings fuel population fitnesses newPopulation) pos
    (fun _ _ => True) True.
Proof.
  induction fuel as [|fuel IH]; intros newPopulation pos Hfuel; simpl;
    destruct (Z.ltb_spec (Z.of_nat (length newPopulation)) (populationSize settings)) as [G|G];
    try exact I.
  - lia.
  - eapply post_seq; [apply reproduce_grows|].
    intros filled pos' Hlen. cbv beta in Hlen. apply IH. lia.
Qed.

Lemma generation_step_total (gen : Z) (st : LoopState) (pos : nat) :
  generation_step Math_exp Math_pow rng params settings gen st pos <> OutOfFuel.
Proof.
  unfold generation_step.
  destruct (evaluate Math_exp Math_pow params (population st)) as [fitnesses|];
    [|discriminate].
  destruct (scan (population st) fitnesses neg_infinity None 0%float) as [[cbf cbi] tf].
  destruct (Num.gt cbf (bestFitnessEver st));
    unfold bind;
    match goal with
    | |- context [reproduce_loop ?a ?b ?c ?d ?e ?f ?g ?h] =>
        pose proof (reproduce_loop_total d e f g h) as H; unfold post in H;
        destruct (reproduce_loop a b c d e f g h) as [[np pos1]| |]
    end; try discriminate; exfalso; apply H; simpl; lia.
Qed.

Lemma generations_loop_total (n : nat) :
  forall (gen : Z) (st : LoopState) (pos : nat),
  snd (generations_loop Math_exp Math_pow rng params settings n gen st pos) <> OutOfFuel.
Proof.
  induction n as [|n IH]; intros gen st pos; simpl; [discriminate|].
  pose proof (generation_step_total gen st pos) as H.
  destruct (generation_step Math_exp Math_pow rng params settings gen st pos)
    as [[[st1 pd] pos1]| |]; [|discriminate|contradiction].
  specialize (IH (gen + 1)%Z st1 pos1).
  now destruct (generations_loop Math_exp Math_pow rng params settings n (gen + 1) st1 pos1).
Qed.

(** Whatever the input, the fuel given to the two [while] loops of the model
    is never used up: a run returns or throws. *)
Lemma runGA_fuel_suffices :
  result (runGA Math_exp Math_pow rng params settings) <> OutOfFuel.
Proof.
  unfold runGA. destruct (numStations params - 1 <=? 0)%Z; [discriminate|].
  destruct (initializePopulation rng (populationSize settings) (numStations params - 1)
              (totalBuffers params) 0) as [population0 pos0].
  pose proof (generations_loop_total (Z.to_nat (generations settings)) 0
                {| population := population0; bestEver := nth 0 population0 None;
                   bestFitnessEver := neg_infinity |} pos0) as H.
  destruct (generations_loop Math_exp Math_pow rng params settings
              (Z.to_nat (generations settings)) 0
              {| population := population0; bestEver := nth 0 population0 None;
                 bestFitnessEver := neg_infinity |} pos0) as [records final].
  simpl in *. destruct final as [[st pos]| |]; [|discriminate|contradiction].
  unfold finalResult. destruct (bestEver st); discriminate.
Qed.

End FuelFacts.

(** ** Populations along a run *)

Lemma Forall_firstn {A : Type} (P : A -> Prop) (n : nat) (l : list A) :
  Forall P l -> Forall P (firstn n l).
Proof.
  intros H. rewrite <- (firstn_skipn n l) in H. now apply Forall_app in H.
Qed.

Lemma Forall_slice0 {A : Type} (P : A -> Prop) (l : list A) (e : Z) :
  Forall P l -> Forall P (slice0 l e).
Proof. intros H. unfold slice0. destruct (e <? 0)%Z; now apply Forall_firstn. Qed.

Lemma ref_valid_ok (L total : Z) (r : Ref) : ref_valid L total r -> ref_ok L total r.
Proof. now intros (c & -> & V). Qed.

Section InvariantFacts.

Variable Math_exp : float -> float.
Variable Math_pow : float -> float -> float.
Variable rng : nat -> Q.
Variable params : OptimizationParams.
Variable settings : GASettings.

Hypothesis rng_unit : unit_source rng.
Hypothesis buffers : (0 <= totalBuffers params)%Z.

Let L : Z := (numStations params - 1)%Z.
Let total : Z := totalBuffers params.
Let popSize : Z := populationSize settings.
Let fitness (c : Chromosome) : float :=
  calculateFitness Math_exp Math_pow c (w1 params) (w2 params).

(** The conditions under which no reference of a run is [null]. *)
Let defined : Prop :=
  fitness_defined Math_exp Math_pow params /\ (1 <= tournamentSize settings)%Z /\
  (1 <= popSize)%Z.

Lemma crossover_post (parent1 parent2 : Ref) (pos : nat) (E : Prop) :
  ref_ok L total parent1 -> ref_ok L total parent2 ->
  (parent1 = None \/ parent2 = None -> E) ->
  post (crossover rng parent1 parent2 total) pos
    (fun offspring _ => valid L total (fst offspring) /\ valid L total (snd offspring)) E.
Proof.
  intros H1 H2 HE. destruct parent1 as [p1|]; [|apply HE; now left].
  destruct parent2 as [p2|].
  - destruct (crossover_valid rng rng_unit L total p1 p2 pos buffers H1 H2)
      as (o1 & o2 & pos' & C & V1 & V2).
    unfold post. rewrite C. now split.
  - unfold post, crossover. destruct (length p1 <=? 1)%nat; [apply HE; now right|].
    unfold bind, random. apply HE. now right.
Qed.

Section Reproduction.

Variable population : Population.
Variable chromosomes : list Chromosome.
Hypothesis population_chromosomes : population = map Some chromosomes.
Hypothesis population_valid : Forall (ref_valid L total) population.

Let fitnesses : list float := map fitness chromosomes.

Let selectable : Prop := defined /\ population <> [].

Lemma fitnesses_length : length fitnesses = length population.
Proof. unfold fitnesses. now rewrite population_chromosomes, !length_map. Qed.

Lemma fitnesses_defined :
  defined -> forall f : float, In f fitnesses -> Num.gt f neg_infinity = true.
Proof.
  intros (Hf & _ & _) f Hin. unfold fitnesses in Hin.
  apply in_map_iff in Hin. destruct Hin as (c & <- & Hc).
  apply Hf. fold L total.
  assert (Hm : In (Some c) population).
  { rewrite population_chromosomes. now apply in_map. }
  pose proof population_valid as PV. rewrite Forall_forall in PV.
  destruct (PV _ Hm) as (c' & E & V). now injection E as ->.
Qed.

(** A selected parent is [null] or valid; it is valid when selection is
    well-defined. *)
Lemma parent_spec (pos : nat) :
  let parent := fst (tournamentSelection rng population fitnesses (tournamentSize settings) pos) in
  ref_ok L total parent /\ (selectable -> ref_valid L total parent).
Proof.
  cbv zeta. pose proof population_valid as PV. rewrite Forall_forall in PV. split.
  - destruct (tournamentSelection_member rng population fitnesses (tournamentSize settings) pos)
      as [H|H]; [now rewrite H|].
    apply ref_valid_ok. now apply PV.
  - intros [Hd Hne]. apply PV.
    apply tournamentSelection_In; trivial.
    + apply fitnesses_length.
    + now apply fitnesses_defined.
    + apply Hd.
Qed.

Lemma reproduce_spec (newPopulation : Population) (pos : nat) :
  Forall (ref_ok L total) newPopulation ->
  post (reproduce rng params settings population fitnesses newPopulation) pos
    (fun filled _ =>
       Forall (ref_ok L total) filled /\
       (length newPopulation < length filled)%nat /\
       (selectable -> Forall (ref_valid L total) newPopulation ->
        Forall (ref_valid L total) filled))
    (~ selectable).
Proof.
  intros Hnew. unfold reproduce.
  apply post_bind, post_lift.
  destruct (parent_spec pos) as [P1 P1'].
  set (parent1 := fst (tournamentSelection rng population fitnesses (tournamentSize settings) pos))
    in *.
  set (pos1 := snd (tournamentSelection rng population fitnesses (tournamentSize settings) pos)).
  apply post_bind, post_random.
  apply post_seq with
    (R := fun (a : Ref * Population) (_ : nat) =>
            ref_ok L total (fst a) /\ (selectable -> ref_valid L total (fst a)) /\
            Forall (ref_ok L total) (snd a) /\
            (length newPopulation <= length (snd a))%nat /\
            (selectable -> Forall (ref_valid L total) newPopulation ->
             Forall (ref_valid L total) (snd a))).
  - destruct (Qltb (rng pos1) (crossoverRate settings)).
    + apply post_bind, post_lift.
      destruct (parent_spec (S pos1)) as [P2 P2'].
      set (parent2 :=
             fst (tournamentSelection rng population fitnesses (tournamentSize settings) (S pos1)))
        in *.
      eapply post_seq.
      * apply crossover_post with (E := ~ selectable); trivial.
        intros [->| ->] Hs; [destruct (P1' Hs) as (c & Hc & _) | destruct (P2' Hs) as (c & Hc & _)];
          discriminate.
      * intros [o1 o2] pos2 [V1 V2]. simpl in V1, V2.
        apply post_bind, post_random.
        apply post_seq with (R := fun (o : Chromosome) (_ : nat) => valid L total o).
        -- destruct (Qltb (rng pos2) (mutationRate settings)).
           ++ apply post_lift. now apply mutate_valid.
           ++ now apply post_ret.
        -- intros o2' pos3 V2'. apply post_ret. simpl.
           split; [exact V1|]. split; [intros _; now exists o1|].
           destruct (Z.of_nat (length newPopulation) <? populationSize settings)%Z.
           ++ split; [|split].
              ** apply Forall_app. split; trivial. now constructor.
              ** rewrite length_app. lia.
              ** intros _ Hv. apply Forall_app. split; trivial.
                 constructor; [now exists o2' | constructor].
           ++ split; [exact Hnew|]. split; [lia | trivial].
    + apply post_ret. simpl. split; [exact P1|]. split; [exact P1'|].
      split; [exact Hnew|]. split; [lia | trivial].
  - intros [offspring1 filled] pos2 (O1 & O1' & F1 & F2 & F3). simpl in *.
    apply post_bind, post_random.
    apply post_seq with
      (R := fun (o : Ref) (_ : nat) =>
              ref_ok L total o /\ (selectable -> ref_valid L total o)).
    + destruct (Qltb (rng pos2) (mutationRate settings)).
      * destruct offspring1 as [c|].
        -- unfold mutateRef. apply post_bind, post_lift, post_ret.
           assert (V : valid L total (fst (mutate rng c (S pos2)))).
           { now apply mutate_valid. }
           split; [exact V|]. intros _. now eexists.
        -- apply post_throw. intros Hs. destruct (O1' Hs) as (c & Hc & _). discriminate.
      * apply post_ret. now split.
    + intros o pos3 [Ho Ho']. apply post_ret. split; [|split].
      * apply Forall_app. split; trivial. now constructor.
      * rewrite length_app. simpl. lia.
      * intros Hs Hv. apply Forall_app. split; [now apply F3|].
        constructor; [now apply Ho' | constructor].
Qed.

Lemma reproduce_loop_spec (fuel : nat) :
  forall (newPopulation : Population) (pos : nat),
  Forall (ref_ok L total) newPopulation ->
  (popSize - Z.of_nat (length newPopulation) <= Z.of_nat fuel)%Z ->
  post (reproduce_loop rng params settings fuel population fitnesses newPopulation) pos
    (fun filled _ =>
       Forall (ref_ok L total) filled /\
       (popSize <= Z.of_nat (length filled))%Z /\
       (selectable -> Forall (ref_valid L total) newPopulation ->
        Forall (ref_valid L total) filled))
    (~ selectable).
Proof.
  induction fuel as [|fuel IH]; intros newPopulation pos Hnew Hfuel; simpl;
    destruct (Z.ltb_spec (Z.of_nat (length newPopulation)) (populationSize settings)) as [G|G];
    fold popSize in G.
  - lia.
  - apply post_ret. now repeat split.
  - eapply post_seq; [now apply reproduce_spec|].
    intros filled pos' (F1 & F2 & F3). cbv beta in *.
    eapply post_weaken; [apply IH; trivial; lia | | trivial].
    intros final _ (H1 & H2 & H3). split; [exact H1|]. split; [exact H2|].
    intros Hs Hv. apply H3; trivial. now apply F3.
  - apply post_ret. now repeat split.
Qed.

End Reproduction.

Lemma evaluate_valid (population : Population) :
  Forall (ref_valid L total) population ->
  evaluate Math_exp Math_pow params population <> None.
Proof.
  induction 1 as [|r population (c & -> & V) _ IH]; simpl; [discriminate|].
  destruct (evaluate Math_exp Math_pow params population); [discriminate | congruence].
Qed.

Lemma Forall_ref_valid_map (chromosomes : list Chromosome) :
  Forall (ref_ok L total) (map Some chromosomes) ->
  Forall (ref_valid L total) (map Some chromosomes).
Proof.
  induction chromosomes as [|c chromosomes IH]; simpl; intros H; [constructor|].
  inversion H; subst. constructor; [now exists c | auto].
Qed.

(** One generation keeps every reference [null] or valid, and valid when
    selection is well-defined: then it does not throw either. *)
Lemma generation_step_spec (gen : Z) (st : LoopState) (pos : nat) :
  Forall (ref_ok L total) (population st) -> ref_ok L total (bestEver st) ->
  post (generation_step Math_exp Math_pow rng params settings gen st) pos
    (fun r _ =>
       Forall (ref_ok L total) (population (fst r)) /\ ref_ok L total (bestEver (fst r)) /\
       (defined -> state_valid L total popSize st -> state_valid L total popSize (fst r)))
    (~ (defined /\ state_valid L total popSize st)).
Proof.
  intros Hpop Hbest. unfold generation_step.
  destruct (evaluate Math_exp Math_pow params (population st)) as [fitnesses|] eqn:Ev.
  2:{ apply post_throw. intros [_ (Hv & _ & _)]. now apply evaluate_valid in Hv. }
  destruct (evaluate_Some _ _ _ _ _ Ev) as (cs & Hcs & Hfits).
  assert (PV : Forall (ref_valid L total) (population st)).
  { rewrite Hcs in *. now apply Forall_ref_valid_map. }
  pose proof (scan_best (population st) fitnesses neg_infinity None 0%float) as SB.
  destruct (scan (population st) fitnesses neg_infinity None 0%float) as [[cbf cbi] tf].
  simpl in SB. subst fitnesses.
  assert (Hsel : defined -> state_valid L total popSize st -> defined /\ population st <> []).
  { intros Hd (_ & Hlen & _). split; [exact Hd|].
    destruct Hd as (_ & _ & Hp). destruct (population st); [simpl in Hlen; lia | discriminate]. }
  assert (Hfill : forall (best : Ref), ref_ok L total best ->
            (defined -> state_valid L total popSize st -> ref_valid L total best) ->
            post
              (newPopulation <-
                 reproduce_loop rng params settings (Z.to_nat (populationSize settings))
                   (population st) (map fitness cs) [best] ;;
               ret ({| population := slice0 newPopulation (populationSize settings);
                       bestEver := best;
                       bestFitnessEver := (if Num.gt cbf (bestFitnessEver st)
                                           then cbf else bestFitnessEver st) |},
                    {| ProgressData.generation := gen + 1;
                       ProgressData.bestFitness := (if Num.gt cbf (bestFitnessEver st)
                                                    then cbf else bestFitnessEver st);
                       ProgressData.avgFitness :=
                         (tf / Num.of_nat (length (slice0 newPopulation (populationSize settings))))%float
                    |})) pos
              (fun r _ =>
                 Forall (ref_ok L total) (population (fst r)) /\
                 ref_ok L total (bestEver (fst r)) /\
                 (defined -> state_valid L total popSize st ->
                  state_valid L total popSize (fst r)))
              (~ (defined /\ state_valid L total popSize st))).
  { intros best Hb Hb'. eapply post_seq.
    - eapply post_weaken.
      + apply (reproduce_loop_spec (population st) cs Hcs PV).
        * constructor; [exact Hb | constructor].
        * simpl. unfold popSize. lia.
      + intros filled pos' H. exact H.
      + intros Hn [Hd Hs]. apply Hn. now apply Hsel.
    - intros filled pos' (F1 & F2 & F3). apply post_ret. simpl.
      split; [now apply Forall_slice0|]. split; [exact Hb|].
      intros Hd Hs. split; [|split].
      + apply Forall_slice0. apply F3; [now apply Hsel|].
        constructor; [now apply Hb' | constructor].
      + apply length_slice0. destruct Hd as (_ & _ & Hp). fold popSize. lia.
      + now apply Hb'. }
  destruct (Num.gt cbf (bestFitnessEver st)) eqn:G.
  - assert (Hc : ref_valid L total cbi).
    { destruct SB as [[-> _]|Hin].
      - now rewrite NumFacts.gt_neg_infinity_l in G.
      - rewrite Forall_forall in PV. now apply PV. }
    apply Hfill; [now apply ref_valid_ok | trivial].
  - apply Hfill; [exact Hbest|]. now intros _ (_ & _ & Hv).
Qed.

(** The whole loop: every population it evaluates or builds holds only
    [null] and valid chromosomes; it never runs out of fuel; and when
    selection is well-defined it completes all its generations on valid
    populations. *)
Lemma generations_loop_spec (n : nat) :
  forall (gen : Z) (st : LoopState) (pos : nat),
  Forall (ref_ok L total) (population st) -> ref_ok L total (bestEver st) ->
  let r := generations_loop Math_exp Math_pow rng params settings n gen st pos in
  Forall (fun rec => Forall (ref_ok L total) (evaluatedPopulation rec) /\
                     Forall (ref_ok L total) (nextPopulation rec)) (fst r) /\
  snd r <> OutOfFuel /\
  (defined -> state_valid L total popSize st ->
   length (fst r) = n /\
   Forall (fun rec => Forall (ref_valid L total) (evaluatedPopulation rec) /\
                      Forall (ref_valid L total) (nextPopulation rec)) (fst r) /\
   exists (st' : LoopState) (pos' : nat),
     snd r = Returns (st', pos') /\ state_valid L total popSize st').
Proof.
  induction n as [|n IH]; intros gen st pos Hpop Hbest; simpl.
  - split; [constructor|]. split; [discriminate|].
    intros _ Hs. split; [reflexivity|]. split; [constructor|]. now exists st, pos.
  - pose proof (generation_step_spec gen st pos Hpop Hbest) as G. unfold post in G.
    destruct (generation_step Math_exp Math_pow rng params settings gen st pos)
      as [[[st1 pd] pos1]| |]; simpl in *.
    + destruct G as (G1 & G2 & G3).
      specialize (IH (gen + 1)%Z st1 pos1 G1 G2). cbv zeta in IH.
      destruct (generations_loop Math_exp Math_pow rng params settings n (gen + 1) st1 pos1)
        as [records final].
      simpl in *. destruct IH as (I1 & I2 & I3).
      split; [constructor; [now split | exact I1]|]. split; [exact I2|].
      intros Hd Hs. pose proof (G3 Hd Hs) as Hs1.
      destruct (I3 Hd Hs1) as (J1 & J2 & J3).
      split; [now rewrite J1|]. split; [|exact J3].
      constructor; [|exact J2]. simpl. split; [apply Hs | apply Hs1].
    + split; [constructor|]. split; [discriminate|].
      intros Hd Hs. exfalso. apply G. now split.
    + contradiction.
Qed.

End InvariantFacts.

(** ** Properties of [predictThroughput] *)

Section FitnessFacts.

Variable Math_exp : float -> float.
Variable Math_pow : float -> float -> float.

Lemma predictThroughput_zero_sum (c : Chromosome) :
  c <> [] -> sum c = 0%Z -> predictThroughput Math_exp Math_pow c = 50%float.
Proof.
  intros Hne Hs. unfold predictThroughput.
  destruct c as [|x c]; [congruence|].
  simpl length. simpl Nat.eqb. cbv zeta. now rewrite Hs.
Qed.

(** C4 (amended): on the all-zero vector of any length [L >= 1] the
    predicted throughput is exactly the baseline 50. *)
Theorem predictThroughput_all_zero (L : nat) :
  (1 <= L)%nat -> predictThroughput Math_exp Math_pow (repeat 0%Z L) = 50%float.
Proof.
  intros HL. apply predictThroughput_zero_sum.
  - destruct L; [lia | discriminate].
  - apply sum_repeat_zero.
Qed.

(** What [predictThroughput] reads of its argument: the length, the sum and
    the accumulated squared deviations. *)
Lemma predictThroughput_reads (c c' : Chromosome) :
  length c' = length c ->
  sum c' = sum c ->
  (sum c = 0%Z \/
   squaredDeviations Math_pow (Num.of_Z (sum c') / Num.of_nat (length c')) c' =
   squaredDeviations Math_pow (Num.of_Z (sum c) / Num.of_nat (length c)) c) ->
  predictThroughput Math_exp Math_pow c' = predictThroughput Math_exp Math_pow c.
Proof.
  intros Hl Hs Hsq. unfold predictThroughput. rewrite Hl, Hs.
  destruct (length c =? 0)%nat; [reflexivity|].
  destruct (Z.eqb_spec (sum c) 0) as [Hz|Hz]; [reflexivity|].
  cbv zeta. destruct Hsq as [Hsq|Hsq]; [contradiction|].
  rewrite Hl, Hs in Hsq. now rewrite Hsq.
Qed.

Lemma squaredDeviations_swap (mean : float) (x y : Z) (rest : Chromosome) :
  squaredDeviations Math_pow mean (y :: x :: rest) =
  squaredDeviations Math_pow mean (x :: y :: rest).
Proof.
  unfold squaredDeviations. simpl. now rewrite NumFacts.add_zero_swap.
Qed.

(** Exchanging the first two values never changes the prediction. *)
Lemma predictThroughput_swap_first (x y : Z) (rest : Chromosome) :
  predictThroughput Math_exp Math_pow (y :: x :: rest) =
  predictThroughput Math_exp Math_pow (x :: y :: rest).
Proof.
  assert (Hs : sum (y :: x :: rest) = sum (x :: y :: rest)) by (rewrite !sum_cons; lia).
  apply predictThroughput_reads; trivial.
  right. rewrite Hs. apply squaredDeviations_swap.
Qed.

(** C8 (amended): the length and the sum of a chromosome, hence the mean and
    the base throughput, are the same for every permutation of it; the
    predicted throughput of a permutation is the same whenever the
    chromosome has at most two values, or its sum is zero, or the
    left-to-right floating-point accumulation of the squared deviations
    gives the same number for both. *)
Theorem predictThroughput_permutation (c c' : Chromosome) :
  Permutation c c' ->
  ((length c <= 2)%nat \/ sum c = 0%Z \/
   squaredDeviations Math_pow (Num.of_Z (sum c') / Num.of_nat (length c')) c' =
   squaredDeviations Math_pow (Num.of_Z (sum c) / Num.of_nat (length c)) c) ->
  length c' = length c /\ sum c' = sum c /\
  predictThroughput Math_exp Math_pow c' = predictThroughput Math_exp Math_pow c.
Proof.
  intros HP Hsq.
  assert (Hl : length c' = length c) by (symmetry; now apply Permutation_length).
  assert (Hs : sum c' = sum c) by (symmetry; now apply sum_Permutation).
  split; [exact Hl|]. split; [exact Hs|].
  destruct Hsq as [Hshort|Hsq]; [|now apply predictThroughput_reads].
  destruct c as [|x [|y [|z c]]]; [| | |simpl in Hshort; lia].
  - apply Permutation_nil in HP. now subst.
  - apply Permutation_length_1_inv in HP. now subst.
  - apply Permutation_length_2_inv in HP. destruct HP as [->| ->]; [reflexivity|].
    apply predictThroughput_swap_first.
Qed.

End FitnessFacts.

(** C4, as stated, fails at length 0: the empty vector is all-zero and its
    predicted throughput is 0. *)
Lemma predictThroughput_all_zero_counterexample :
  predictThroughput exp_sample pow_sample (repeat 0%Z 0) = 0%float /\
  predictThroughput exp_sample pow_sample (repeat 0%Z 0) <> 50%float.
Proof.
  split; [reflexivity|].
  apply float_neq. vm_compute. discriminate.
Qed.

Lemma predictThroughput_all_zero_witness :
  (1 <= 3)%nat /\ predictThroughput exp_sample pow_sample (repeat 0%Z 3) = 50%float.
Proof.
  split; [lia | apply (predictThroughput_all_zero exp_sample pow_sample 3); lia].
Defined.

(** C8, as stated, fails in binary64: with six stations and eight buffers,
    [4;1;1;1;1] is a permutation of [1;1;1;1;4] and the two accumulations of
    squared deviations (mean 1.6) round differently, which survives the square
    root and the division: 225.57049481772043 against 225.57049481772046. *)
Lemma predictThroughput_permutation_counterexample :
  Permutation [1;1;1;1;4]%Z [4;1;1;1;1]%Z /\
  predictThroughput exp_sample pow_sample [1;1;1;1;4]%Z = 0x1.c32417e5914b3p+7%float /\
  predictThroughput exp_sample pow_sample [4;1;1;1;1]%Z = 0x1.c32417e5914b2p+7%float /\
  predictThroughput exp_sample pow_sample [4;1;1;1;1]%Z <>
  predictThroughput exp_sample pow_sample [1;1;1;1;4]%Z.
Proof.
  split; [|split; [|split]].
  - change [4;1;1;1;1]%Z with ([4] ++ [1;1;1;1])%Z.
    change [1;1;1;1;4]%Z with ([1;1;1;1] ++ [4])%Z.
    apply Permutation_app_comm.
  - vm_compute. reflexivity.
  - vm_compute. reflexivity.
  - apply float_neq. vm_compute. discriminate.
Qed.

(** The difference does not hinge on the last bit of [Math.exp]: it is
    there for each of the five binary64 numbers around the exponential of
    [-0.05 * 8]. *)
Lemma predictThroughput_permutation_robust :
  Forall (fun e : float =>
            predictThroughput (fun _ => e) pow_sample [4;1;1;1;1]%Z <>
            predictThroughput (fun _ => e) pow_sample [1;1;1;1;4]%Z)
    [0x1.57343067270ecp-1; 0x1.57343067270edp-1; 0x1.57343067270eep-1;
     0x1.57343067270efp-1; 0x1.57343067270f0p-1]%float.
Proof.
  repeat constructor; apply float_neq; vm_compute; discriminate.
Qed.

Lemma predictThroughput_permutation_witness :
  Permutation [3;0;3;2;0]%Z [0;3;3;2;0]%Z /\
  length [0;3;3;2;0]%Z = length [3;0;3;2;0]%Z /\ sum [0;3;3;2;0]%Z = sum [3;0;3;2;0]%Z /\
  predictThroughput exp_sample pow_sample [0;3;3;2;0]%Z =
  predictThroughput exp_sample pow_sample [3;0;3;2;0]%Z.
Proof.
  assert (HP : Permutation [3;0;3;2;0]%Z [0;3;3;2;0]%Z) by apply perm_swap.
  split; [exact HP|].
  apply (predictThroughput_permutation exp_sample pow_sample _ _ HP).
  right. right. vm_compute. reflexivity.
Defined.

(** ** The sample random source *)

Lemma rng_sample_unit : unit_source rng_sample.
Proof.
  intros i.
  assert (H : ((i * i + 3 * i) mod 7 < 7)%nat) by (apply Nat.mod_upper_bound; lia).
  unfold rng_sample, Qle, Qlt. cbn [Qnum Qden]. lia.
Qed.

(** ** Crossover and repair *)

(** C5: for parents of equal length at least 2 with no negative entry and a
    target [total >= 0], the repair loop terminates for each of the two
    children of the cut (any fuel from the child's initial deviation on gives
    the same result), after a number of iterations bounded by the absolute
    deviation of the child's sum from the target, and both offspring
    returned by [crossover] sum to the target. *)
Theorem crossover_repair_terminates (rng : nat -> Q) (total : Z)
    (parent1 parent2 : Chromosome) (pos : nat) :
  unit_source rng ->
  (2 <= length parent1)%nat -> length parent2 = length parent1 ->
  Forall (fun b => (0 <= b)%Z) parent1 -> Forall (fun b => (0 <= b)%Z) parent2 ->
  (0 <= total)%Z ->
  let size := Z.of_nat (length parent1) in
  let crossoverPoint := (randomIndex (rng pos) (size - 1) + 1)%nat in
  let child1 := firstn crossoverPoint parent1 ++ skipn crossoverPoint parent2 in
  let child2 := firstn crossoverPoint parent2 ++ skipn crossoverPoint parent1 in
  exists (offspring1 : Chromosome) (n1 pos1 : nat) (offspring2 : Chromosome) (n2 pos2 : nat),
    (forall fuel : nat, (deviation child1 total <= fuel)%nat ->
       repair_loop rng fuel size total child1 (sum child1) 0 (S pos) =
         Some (offspring1, n1, pos1)) /\
    (forall fuel : nat, (deviation child2 total <= fuel)%nat ->
       repair_loop rng fuel size total child2 (sum child2) 0 pos1 =
         Some (offspring2, n2, pos2)) /\
    crossover rng (Some parent1) (Some parent2) total pos =
      Returns ((offspring1, offspring2), pos2) /\
    (Z.of_nat n1 <= Z.abs (sum child1 - total))%Z /\
    (Z.of_nat n2 <= Z.abs (sum child2 - total))%Z /\
    sum offspring1 = total /\ sum offspring2 = total.
Proof.
  intros Hu Hlen1 Hlen2 Hn1 Hn2 Htot size cp child1 child2.
  destruct (crossover_spec rng Hu total parent1 parent2 pos Hlen1 Hlen2 Htot Hn1 Hn2)
    as (o1 & n1 & pos1 & o2 & n2 & pos2 & R1 & R2 & C & I1 & I2 & V1 & V2).
  exists o1, n1, pos1, o2, n2, pos2.
  split; [exact R1|]. split; [exact R2|]. split; [exact C|].
  destruct V1 as (_ & S1 & _), V2 as (_ & S2 & _).
  rewrite I1, I2. unfold deviation, child1, child2, cp, size.
  split; [lia|]. split; [lia|]. now split.
Qed.

Lemma crossover_repair_terminates_witness :
  exists (offspring1 : Chromosome) (n1 pos1 : nat) (offspring2 : Chromosome) (n2 pos2 : nat),
    (forall fuel : nat, (deviation [3; 4; 0]%Z 4 <= fuel)%nat ->
       repair_loop rng_sample fuel 3 4 [3; 4; 0]%Z (sum [3; 4; 0]%Z) 0 1 =
         Some (offspring1, n1, pos1)) /\
    (forall fuel : nat, (deviation [1; 0; 2]%Z 4 <= fuel)%nat ->
       repair_loop rng_sample fuel 3 4 [1; 0; 2]%Z (sum [1; 0; 2]%Z) 0 pos1 =
         Some (offspring2, n2, pos2)) /\
    crossover rng_sample (Some [3; 0; 2]%Z) (Some [1; 4; 0]%Z) 4 0%nat =
      Returns ((offspring1, offspring2), pos2) /\
    (Z.of_nat n1 <= Z.abs (sum [3; 4; 0]%Z - 4))%Z /\
    (Z.of_nat n2 <= Z.abs (sum [1; 0; 2]%Z - 4))%Z /\
    sum offspring1 = 4%Z /\ sum offspring2 = 4%Z.
Proof.
  apply (crossover_repair_terminates rng_sample 4 [3; 0; 2]%Z [1; 4; 0]%Z 0 rng_sample_unit).
  - simpl. lia.
  - reflexivity.
  - repeat constructor; lia.
  - repeat constructor; lia.
  - lia.
Defined.

(** ** Tournament selection *)

(** C9: on a non-empty population with as many fitnesses and a tournament
    of size at least 1: when every fitness is greater than [-Infinity], the
    first draw replaces the initial [null] by a member of the population and
    the selection returns a member of the population (so that [best!] is
    safe); when every drawn fitness is [-Infinity] or [NaN], the selection
    returns [null]. *)
Theorem tournamentSelection_null_safety (rng : nat -> Q) (population : list Chromosome)
    (fitnesses : list float) (tournamentSize : Z) (pos : nat) :
  unit_source rng ->
  population <> [] -> length fitnesses = length population -> (1 <= tournamentSize)%Z ->
  ((forall f : float, In f fitnesses -> Num.gt f neg_infinity = true) ->
   (exists c : Chromosome,
      fst (tournament_loop rng 1 (map Some population) fitnesses None neg_infinity pos) = Some c /\
      In c population) /\
   (exists c : Chromosome,
      fst (tournamentSelection rng (map Some population) fitnesses tournamentSize pos) = Some c /\
      In c population)) /\
  ((forall i : nat, (i < Z.to_nat tournamentSize)%nat ->
      let drawn :=
        nth (randomIndex (rng (pos + i)%nat) (Z.of_nat (length population))) fitnesses nan in
      drawn = neg_infinity \/ is_nan drawn = true) ->
   fst (tournamentSelection rng (map Some population) fitnesses tournamentSize pos) = None).
Proof.
  intros Hu Hne Hlen HT.
  assert (Hne' : map Some population <> []) by (destruct population; [congruence | discriminate]).
  assert (Hlen' : length fitnesses = length (map Some population)) by now rewrite length_map.
  split.
  - intros Hgt. split.
    + pose proof (tournament_loop_first rng Hu 0 (map Some population) fitnesses pos
                    Hne' Hlen' Hgt) as H.
      apply in_map_iff in H. destruct H as (c & E & Hc). now exists c.
    + pose proof (tournamentSelection_In rng Hu (map Some population) fitnesses
                    tournamentSize pos Hne' Hlen' Hgt HT) as H.
      apply in_map_iff in H. destruct H as (c & E & Hc). now exists c.
  - intros Hdrawn. unfold tournamentSelection. apply tournament_loop_none.
    now rewrite length_map.
Qed.

Lemma tournamentSelection_null_safety_witness :
  ((exists c : Chromosome,
      fst (tournament_loop rng_sample 1 (map Some [[1; 2]; [3; 0]]%Z) [3%float; 5%float]
             None neg_infinity 2%nat) = Some c /\
      In c [[1; 2]; [3; 0]]%Z) /\
   (exists c : Chromosome,
      fst (tournamentSelection rng_sample (map Some [[1; 2]; [3; 0]]%Z) [3%float; 5%float]
             2 2%nat) = Some c /\
      In c [[1; 2]; [3; 0]]%Z)) /\
  fst (tournamentSelection rng_sample (map Some [[1; 2]; [3; 0]]%Z) [neg_infinity; nan]
         2 2%nat) = None.
Proof.
  split.
  - refine (proj1 (tournamentSelection_null_safety rng_sample [[1; 2]; [3; 0]]%Z
                     [3%float; 5%float] 2 2%nat rng_sample_unit _ _ _) _).
    + discriminate.
    + reflexivity.
    + lia.
    + intros f [E|[E|[]]]; rewrite <- E; reflexivity.
  - refine (proj2 (tournamentSelection_null_safety rng_sample [[1; 2]; [3; 0]]%Z
                     [neg_infinity; nan] 2 2%nat rng_sample_unit _ _ _) _).
    + discriminate.
    + reflexivity.
    + lia.
    + intros i Hi. destruct i as [|[|i]]; [left; reflexivity | right; reflexivity | simpl in Hi; lia].
Defined.

(** ** Runs *)

(** C6: with at most one station there is no buffer slot: the run reports
    nothing and returns the fixed empty result, whatever the other
    parameters and settings are. *)
Theorem runGA_degenerate (Math_exp : float -> float) (Math_pow : float -> float -> float)
    (rng : nat -> Q) (params : OptimizationParams) (settings : GASettings) :
  (numStations params <= 1)%Z ->
  let r := runGA Math_exp Math_pow rng params settings in
  progress r = [] /\
  result r = Returns {| OptimizationResult.bestAllocation := [];
                        OptimizationResult.predictedThroughput := 0%float;
                        OptimizationResult.totalBuffersUsed := 0%Z;
                        OptimizationResult.bestFitness := neg_infinity |}.
Proof.
  intros H. unfold runGA.
  destruct (Z.leb_spec (numStations params - 1) 0) as [_|G]; [|lia].
  now split.
Qed.

Lemma runGA_degenerate_witness :
  let r := runGA exp_sample pow_sample rng_sample
             {| numStations := 1; totalBuffers := 8; w1 := 1%float; w2 := 2%float |}
             settings_sample in
  progress r = [] /\
  result r = Returns {| OptimizationResult.bestAllocation := [];
                        OptimizationResult.predictedThroughput := 0%float;
                        OptimizationResult.totalBuffersUsed := 0%Z;
                        OptimizationResult.bestFitness := neg_infinity |}.
Proof.
  apply (runGA_degenerate exp_sample pow_sample rng_sample
           {| numStations := 1; totalBuffers := 8; w1 := 1%float; w2 := 2%float |}
           settings_sample).
  simpl. lia.
Defined.

(** C2: along the reports of a run the best fitness never decreases from one
    generation to the next, and the best fitness of the final result, when
    the run returns one, is at least every best fitness reported. *)
Theorem bestFitness_nondecreasing (Math_exp : float -> float)
    (Math_pow : float -> float -> float) (rng : nat -> Q)
    (params : OptimizationParams) (settings : GASettings) :
  let r := runGA Math_exp Math_pow rng params settings in
  Sorted (fun a b => Num.le (ProgressData.bestFitness a) (ProgressData.bestFitness b) = true)
    (progress r) /\
  forall res : OptimizationResult.t,
    result r = Returns res ->
    Forall (fun pd => Num.le (ProgressData.bestFitness pd)
                        (OptimizationResult.bestFitness res) = true)
      (progress r).
Proof.
  unfold runGA, progress.
  destruct (numStations params - 1 <=? 0)%Z; simpl; [split; constructor|].
  destruct (initializePopulation rng (populationSize settings) (numStations params - 1)
              (totalBuffers params) 0) as [population0 pos0].
  pose proof (generations_loop_bestFitness Math_exp Math_pow rng params settings
                (Z.to_nat (generations settings)) 0
                {| population := population0; bestEver := nth 0 population0 None;
                   bestFitnessEver := neg_infinity |} pos0
                NumFacts.le_neg_infinity_refl) as H.
  cbv zeta in H.
  destruct (generations_loop Math_exp Math_pow rng params settings
              (Z.to_nat (generations settings)) 0
              {| population := population0; bestEver := nth 0 population0 None;
                 bestFitnessEver := neg_infinity |} pos0) as [records final].
  simpl in *. destruct H as (HS & _ & HF). split; [exact HS|].
  intros res Hres. destruct final as [[st pos]| |]; try discriminate.
  destruct (HF st pos eq_refl) as [_ H]. unfold finalResult in Hres.
  destruct (bestEver st); [|discriminate]. injection Hres as <-. exact H.
Qed.

(** C7: with a population size of at least 1, every generation evaluates a
    population of [populationSize] chromosomes, and the average fitness it
    reports is the sum of their fitnesses (added from left to right,
    starting from 0) divided by [populationSize]. *)
Theorem avgFitness_of_evaluated_population (Math_exp : float -> float)
    (Math_pow : float -> float -> float) (rng : nat -> Q)
    (params : OptimizationParams) (settings : GASettings) :
  (1 <= populationSize settings)%Z ->
  Forall (fun rec =>
            exists chromosomes : list Chromosome,
              evaluatedPopulation rec = map Some chromosomes /\
              Z.of_nat (length chromosomes) = populationSize settings /\
              ProgressData.avgFitness (report rec) =
                (fold_left PrimFloat.add
                   (map (fun c => calculateFitness Math_exp Math_pow c (w1 params) (w2 params))
                      chromosomes) 0 /
                 Num.of_Z (populationSize settings))%float)
    (trace (runGA Math_exp Math_pow rng params settings)).
Proof.
  intros Hpop. unfold runGA.
  destruct (numStations params - 1 <=? 0)%Z; simpl; [constructor|].
  pose proof (length_initializePopulation rng (populationSize settings)
                (numStations params - 1) (totalBuffers params) 0) as Hlen.
  destruct (initializePopulation rng (populationSize settings) (numStations params - 1)
              (totalBuffers params) 0) as [population0 pos0].
  simpl in Hlen.
  pose proof (generations_loop_avgFitness Math_exp Math_pow rng params settings
                (Z.to_nat (generations settings)) Hpop 0
                {| population := population0; bestEver := nth 0 population0 None;
                   bestFitnessEver := neg_infinity |} pos0) as H.
  destruct (generations_loop Math_exp Math_pow rng params settings
              (Z.to_nat (generations settings)) 0
              {| population := population0; bestEver := nth 0 population0 None;
                 bestFitnessEver := neg_infinity |} pos0) as [records final].
  apply H. simpl. lia.
Qed.

Lemma avgFitness_of_evaluated_population_witness :
  Forall (fun rec =>
            exists chromosomes : list Chromosome,
              evaluatedPopulation rec = map Some chromosomes /\
              Z.of_nat (length chromosomes) = populationSize settings_sample /\
              ProgressData.avgFitness (report rec) =
                (fold_left PrimFloat.add
                   (map (fun c => calculateFitness exp_sample pow_sample c
                                    (w1 params_sample) (w2 params_sample))
                      chromosomes) 0 /
                 Num.of_Z (populationSize settings_sample))%float)
    (trace (runGA exp_sample pow_sample rng_sample params_sample settings_sample)).
Proof.
  apply (avgFitness_of_evaluated_population exp_sample pow_sample rng_sample
           params_sample settings_sample).
  simpl. lia.
Defined.

(** The initial population: [populationSize] valid chromosomes. *)
Lemma initializePopulation_valid (rng : nat -> Q) (popSize L total : Z) (pos : nat) :
  unit_source rng -> (0 < L)%Z -> (0 <= total)%Z ->
  let population0 := fst (initializePopulation rng popSize L total pos) in
  Forall (ref_valid L total) population0 /\
  length population0 = Z.to_nat popSize /\
  ref_ok L total (nth 0 population0 None) /\
  ((1 <= popSize)%Z ->
   exists (first : Chromosome) (rest : Population),
     population0 = Some first :: rest /\
     first = fst (createIndividual rng L total pos) /\
     valid L total first).
Proof.
  intros Hu HL Ht. unfold initializePopulation. cbv zeta.
  assert (Hv : forall n p, Forall (ref_valid L total) (fst (initializePopulation_loop rng n L total p)) /\
                           length (fst (initializePopulation_loop rng n L total p)) = n).
  { induction n as [|n IH]; intros p; simpl.
    - split; [constructor | reflexivity].
    - pose proof (createIndividual_valid rng Hu L total p HL Ht) as V.
      destruct (createIndividual rng L total p) as [individual p1].
      specialize (IH p1).
      destruct (initializePopulation_loop rng n L total p1) as [rest p2].
      simpl in *. destruct IH as [H1 H2]. split; [|now rewrite H2].
      constructor; [now exists individual | exact H1]. }
  destruct (Hv (Z.to_nat popSize) pos) as [H1 H2].
  split; [exact H1|]. split; [exact H2|]. split.
  - destruct (nth_in_or_default 0 (fst (initializePopulation_loop rng (Z.to_nat popSize) L total pos))
                None) as [G|G].
    + apply ref_valid_ok. rewrite Forall_forall in H1. now apply H1.
    + now rewrite G.
  - intros Hp. destruct (Z.to_nat popSize) as [|n] eqn:E; [lia|]. simpl.
    pose proof (createIndividual_valid rng Hu L total pos HL Ht) as V.
    destruct (createIndividual rng L total pos) as [individual p1].
    destruct (initializePopulation_loop rng n L total p1) as [rest p2].
    simpl in *. now exists individual, rest.
Qed.

(** C10: with at least two stations, a population of at least one and no
    generation to run, nothing is reported and the result is the first
    individual of the initial population, never evaluated: it uses all the
    buffers and its best fitness is [-Infinity]. *)
Theorem runGA_zero_generations (Math_exp : float -> float)
    (Math_pow : float -> float -> float) (rng : nat -> Q)
    (params : OptimizationParams) (settings : GASettings) :
  unit_source rng ->
  (2 <= numStations params)%Z -> (0 <= totalBuffers params)%Z ->
  (1 <= populationSize settings)%Z -> generations settings = 0%Z ->
  let r := runGA Math_exp Math_pow rng params settings in
  let population0 :=
    fst (initializePopulation rng (populationSize settings) (numStations params - 1)
           (totalBuffers params) 0) in
  progress r = [] /\
  exists (first : Chromosome) (rest : Population),
    population0 = Some first :: rest /\
    result r = Returns {| OptimizationResult.bestAllocation := first;
                          OptimizationResult.predictedThroughput :=
                            predictThroughput Math_exp Math_pow first;
                          OptimizationResult.totalBuffersUsed := totalBuffers params;
                          OptimizationResult.bestFitness := neg_infinity |}.
Proof.
  intros Hu Hs Ht Hp Hg. cbv zeta.
  destruct (initializePopulation_valid rng (populationSize settings) (numStations params - 1)
              (totalBuffers params) 0 Hu) as (_ & _ & _ & H); try lia.
  destruct (H Hp) as (first & rest & E & _ & (_ & Hsum & _)).
  unfold runGA, progress.
  destruct (Z.leb_spec (numStations params - 1) 0) as [G|_]; [lia|].
  destruct (initializePopulation rng (populationSize settings) (numStations params - 1)
              (totalBuffers params) 0) as [population0 pos0].
  simpl in E. subst population0. rewrite Hg. simpl.
  split; [reflexivity|]. exists first, rest. split; [reflexivity|].
  unfold finalResult. simpl. now rewrite Hsum.
Qed.

Lemma runGA_zero_generations_witness :
  let settings := {| populationSize := 3; generations := 0; mutationRate := 1 # 2;
                     crossoverRate := 1 # 2; tournamentSize := 2 |} in
  let r := runGA exp_sample pow_sample rng_sample params_sample settings in
  let population0 :=
    fst (initializePopulation rng_sample (populationSize settings)
           (numStations params_sample - 1) (totalBuffers params_sample) 0) in
  progress r = [] /\
  exists (first : Chromosome) (rest : Population),
    population0 = Some first :: rest /\
    result r = Returns {| OptimizationResult.bestAllocation := first;
                          OptimizationResult.predictedThroughput :=
                            predictThroughput exp_sample pow_sample first;
                          OptimizationResult.totalBuffersUsed := totalBuffers params_sample;
                          OptimizationResult.bestFitness := neg_infinity |}.
Proof.
  apply (runGA_zero_generations exp_sample pow_sample rng_sample params_sample
           {| populationSize := 3; generations := 0; mutationRate := 1 # 2;
              crossoverRate := 1 # 2; tournamentSize := 2 |} rng_sample_unit).
  - simpl. lia.
  - simpl. lia.
  - simpl. lia.
  - reflexivity.
Defined.

Lemma compositions_complete (k n : nat) (c : Chromosome) :
  valid (Z.of_nat k) (Z.of_nat n) c -> In c (compositions k n).
Proof.
  revert n c. induction k as [|k IH]; intros n c (Hl & Hs & Hn).
  - destruct c; [|simpl in Hl; lia]. rewrite sum_nil in Hs.
    simpl. replace n with 0%nat by lia. now left.
  - destruct c as [|x c]; [simpl in Hl; lia|].
    rewrite sum_cons in Hs. inversion Hn as [|? ? Hx Hc]; subst.
    pose proof (sum_nonneg c Hc) as Hsc.
    change (In (x :: c)
              (flat_map (fun i => map (cons (Z.of_nat i)) (compositions k (n - i)))
                 (seq 0 (S n)))).
    apply in_flat_map. exists (Z.to_nat x). split.
    + apply in_seq. lia.
    + rewrite Z2Nat.id by lia. apply in_map. apply IH.
      split; [simpl in Hl; lia|]. split; [lia | exact Hc].
Qed.

(** With six stations, eight buffers and the weights 1 and 2, each of the
    495 valid chromosomes has a fitness greater than [-Infinity]. *)
Lemma fitness_defined_sample : fitness_defined exp_sample pow_sample params_sample.
Proof.
  assert (H : forallb (fun c => Num.gt (calculateFitness exp_sample pow_sample c 1 2) neg_infinity)
                (compositions 5 8) = true) by (vm_compute; reflexivity).
  rewrite forallb_forall in H.
  intros c V. apply H. now apply compositions_complete.
Qed.

(** X16: with at least two stations, a target [totalBuffers >= 0], a
    population and a tournament of size at least 1, random numbers in
    [0, 1) and fitness values that are all greater than [-Infinity], the
    selection always finds a parent: a run of [N] generations yields exactly
    [N] reports, numbered 1, 2, ..., [N], and then returns one result. *)
Theorem runGA_reports_every_generation (Math_exp : float -> float)
    (Math_pow : float -> float -> float) (rng : nat -> Q)
    (params : OptimizationParams) (settings : GASettings) (N : nat) :
  unit_source rng ->
  (2 <= numStations params)%Z -> (0 <= totalBuffers params)%Z ->
  (1 <= populationSize settings)%Z -> (1 <= tournamentSize settings)%Z ->
  fitness_defined Math_exp Math_pow params ->
  generations settings = Z.of_nat N ->
  let r := runGA Math_exp Math_pow rng params settings in
  length (progress r) = N /\
  map ProgressData.generation (progress r) = map Z.of_nat (seq 1 N) /\
  exists res : OptimizationResult.t, result r = Returns res.
Proof.
  intros Hu Hs Ht Hp HT Hf Hg. cbv zeta.
  destruct (initializePopulation_valid rng (populationSize settings) (numStations params - 1)
              (totalBuffers params) 0 Hu) as (V1 & V2 & V3 & V4); try lia.
  destruct (V4 Hp) as (first & rest & E & _ & Vf).
  unfold runGA, progress.
  destruct (Z.leb_spec (numStations params - 1) 0) as [G|_]; [lia|].
  destruct (initializePopulation rng (populationSize settings) (numStations params - 1)
              (totalBuffers params) 0) as [population0 pos0].
  simpl in V1, V2, V3, E. rewrite Hg, Nat2Z.id.
  set (st0 := {| population := population0; bestEver := nth 0 population0 None;
                 bestFitnessEver := neg_infinity |}).
  assert (Hok : Forall (ref_ok (numStations params - 1) (totalBuffers params)) (population st0)).
  { eapply Forall_impl; [|exact V1]. intros a. apply ref_valid_ok. }
  assert (Hv : state_valid (numStations params - 1) (totalBuffers params)
                 (populationSize settings) st0).
  { split; [exact V1|]. split; [simpl; lia|]. simpl. rewrite E. simpl. now exists first. }
  destruct (generations_loop_spec Math_exp Math_pow rng params settings Hu Ht N 0 st0 pos0 Hok V3)
    as (_ & _ & H).
  destruct (H (conj Hf (conj HT Hp)) Hv) as (Hlen & _ & st' & pos' & Hfin & (_ & _ & Hb)).
  destruct (generations_loop_numbering Math_exp Math_pow rng params settings N 0 st0 pos0)
    as (_ & Hnum & _).
  simpl Z.of_nat in Hnum.
  destruct (generations_loop Math_exp Math_pow rng params settings N 0 st0 pos0)
    as [records final].
  simpl in *. rewrite length_map. split; [exact Hlen|].
  split; [now rewrite Hnum, Hlen|].
  subst final. unfold finalResult. destruct Hb as (c & -> & _). now eexists.
Qed.

Lemma runGA_reports_every_generation_witness :
  let r := runGA exp_sample pow_sample rng_sample params_sample settings_sample in
  length (progress r) = 3%nat /\
  map ProgressData.generation (progress r) = map Z.of_nat (seq 1 3) /\
  exists res : OptimizationResult.t, result r = Returns res.
Proof.
  apply (runGA_reports_every_generation exp_sample pow_sample rng_sample params_sample
           settings_sample 3 rng_sample_unit).
  - simpl. lia.
  - simpl. lia.
  - simpl. lia.
  - simpl. lia.
  - exact fitness_defined_sample.
  - reflexivity.
Defined.

(** With the cost weight 1e308 the cost of eight buffers overflows to
    [Infinity]: the fitness of every chromosome of eight buffers is
    [-Infinity] or [NaN], whatever [Math.exp] and [Math.pow] return. *)
Lemma fitness_overflow (Math_exp : float -> float) (Math_pow : float -> float -> float)
    (c : Chromosome) :
  sum c = 8%Z ->
  Num.gt (calculateFitness Math_exp Math_pow c (w1 params_overflow) (w2 params_overflow))
    neg_infinity = false.
Proof.
  intros Hs. unfold calculateFitness. rewrite Hs.
  change (w2 params_overflow * Num.of_Z 8)%float with infinity.
  apply NumFacts.sub_infinity_not_gt.
Qed.

(** C3: a run of two generations that the claim covers and that yields one
    report and no result.  With six stations, eight buffers and the weights
    1 and 1e308 every fitness is [-Infinity]; [tournamentSelection] returns
    [best!] with [best] still [null]; the population built in generation 1
    holds that [null], and generation 2 throws a [TypeError] while evaluating
    it. *)
Lemma runGA_throws_on_overflow :
  let r := runGA exp_sample pow_sample rng_sample params_overflow settings_selection in
  unit_source rng_sample /\
  (2 <= numStations params_overflow)%Z /\ (0 <= totalBuffers params_overflow)%Z /\
  Num.gt (w1 params_overflow) 0 = true /\ Num.gt (w2 params_overflow) 0 = true /\
  (1 <= populationSize settings_selection)%Z /\ (1 <= tournamentSize settings_selection)%Z /\
  generations settings_selection = 2%Z /\
  map ProgressData.generation (progress r) = [1%Z] /\
  result r = Throws.
Proof.
  cbv zeta. split; [exact rng_sample_unit|]. split; [simpl; lia|]. split; [simpl; lia|].
  split; [reflexivity|]. split; [reflexivity|]. split; [simpl; lia|]. split; [simpl; lia|].
  split; [reflexivity|]. split; vm_compute; reflexivity.
Qed.

(** X17: with at least two stations, [totalBuffers >= 0], a population of
    at least one and random numbers in [0, 1), every chromosome made by
    [createIndividual], by [crossover] (with its repair) from valid parents
    and by [mutate] from a valid chromosome has [numStations - 1] entries
    that sum to [totalBuffers] (and none is negative).  No population of a
    run ever holds a chromosome of another length or sum: each member is
    such a chromosome or the [null] a failed selection returned, and every
    member is such a chromosome when the tournament size is at least 1 and
    all fitness values are greater than [-Infinity]. *)
Theorem chromosomes_keep_length_and_sum (Math_exp : float -> float)
    (Math_pow : float -> float -> float) (rng : nat -> Q)
    (params : OptimizationParams) (settings : GASettings) :
  unit_source rng ->
  (2 <= numStations params)%Z -> (0 <= totalBuffers params)%Z ->
  (1 <= populationSize settings)%Z ->
  let L := (numStations params - 1)%Z in
  let total := totalBuffers params in
  let r := runGA Math_exp Math_pow rng params settings in
  (forall pos : nat, valid L total (fst (createIndividual rng L total pos))) /\
  (forall (parent1 parent2 : Chromosome) (pos : nat),
     valid L total parent1 -> valid L total parent2 ->
     exists (offspring1 offspring2 : Chromosome) (pos' : nat),
       crossover rng (Some parent1) (Some parent2) total pos =
         Returns ((offspring1, offspring2), pos') /\
       valid L total offspring1 /\ valid L total offspring2) /\
  (forall (c : Chromosome) (pos : nat),
     valid L total c -> valid L total (fst (mutate rng c pos))) /\
  Forall (fun rec => Forall (ref_ok L total) (evaluatedPopulation rec) /\
                     Forall (ref_ok L total) (nextPopulation rec)) (trace r) /\
  (fitness_defined Math_exp Math_pow params -> (1 <= tournamentSize settings)%Z ->
   Forall (fun rec => Forall (ref_valid L total) (evaluatedPopulation rec) /\
                      Forall (ref_valid L total) (nextPopulation rec)) (trace r)).
Proof.
  intros Hu Hs Ht Hp. cbv zeta.
  split; [intros pos; apply createIndividual_valid; trivial; lia|].
  split; [intros p1 p2 pos V1 V2; now apply crossover_valid|].
  split; [intros c pos V; now apply mutate_valid|].
  destruct (initializePopulation_valid rng (populationSize settings) (numStations params - 1)
              (totalBuffers params) 0 Hu) as (V1 & V2 & V3 & V4); try lia.
  destruct (V4 Hp) as (first & rest & E & _ & Vf).
  unfold runGA.
  destruct (Z.leb_spec (numStations params - 1) 0) as [G|_]; [lia|].
  destruct (initializePopulation rng (populationSize settings) (numStations params - 1)
              (totalBuffers params) 0) as [population0 pos0].
  simpl in V1, V2, V3, E.
  set (st0 := {| population := population0; bestEver := nth 0 population0 None;
                 bestFitnessEver := neg_infinity |}).
  assert (Hok : Forall (ref_ok (numStations params - 1) (totalBuffers params)) (population st0)).
  { eapply Forall_impl; [|exact V1]. intros a. apply ref_valid_ok. }
  assert (Hv : state_valid (numStations params - 1) (totalBuffers params)
                 (populationSize settings) st0).
  { split; [exact V1|]. split; [simpl; lia|]. simpl. rewrite E. simpl. now exists first. }
  destruct (generations_loop_spec Math_exp Math_pow rng params settings Hu Ht
              (Z.to_nat (generations settings)) 0 st0 pos0 Hok V3) as (H1 & _ & H2).
  destruct (generations_loop Math_exp Math_pow rng params settings
              (Z.to_nat (generations settings)) 0 st0 pos0) as [records final].
  simpl in *. split; [exact H1|].
  intros Hf HT. now destruct (H2 (conj Hf (conj HT Hp)) Hv) as (_ & H & _).
Qed.

Lemma chromosomes_keep_length_and_sum_witness :
  let L := (numStations params_sample - 1)%Z in
  let total := totalBuffers params_sample in
  let r := runGA exp_sample pow_sample rng_sample params_sample settings_sample in
  (forall pos : nat, valid L total (fst (createIndividual rng_sample L total pos))) /\
  (forall (parent1 parent2 : Chromosome) (pos : nat),
     valid L total parent1 -> valid L total parent2 ->
     exists (offspring1 offspring2 : Chromosome) (pos' : nat),
       crossover rng_sample (Some parent1) (Some parent2) total pos =
         Returns ((offspring1, offspring2), pos') /\
       valid L total offspring1 /\ valid L total offspring2) /\
  (forall (c : Chromosome) (pos : nat),
     valid L total c -> valid L total (fst (mutate rng_sample c pos))) /\
  Forall (fun rec => Forall (ref_ok L total) (evaluatedPopulation rec) /\
                     Forall (ref_ok L total) (nextPopulation rec)) (trace r) /\
  (fitness_defined exp_sample pow_sample params_sample ->
   (1 <= tournamentSize settings_sample)%Z ->
   Forall (fun rec => Forall (ref_valid L total) (evaluatedPopulation rec) /\
                      Forall (ref_valid L total) (nextPopulation rec)) (trace r)).
Proof.
  apply (chromosomes_keep_length_and_sum exp_sample pow_sample rng_sample params_sample
           settings_sample rng_sample_unit).
  - simpl. lia.
  - simpl. lia.
  - simpl. lia.
Defined.

(** C1: a run that the claim covers and whose population holds a member
    that is no chromosome.  With six stations, eight buffers, the weights 1
    and 1e308 and both rates 0, the two fitnesses of generation 1 are
    [-Infinity]; [tournamentSelection] returns [best!] with [best] still
    [null], and the population built in generation 1 (the one generation 2
    starts from) is [[3,0,3,2,0], null]. *)
Lemma runGA_null_member_on_overflow :
  let r := runGA exp_sample pow_sample rng_sample params_overflow settings_selection in
  unit_source rng_sample /\
  (2 <= numStations params_overflow)%Z /\ (0 <= totalBuffers params_overflow)%Z /\
  Num.gt (w1 params_overflow) 0 = true /\ Num.gt (w2 params_overflow) 0 = true /\
  (1 <= populationSize settings_selection)%Z /\ (1 <= tournamentSize settings_selection)%Z /\
  (0 <= mutationRate settings_selection <= 1)%Q /\
  (0 <= crossoverRate settings_selection <= 1)%Q /\
  map (fun rec => evaluate exp_sample pow_sample params_overflow (evaluatedPopulation rec))
    (trace r) = [Some [neg_infinity; neg_infinity]] /\
  map nextPopulation (trace r) = [[Some [3; 0; 3; 2; 0]%Z; None]] /\
  (exists rec : GenerationRecord, In rec (trace r) /\ In None (nextPopulation rec)).
Proof.
  cbv zeta. split; [exact rng_sample_unit|].
  split; [simpl; lia|]. split; [simpl; lia|].
  split; [reflexivity|]. split; [reflexivity|].
  split; [simpl; lia|]. split; [simpl; lia|].
  split; [split; discriminate|]. split; [split; discriminate|].
  split; [vm_compute; reflexivity|].
  split; [vm_compute; reflexivity|].
  eexists. split; [vm_compute; left; reflexivity|]. simpl. now right; left.
Qed.

(** * Further properties of the operators, of the run and of its callers *)

(** ** More of the order of binary64 numbers *)

Module NumOrder.

Lemma lex_total (a b : Z * Z * Z) : Num.lex_lt a b \/ a = b \/ Num.lex_lt b a.
Proof.
  destruct a as [[a1 a2] a3], b as [[b1 b2] b3]. unfold Num.lex_lt.
  destruct (Z.lt_trichotomy a1 b1) as [H|[H|H]]; [left; lia| |right; right; lia].
  destruct (Z.lt_trichotomy a2 b2) as [H2|[H2|H2]]; [left; lia| |right; right; lia].
  destruct (Z.lt_trichotomy a3 b3) as [H3|[H3|H3]]; [left; lia| |right; right; lia].
  right; left. now subst.
Qed.

Lemma gt_iff (a b : float) :
  Num.gt a b = true <->
  exists x y, Num.rank (Prim2SF a) = Some x /\ Num.rank (Prim2SF b) = Some y /\ Num.lex_lt y x.
Proof.
  unfold Num.gt. rewrite NumFacts.ltb_rank. split.
  - intros (y & x & Hy & Hx & H). now exists x, y.
  - intros (x & y & Hx & Hy & H). now exists y, x.
Qed.

Lemma le_iff (a b : float) :
  Num.le a b = true <->
  exists x y, Num.rank (Prim2SF a) = Some x /\ Num.rank (Prim2SF b) = Some y /\ Num.lex_le x y.
Proof. unfold Num.le. apply NumFacts.leb_rank. Qed.

(** The numbers, that is the values other than [NaN], are those that are
    [<=] themselves. *)
Lemma number_iff (a : float) :
  Num.le a a = true <-> exists x, Num.rank (Prim2SF a) = Some x.
Proof.
  rewrite le_iff. split.
  - intros (x & _ & Hx & _). now exists x.
  - intros (x & Hx). exists x, x. repeat split; trivial. now right.
Qed.

Lemma number_nan (a : float) : Num.le a a = true <-> is_nan a = false.
Proof.
  rewrite number_iff. unfold is_nan. rewrite FloatAxioms.eqb_spec.
  unfold SFeqb, SFcompare.
  destruct (Prim2SF a) as [s|s| |s m e]; try destruct s; simpl;
    rewrite ?Z.compare_refl, ?Pos.compare_refl; simpl;
    (split; [first [reflexivity | intros [x H]; discriminate] | ]);
    first [discriminate | intros _; now eexists].
Qed.

Lemma le_gt_false (a b : float) : Num.le a b = true -> Num.gt a b = false.
Proof.
  intros H. destruct (Num.gt a b) eqn:G; [|reflexivity].
  apply le_iff in H. apply gt_iff in G.
  destruct H as (x & y & Hx & Hy & [H|H]), G as (x' & y' & Hx' & Hy' & G).
  - rewrite Hx in Hx'. rewrite Hy in Hy'. injection Hx' as <-. injection Hy' as <-.
    now destruct (NumFacts.lex_lt_asym _ _ H).
  - rewrite Hx in Hx'. rewrite Hy in Hy'. injection Hx' as <-. injection Hy' as <-.
    subst. now destruct (NumFacts.lex_lt_irrefl _ G).
Qed.

Lemma gt_false_le (a b : float) :
  Num.le a a = true -> Num.le b b = true -> Num.gt a b = false -> Num.le a b = true.
Proof.
  intros Ha Hb G. apply number_iff in Ha. apply number_iff in Hb.
  destruct Ha as [x Hx], Hb as [y Hy]. apply le_iff. exists x, y.
  repeat split; trivial.
  destruct (lex_total x y) as [H|[H|H]]; [now left | now right |].
  assert (Num.gt a b = true) as E by (apply gt_iff; now exists x, y).
  congruence.
Qed.

(** [a > b >= c] gives [a > c]. *)
Lemma gt_le_trans (a b c : float) :
  Num.gt a b = true -> Num.le c b = true -> Num.gt a c = true.
Proof.
  intros G H. apply gt_iff in G. apply le_iff in H. apply gt_iff.
  destruct G as (x & y & Hx & Hy & G), H as (z & y' & Hz & Hy' & H).
  rewrite Hy in Hy'. injection Hy' as <-. exists x, z. repeat split; trivial.
  destruct H as [H| ->]; [eapply NumFacts.lex_lt_trans; eassumption | exact G].
Qed.

(** [a >= b > c] gives [a > c]. *)
Lemma le_gt_trans (a b c : float) :
  Num.le b a = true -> Num.gt b c = true -> Num.gt a c = true.
Proof.
  intros H G. apply gt_iff in G. apply le_iff in H. apply gt_iff.
  destruct G as (y & z & Hy & Hz & G), H as (y' & x & Hy' & Hx & H).
  rewrite Hy in Hy'. injection Hy' as <-. exists x, z. repeat split; trivial.
  destruct H as [H| <-]; [eapply NumFacts.lex_lt_trans; eassumption | exact G].
Qed.

(** What is not greater than [c] is not greater than anything above [c]. *)
Lemma not_gt_le (f c d : float) :
  Num.gt f c = false -> Num.le c d = true -> Num.gt f d = false.
Proof.
  intros G H. destruct (Num.gt f d) eqn:E; [|reflexivity].
  rewrite (gt_le_trans f d c E H) in G. discriminate.
Qed.

(** Every number is at least [-Infinity]. *)
Lemma le_neg_infinity (a : float) : Num.le a a = true -> Num.le neg_infinity a = true.
Proof.
  intros H. apply gt_false_le.
  - exact NumFacts.le_neg_infinity_refl.
  - exact H.
  - apply NumFacts.gt_neg_infinity_l.
Qed.

End NumOrder.

(** ** The best individual along a run *)

Section EliteFacts.

Variable Math_exp : float -> float.
Variable Math_pow : float -> float -> float.
Variable rng : nat -> Q.
Variable params : OptimizationParams.
Variable settings : GASettings.

Let fitness (c : Chromosome) : float :=
  calculateFitness Math_exp Math_pow c (w1 params) (w2 params).

(** The best individual kept is still the one the run started with, never
    beaten, or a chromosome whose fitness is the best fitness kept. *)
Let elite (initial : Ref) (st : LoopState) : Prop :=
  (bestFitnessEver st = neg_infinity /\ bestEver st = initial) \/
  exists c : Chromosome,
    bestEver st = Some c /\ bestFitnessEver st = fitness c /\
    Num.gt (bestFitnessEver st) neg_infinity = true.

(** The scan ends on a number that no fitness of the population exceeds. *)
Lemma scan_max (population : Population) (fitnesses : list float) :
  length fitnesses = length population ->
  forall (currentBestFitness : float) (currentBestIndividual : Ref) (totalFitness : float),
  Num.le currentBestFitness currentBestFitness = true ->
  let r := fst (scan population fitnesses currentBestFitness currentBestIndividual totalFitness) in
  Num.le (fst r) (fst r) = true /\
  Num.le currentBestFitness (fst r) = true /\
  Forall (fun f => Num.gt f (fst r) = false) fitnesses.
Proof.
  revert fitnesses.
  induction population as [|ind population IH]; intros [|f fitnesses] Hlen b i t Hb;
    simpl in *; try discriminate.
  - split; [exact Hb|]. split; [exact Hb | constructor].
  - destruct (Num.gt f b) eqn:G.
    + destruct (IH fitnesses ltac:(lia) f ind (t + f)%float (NumFacts.gt_refl_l _ _ G))
        as (H1 & H2 & H3).
      split; [exact H1|]. split.
      * eapply NumFacts.le_trans; [apply NumFacts.gt_le; exact G | exact H2].
      * constructor; [now apply NumOrder.le_gt_false | exact H3].
    + destruct (IH fitnesses ltac:(lia) b i (t + f)%float Hb) as (H1 & H2 & H3).
      split; [exact H1|]. split; [exact H2|].
      constructor; [|exact H3]. eapply NumOrder.not_gt_le; eassumption.
Qed.

(** The best fitness and the best individual of the scan go together. *)
Lemma scan_pair (chromosomes : list Chromosome) :
  forall (currentBestFitness : float) (currentBestIndividual : Ref) (totalFitness : float),
  let r := fst (scan (map Some chromosomes) (map fitness chromosomes)
                  currentBestFitness currentBestIndividual totalFitness) in
  (fst r = currentBestFitness /\ snd r = currentBestIndividual) \/
  exists c : Chromosome, In c chromosomes /\ snd r = Some c /\ fst r = fitness c.
Proof.
  induction chromosomes as [|c chromosomes IH]; intros b i t; simpl; [now left|].
  destruct (Num.gt (fitness c) b).
  - right. destruct (IH (fitness c) (Some c) (t + fitness c)%float) as [[H1 H2]|(d & H1 & H2)].
    + exists c. repeat split; auto.
    + exists d. split; [now right | exact H2].
  - destruct (IH b i (t + fitness c)%float) as [H|(d & H1 & H2)]; [now left | right].
    exists d. split; [now right | exact H2].
Qed.

(** One generation keeps the best pair together and ends on a best fitness
    that no member of the evaluated population exceeds. *)
Lemma generation_step_elite (gen : Z) (st st' : LoopState) (pd : ProgressData.t)
    (pos pos' : nat) (initial : Ref) :
  generation_step Math_exp Math_pow rng params settings gen st pos = Returns ((st', pd), pos') ->
  Num.le (bestFitnessEver st) (bestFitnessEver st) = true ->
  elite initial st ->
  elite initial st' /\
  forall c : Chromosome,
    In (Some c) (population st) -> Num.gt (fitness c) (bestFitnessEver st') = false.
Proof.
  intros H Hrefl He. apply generation_step_inv in H.
  destruct H as (fits & np & Hev & Hb & Hi & _ & _ & _).
  destruct (evaluate_Some _ _ _ _ _ Hev) as (cs & Hcs & Hfits).
  fold fitness in Hfits.
  cbv zeta in Hb, Hi. rewrite Hcs, Hfits in Hb, Hi.
  pose proof (scan_pair cs neg_infinity None 0%float) as SP.
  assert (Hlen : length (map fitness cs) = length (map Some cs))
    by now rewrite !length_map.
  pose proof (scan_max (map Some cs) (map fitness cs) Hlen
                neg_infinity None 0%float NumFacts.le_neg_infinity_refl) as SM.
  cbv zeta in SP, SM.
  destruct (scan (map Some cs) (map fitness cs) neg_infinity None 0%float) as [[cbf cbi] tf].
  simpl in *. destruct SM as (M1 & _ & M3).
  assert (Hdom : forall c, In (Some c) (population st) -> Num.gt (fitness c) cbf = false).
  { intros c Hc. rewrite Hcs in Hc. apply in_map_iff in Hc. destruct Hc as (d & E & Hd).
    injection E as ->. rewrite Forall_forall in M3. apply M3. now apply in_map. }
  destruct (Num.gt cbf (bestFitnessEver st)) eqn:G.
  - split.
    + right. destruct SP as [[-> _]|(c & _ & Hc1 & Hc2)].
      * now rewrite NumFacts.gt_neg_infinity_l in G.
      * exists c. rewrite Hi, Hb. repeat split; trivial.
        eapply NumOrder.gt_le_trans; [exact G|]. now apply NumOrder.le_neg_infinity.
    + intros c Hc. rewrite Hb. now apply Hdom.
  - split.
    + destruct He as [[E1 E2]|(c & E1 & E2 & E3)].
      * left. now rewrite Hb, Hi.
      * right. exists c. now rewrite Hb, Hi.
    + intros c Hc. rewrite Hb. eapply NumOrder.not_gt_le; [now apply Hdom|].
      now apply NumOrder.gt_false_le.
Qed.

(** A turn of the filling loop only appends. *)
Lemma reproduce_appends (population : Population) (fitnesses : list float)
    (newPopulation : Population) (pos : nat) :
  post (reproduce rng params settings population fitnesses newPopulation) pos
    (fun filled _ => exists added, filled = newPopulation ++ added) True.
Proof.
  unfold reproduce. apply post_bind, post_lift, post_bind, post_random.
  apply post_seq with
    (R := fun (a : Ref * Population) (_ : nat) => exists added, snd a = newPopulation ++ added).
  - destruct (Qltb _ (crossoverRate settings)).
    2:{ apply post_ret. exists []. simpl. now rewrite app_nil_r. }
    apply post_bind, post_lift.
    eapply post_seq; [apply crossover_total|]. intros [o1 o2] pos2 _.
    apply post_bind, post_random.
    apply post_seq with (R := fun (_ : Chromosome) (_ : nat) => True).
    + destruct (Qltb _ (mutationRate settings)); [now apply post_lift | now apply post_ret].
    + intros o2' pos3 _. apply post_ret. simpl.
      destruct (Z.of_nat (length newPopulation) <? populationSize settings)%Z.
      * now eexists.
      * exists []. now rewrite app_nil_r.
  - intros [offspring1 filled] pos2 [added Hadd]. simpl in Hadd.
    apply post_bind, post_random.
    apply post_seq with (R := fun (_ : Ref) (_ : nat) => True).
    + destruct (Qltb _ (mutationRate settings)); [|now apply post_ret].
      destruct offspring1; [|exact I].
      unfold mutateRef. now apply post_bind, post_lift, post_ret.
    + intros o pos3 _. apply post_ret. exists (added ++ [o]).
      now rewrite Hadd, app_assoc.
Qed.

Lemma reproduce_loop_appends (fuel : nat) (population : Population) (fitnesses : list float) :
  forall (newPopulation : Population) (pos : nat) (filled : Population) (pos' : nat),
  reproduce_loop rng params settings fuel population fitnesses newPopulation pos =
    Returns (filled, pos') ->
  exists added, filled = newPopulation ++ added.
Proof.
  induction fuel as [|fuel IH]; intros newPopulation pos filled pos'; simpl;
    destruct (Z.of_nat (length newPopulation) <? populationSize settings)%Z.
  - discriminate.
  - unfold ret. intros H. injection H as <- <-. exists []. now rewrite app_nil_r.
  - unfold bind.
    pose proof (reproduce_appends population fitnesses newPopulation pos) as R.
    unfold post in R.
    destruct (reproduce rng params settings population fitnesses newPopulation pos)
      as [[np1 pos1]| |]; try discriminate.
    intros H. apply IH in H. destruct R as [a1 ->], H as [a2 ->].
    exists (a1 ++ a2). now rewrite app_assoc.
  - unfold ret. intros H. injection H as <- <-. exists []. now rewrite app_nil_r.
Qed.

(** Elitism: with a population of at least one, the population a generation
    builds has [populationSize] members and the best individual comes
    first. *)
Lemma generation_step_first (gen : Z) (st st' : LoopState) (pd : ProgressData.t)
    (pos pos' : nat) :
  (1 <= populationSize settings)%Z ->
  generation_step Math_exp Math_pow rng params settings gen st pos = Returns ((st', pd), pos') ->
  nth 0 (population st') None = bestEver st' /\
  Z.of_nat (length (population st')) = populationSize settings /\
  ProgressData.bestFitness pd = bestFitnessEver st'.
Proof.
  intros Hpop H. apply generation_step_inv in H.
  destruct H as (fits & np & _ & _ & _ & Hr & Hp & ->). simpl.
  pose proof (reproduce_loop_exit _ _ _ _ _ _ _ _ _ _ Hr) as Hlen.
  apply reproduce_loop_appends in Hr. destruct Hr as [added ->].
  split; [|split; [|reflexivity]].
  - rewrite Hp. unfold slice0. destruct (Z.ltb_spec (populationSize settings) 0); [lia|].
    destruct (Z.to_nat (populationSize settings)) as [|k] eqn:E; [lia | reflexivity].
  - rewrite Hp. apply length_slice0. lia.
Qed.

(** The loop over the generations, seen from the best individual. *)
Lemma generations_loop_elite (n : nat) (initial : Ref) :
  forall (gen : Z) (st : LoopState) (pos : nat),
  Num.le (bestFitnessEver st) (bestFitnessEver st) = true ->
  elite initial st ->
  let r := generations_loop Math_exp Math_pow rng params settings n gen st pos in
  Forall (fun rec =>
            (forall c : Chromosome,
               In (Some c) (evaluatedPopulation rec) ->
               Num.gt (fitness c) (ProgressData.bestFitness (report rec)) = false) /\
            ((1 <= populationSize settings)%Z ->
             Z.of_nat (length (nextPopulation rec)) = populationSize settings /\
             (Num.gt (ProgressData.bestFitness (report rec)) neg_infinity = true ->
              exists c : Chromosome,
                nth 0 (nextPopulation rec) None = Some c /\
                fitness c = ProgressData.bestFitness (report rec)))) (fst r) /\
  forall (st' : LoopState) (pos' : nat),
    snd r = Returns (st', pos') ->
    elite initial st' /\
    ((fst r = [] /\ st' = st) \/
     exists (front : list GenerationRecord) (rec : GenerationRecord),
       fst r = front ++ [rec] /\ nextPopulation rec = population st' /\
       ((1 <= populationSize settings)%Z -> nth 0 (population st') None = bestEver st')).
Proof.
  induction n as [|n IH]; intros gen st pos Hrefl He; simpl.
  - split; [constructor|]. intros st' pos' E. injection E as <- _. split; [exact He | now left].
  - destruct (generation_step Math_exp Math_pow rng params settings gen st pos)
      as [[[st1 pd] pos1]| |] eqn:G; simpl; try (split; [constructor | discriminate]).
    destruct (generation_step_bestFitness _ _ _ _ _ _ _ _ _ _ _ G Hrefl) as (_ & Hpd & _ & Hrefl1).
    destruct (generation_step_elite _ _ _ _ _ _ initial G Hrefl He) as (He1 & Hdom).
    specialize (IH (gen + 1)%Z st1 pos1 Hrefl1 He1). cbv zeta in IH.
    destruct (generations_loop Math_exp Math_pow rng params settings n (gen + 1) st1 pos1)
      as [records final].
    simpl in *. destruct IH as (I1 & I2). split.
    + constructor; [|exact I1]. simpl. split.
      * intros c Hc. rewrite Hpd. now apply Hdom.
      * intros Hpop. destruct (generation_step_first _ _ _ _ _ _ Hpop G) as (F1 & F2 & _).
        split; [exact F2|]. rewrite Hpd. intros Hgt.
        destruct He1 as [[E1 _]|(c & E1 & E2 & _)].
        -- rewrite E1 in Hgt. now rewrite NumFacts.gt_neg_infinity_l in Hgt.
        -- exists c. rewrite F1. now split.
    + intros st' pos' E. destruct (I2 st' pos' E) as (J1 & J2). split; [exact J1|].
      right. destruct J2 as [[-> ->]|(front & rec & -> & J3 & J4)].
      * exists [], {| evaluatedPopulation := population st; nextPopulation := population st1;
                      report := pd |}.
        split; [reflexivity|]. split; [reflexivity|].
        intros Hpop. now destruct (generation_step_first _ _ _ _ _ _ Hpop G).
      * exists ({| evaluatedPopulation := population st; nextPopulation := population st1;
                   report := pd |} :: front), rec.
        split; [reflexivity|]. now split.
Qed.

End EliteFacts.

(** The best individual left by the loop is [null] or a valid chromosome. *)
Lemma generations_loop_bestEver_ok (Math_exp : float -> float)
    (Math_pow : float -> float -> float) (rng : nat -> Q)
    (params : OptimizationParams) (settings : GASettings) (n : nat) :
  unit_source rng -> (0 <= totalBuffers params)%Z ->
  forall (gen : Z) (st : LoopState) (pos : nat),
  Forall (ref_ok (numStations params - 1) (totalBuffers params)) (population st) ->
  ref_ok (numStations params - 1) (totalBuffers params) (bestEver st) ->
  forall (st' : LoopState) (pos' : nat),
  snd (generations_loop Math_exp Math_pow rng params settings n gen st pos) = Returns (st', pos') ->
  ref_ok (numStations params - 1) (totalBuffers params) (bestEver st').
Proof.
  intros Hu Ht. induction n as [|n IH]; intros gen st pos Hpop Hbest st' pos'; simpl.
  - intros E. injection E as <- _. exact Hbest.
  - pose proof (generation_step_spec Math_exp Math_pow rng params settings Hu Ht gen st pos
                  Hpop Hbest) as G.
    unfold post in G.
    destruct (generation_step Math_exp Math_pow rng params settings gen st pos)
      as [[[st1 pd] pos1]| |]; simpl in *; try discriminate.
    destruct G as (G1 & G2 & _).
    specialize (IH (gen + 1)%Z st1 pos1 G1 G2 st' pos').
    destruct (generations_loop Math_exp Math_pow rng params settings n (gen + 1) st1 pos1)
      as [records final].
    exact IH.
Qed.

(** X1: in every generation of every run, the best fitness reported is not
    exceeded by the fitness of any chromosome of the population evaluated in
    that generation. *)
Theorem bestFitness_bounds_evaluated (Math_exp : float -> float)
    (Math_pow : float -> float -> float) (rng : nat -> Q)
    (params : OptimizationParams) (settings : GASettings) :
  Forall (fun rec =>
            forall c : Chromosome,
              In (Some c) (evaluatedPopulation rec) ->
              Num.gt (calculateFitness Math_exp Math_pow c (w1 params) (w2 params))
                (ProgressData.bestFitness (report rec)) = false)
    (trace (runGA Math_exp Math_pow rng params settings)).
Proof.
  unfold runGA.
  destruct (numStations params - 1 <=? 0)%Z; simpl; [constructor|].
  destruct (initializePopulation rng (populationSize settings) (numStations params - 1)
              (totalBuffers params) 0) as [population0 pos0].
  pose proof (generations_loop_elite Math_exp Math_pow rng params settings
                (Z.to_nat (generations settings)) (nth 0 population0 None) 0
                {| population := population0; bestEver := nth 0 population0 None;
                   bestFitnessEver := neg_infinity |} pos0
                NumFacts.le_neg_infinity_refl (or_introl (conj eq_refl eq_refl))) as H.
  cbv zeta in H.
  destruct (generations_loop Math_exp Math_pow rng params settings
              (Z.to_nat (generations settings)) 0
              {| population := population0; bestEver := nth 0 population0 None;
                 bestFitnessEver := neg_infinity |} pos0) as [records final].
  simpl in *. destruct H as [H _].
  eapply Forall_impl; [|exact H]. intros rec [Hrec _]. exact Hrec.
Qed.

(** X2: elitism.  With a population size of at least 1, every population a
    generation builds has [populationSize] members, and whenever the best
    fitness reported is greater than [-Infinity] its first member is a
    chromosome with exactly that fitness; the best allocation of the final
    result is the first member of the last population built. *)
Theorem elitism_first_member (Math_exp : float -> float)
    (Math_pow : float -> float -> float) (rng : nat -> Q)
    (params : OptimizationParams) (settings : GASettings) :
  (1 <= populationSize settings)%Z ->
  let r := runGA Math_exp Math_pow rng params settings in
  Forall (fun rec =>
            Z.of_nat (length (nextPopulation rec)) = populationSize settings /\
            (Num.gt (ProgressData.bestFitness (report rec)) neg_infinity = true ->
             exists c : Chromosome,
               nth 0 (nextPopulation rec) None = Some c /\
               calculateFitness Math_exp Math_pow c (w1 params) (w2 params) =
                 ProgressData.bestFitness (report rec)))
    (trace r) /\
  forall res : OptimizationResult.t,
    result r = Returns res ->
    trace r = [] \/
    exists (front : list GenerationRecord) (rec : GenerationRecord),
      trace r = front ++ [rec] /\
      nth 0 (nextPopulation rec) None = Some (OptimizationResult.bestAllocation res).
Proof.
  intros Hpop. unfold runGA.
  destruct (numStations params - 1 <=? 0)%Z; simpl; [split; [constructor | now left]|].
  destruct (initializePopulation rng (populationSize settings) (numStations params - 1)
              (totalBuffers params) 0) as [population0 pos0].
  pose proof (generations_loop_elite Math_exp Math_pow rng params settings
                (Z.to_nat (generations settings)) (nth 0 population0 None) 0
                {| population := population0; bestEver := nth 0 population0 None;
                   bestFitnessEver := neg_infinity |} pos0
                NumFacts.le_neg_infinity_refl (or_introl (conj eq_refl eq_refl))) as H.
  cbv zeta in H.
  destruct (generations_loop Math_exp Math_pow rng params settings
              (Z.to_nat (generations settings)) 0
              {| population := population0; bestEver := nth 0 population0 None;
                 bestFitnessEver := neg_infinity |} pos0) as [records final].
  simpl in *. destruct H as [H1 H2]. split.
  - eapply Forall_impl; [|exact H1]. intros rec [_ Hrec]. now apply Hrec.
  - intros res Hres. destruct final as [[st pos]| |]; try discriminate.
    destruct (H2 st pos eq_refl) as [_ [[-> _]|(front & rec & -> & J1 & J2)]]; [now left|].
    right. exists front, rec. split; [reflexivity|].
    unfold finalResult in Hres. rewrite J1, (J2 Hpop).
    destruct (bestEver st); [|discriminate]. now injection Hres as <-.
Qed.

Lemma elitism_first_member_witness :
  let r := runGA exp_sample pow_sample rng_sample params_sample settings_sample in
  Forall (fun rec =>
            Z.of_nat (length (nextPopulation rec)) = populationSize settings_sample /\
            (Num.gt (ProgressData.bestFitness (report rec)) neg_infinity = true ->
             exists c : Chromosome,
               nth 0 (nextPopulation rec) None = Some c /\
               calculateFitness exp_sample pow_sample c (w1 params_sample) (w2 params_sample) =
                 ProgressData.bestFitness (report rec)))
    (trace r) /\
  forall res : OptimizationResult.t,
    result r = Returns res ->
    trace r = [] \/
    exists (front : list GenerationRecord) (rec : GenerationRecord),
      trace r = front ++ [rec] /\
      nth 0 (nextPopulation rec) None = Some (OptimizationResult.bestAllocation res).
Proof.
  apply (elitism_first_member exp_sample pow_sample rng_sample params_sample settings_sample).
  simpl. lia.
Defined.



(** X4: with at least two stations, a buffer total of at least 0 and random
    numbers in [0, 1), the allocation a run returns has [numStations - 1]
    entries, none negative, that sum to [totalBuffers]: [totalBuffersUsed]
    is [totalBuffers], and [predictedThroughput] is the throughput predicted
    for that allocation. *)
Theorem result_uses_all_buffers (Math_exp : float -> float)
    (Math_pow : float -> float -> float) (rng : nat -> Q)
    (params : OptimizationParams) (settings : GASettings) (res : OptimizationResult.t) :
  unit_source rng ->
  (2 <= numStations params)%Z -> (0 <= totalBuffers params)%Z ->
  result (runGA Math_exp Math_pow rng params settings) = Returns res ->
  valid (numStations params - 1) (totalBuffers params) (OptimizationResult.bestAllocation res) /\
  OptimizationResult.totalBuffersUsed res = totalBuffers params /\
  OptimizationResult.predictedThroughput res =
    predictThroughput Math_exp Math_pow (OptimizationResult.bestAllocation res).
Proof.
  intros Hu Hst Ht. unfold runGA.
  destruct (Z.leb_spec (numStations params - 1) 0) as [G|G]; [lia|].
  pose proof (initializePopulation_valid rng (populationSize settings) (numStations params - 1)
                (totalBuffers params) 0 Hu G Ht) as (V1 & _ & V2 & _).
  destruct (initializePopulation rng (populationSize settings) (numStations params - 1)
              (totalBuffers params) 0) as [population0 pos0].
  simpl in V1, V2.
  assert (V0 : Forall (ref_ok (numStations params - 1) (totalBuffers params)) population0).
  { eapply Forall_impl; [|exact V1]. intros a. apply ref_valid_ok. }
  pose proof (generations_loop_bestEver_ok Math_exp Math_pow rng params settings
                (Z.to_nat (generations settings)) Hu Ht 0
                {| population := population0; bestEver := nth 0 population0 None;
                   bestFitnessEver := neg_infinity |} pos0 V0 V2) as H.
  destruct (generations_loop Math_exp Math_pow rng params settings
              (Z.to_nat (generations settings)) 0
              {| population := population0; bestEver := nth 0 population0 None;
                 bestFitnessEver := neg_infinity |} pos0) as [records final].
  simpl in *. intros Hres.
  destruct final as [[st pos]| |]; try discriminate.
  specialize (H st pos eq_refl). unfold finalResult in Hres.
  destruct (bestEver st) as [best|]; [|discriminate]. injection Hres as <-. simpl in *.
  split; [exact H|]. split; [apply H | reflexivity].
Qed.

Lemma result_uses_all_buffers_witness :
  let res :=
    {| OptimizationResult.bestAllocation := [3; 0; 3; 2; 0]%Z;
       OptimizationResult.predictedThroughput :=
         predictThroughput exp_sample pow_sample [3; 0; 3; 2; 0]%Z;
       OptimizationResult.totalBuffersUsed := 8;
       OptimizationResult.bestFitness :=
         calculateFitness exp_sample pow_sample [3; 0; 3; 2; 0]%Z 1 2 |} in
  valid (numStations params_sample - 1) (totalBuffers params_sample)
    (OptimizationResult.bestAllocation res) /\
  OptimizationResult.totalBuffersUsed res = totalBuffers params_sample /\
  OptimizationResult.predictedThroughput res =
    predictThroughput exp_sample pow_sample (OptimizationResult.bestAllocation res).
Proof.
  apply (result_uses_all_buffers exp_sample pow_sample rng_sample params_sample
           settings_sample _ rng_sample_unit).
  - simpl. lia.
  - simpl. lia.
  - vm_compute. reflexivity.
Defined.

(** ** More on the operators *)

Lemma nth_updateAt (f : Z -> Z) (i k : nat) (c : Chromosome) :
  nth k (updateAt f i c) 0%Z =
  if (k =? i)%nat && (i <? length c)%nat then f (nth k c 0%Z) else nth k c 0%Z.
Proof.
  revert i k. induction c as [|x c IH]; intros i k; simpl.
  - destruct i as [|i], k as [|k]; simpl; rewrite ?andb_false_r; reflexivity.
  - destruct i as [|i], k as [|k]; simpl; trivial.
Qed.

Lemma updateAt_succ_pred (i : nat) (c : Chromosome) :
  updateAt Z.succ i (updateAt Z.pred i c) = c.
Proof.
  revert i. induction c as [|x c IH]; intros [|i]; simpl; trivial.
  - now rewrite Z.succ_pred.
  - now rewrite IH.
Qed.

(** The draws of [createIndividual]: one for each buffer. *)
Lemma createIndividual_loop_draws (rng : nat -> Q) (remaining : nat) (L : Z) :
  forall (individual : Chromosome) (pos : nat),
  snd (createIndividual_loop rng remaining L individual pos) = (pos + remaining)%nat.
Proof.
  induction remaining as [|remaining IH]; intros individual pos; simpl.
  - lia.
  - rewrite IH. lia.
Qed.

Section SelectionFacts.

Variable rng : nat -> Q.
Hypothesis rng_unit : unit_source rng.

Variable population : Population.
Variable fitnesses : list float.
Hypothesis population_nonempty : population <> [].
Hypothesis fitnesses_length : length fitnesses = length population.

(** The index and the fitness of the draw made at position [p]. *)
Let drawn (p : nat) : nat := randomIndex (rng p) (Z.of_nat (length population)).
Let fit (p : nat) : float := nth (drawn p) fitnesses nan.

Lemma number_or_nan (f : float) : Num.le f f = true \/ is_nan f = true.
Proof.
  destruct (is_nan f) eqn:E; [now right | left]. now apply NumOrder.number_nan.
Qed.

(** The loop of the tournament keeps the first of the greatest fitnesses
    drawn, when one exceeds the fitness it starts with. *)
Lemma tournament_loop_max (n : nat) :
  forall (best : Ref) (bestFitness : float) (pos : nat),
  Num.le bestFitness bestFitness = true ->
  let r := tournament_loop rng n population fitnesses best bestFitness pos in
  snd r = (pos + n)%nat /\
  ((fst r = best /\
    forall j : nat, (j < n)%nat -> Num.gt (fit (pos + j)) bestFitness = false) \/
   exists k : nat,
     (k < n)%nat /\ fst r = nth (drawn (pos + k)) population None /\
     Num.gt (fit (pos + k)) bestFitness = true /\
     (forall j : nat, (j < n)%nat -> Num.gt (fit (pos + j)) (fit (pos + k)) = false) /\
     (forall j : nat, (j < k)%nat ->
        Num.gt (fit (pos + k)) (fit (pos + j)) = true \/ is_nan (fit (pos + j)) = true)).
Proof.
  induction n as [|n IH]; intros best bf pos Hbf; simpl.
  - split; [lia|]. left. split; [reflexivity|]. intros j Hj. lia.
  - pose proof (tournament_index_lt rng rng_unit population pos population_nonempty) as Hi.
    fold (drawn pos) in *.
    destruct (nth_error fitnesses (drawn pos)) as [f|] eqn:E.
    2:{ apply nth_error_None in E. lia. }
    assert (Hf : fit pos = f) by (unfold fit; now apply nth_error_nth).
    assert (shift : forall j, (pos + S j = S pos + j)%nat) by (intros; lia).
    destruct (Num.gt f bf) eqn:G.
    + pose proof (NumFacts.gt_refl_l _ _ G) as Hnum.
      destruct (IH (nth (drawn pos) population None) f (S pos) Hnum) as (D & [[B N]|K]).
      * split; [lia|]. right. exists 0%nat. rewrite Nat.add_0_r, Hf.
        split; [lia|]. split; [exact B|]. split; [exact G|]. split; [|intros j Hj; lia].
        intros [|j] Hj.
        -- rewrite Nat.add_0_r, Hf. now apply NumOrder.le_gt_false.
        -- rewrite shift. apply N. lia.
      * destruct K as (k & Hk & B & K1 & K2 & K3).
        split; [lia|]. right. exists (S k). rewrite shift.
        split; [lia|]. split; [exact B|]. split.
        { eapply NumOrder.gt_le_trans; [exact K1|]. now apply NumFacts.gt_le. }
        split.
        -- intros [|j] Hj.
           ++ rewrite Nat.add_0_r, Hf. apply NumOrder.le_gt_false. now apply NumFacts.gt_le.
           ++ rewrite shift. apply K2. lia.
        -- intros [|j] Hj.
           ++ rewrite Nat.add_0_r, Hf. now left.
           ++ rewrite shift. apply K3. lia.
    + destruct (IH best bf (S pos) Hbf) as (D & [[B N]|K]).
      * split; [lia|]. left. split; [exact B|].
        intros [|j] Hj.
        -- now rewrite Nat.add_0_r, Hf.
        -- rewrite shift. apply N. lia.
      * destruct K as (k & Hk & B & K1 & K2 & K3).
        split; [lia|]. right. exists (S k). rewrite shift.
        split; [lia|]. split; [exact B|]. split; [exact K1|]. split.
        -- intros [|j] Hj.
           ++ rewrite Nat.add_0_r, Hf. eapply NumOrder.not_gt_le; [exact G|].
              now apply NumFacts.gt_le.
           ++ rewrite shift. apply K2. lia.
        -- intros [|j] Hj.
           ++ rewrite Nat.add_0_r, Hf. destruct (number_or_nan f) as [Hn|Hn]; [left | now right].
              eapply NumOrder.gt_le_trans; [exact K1|]. now apply NumOrder.gt_false_le.
           ++ rewrite shift. apply K3. lia.
Qed.

End SelectionFacts.

Lemma Forall2_le_refl (c : Chromosome) : Forall2 Z.le c c.
Proof. induction c; constructor; trivial; lia. Qed.

Lemma Forall2_le_trans (a b c : Chromosome) :
  Forall2 Z.le a b -> Forall2 Z.le b c -> Forall2 Z.le a c.
Proof.
  intros H. revert c. induction H as [|x y a b Hxy _ IH]; intros c Hc; inversion Hc; subst.
  - constructor.
  - constructor; [lia | now apply IH].
Qed.

Lemma Forall2_le_updateAt_pred (i : nat) (c : Chromosome) :
  Forall2 Z.le (updateAt Z.pred i c) c.
Proof.
  revert i. induction c as [|x c IH]; intros [|i]; simpl; try constructor; trivial;
    try lia; apply Forall2_le_refl.
Qed.

Lemma Forall2_le_updateAt_succ (i : nat) (c : Chromosome) :
  Forall2 Z.le c (updateAt Z.succ i c).
Proof.
  revert i. induction c as [|x c IH]; intros [|i]; simpl; try constructor; trivial;
    try lia; apply Forall2_le_refl.
Qed.

(** The loop of [repair] on any child of the right length, whatever the
    signs of its entries: with a target of at least 0 the safeguard is not
    taken, since a sum above the target has a positive entry. *)
Lemma repair_loop_exact (rng : nat -> Q) (size total : Z) (fuel : nat) :
  unit_source rng -> (0 < size)%Z -> (0 <= total)%Z ->
  forall (child : Chromosome) (currentSum : Z) (iterations pos : nat),
  Z.of_nat (length child) = size -> currentSum = sum child ->
  (Z.abs (currentSum - total) <= Z.of_nat fuel)%Z ->
  exists (repaired : Chromosome) (pos' : nat),
    repair_loop rng fuel size total child currentSum iterations pos =
      Some (repaired, (iterations + Z.to_nat (Z.abs (currentSum - total)))%nat, pos') /\
    length repaired = length child /\ sum repaired = total /\
    ((total <= currentSum)%Z -> pos' = pos /\ Forall2 Z.le repaired child) /\
    ((currentSum <= total)%Z ->
     pos' = (pos + Z.to_nat (total - currentSum))%nat /\ Forall2 Z.le child repaired).
Proof.
  intros Hu Hsize Htot.
  induction fuel as [|fuel IH]; intros child cs it pos Hlen Hcs Hfuel; simpl;
    destruct (Z.eqb_spec cs total) as [E|E]; try lia.
  - exists child, pos. replace (cs - total)%Z with 0%Z by lia.
    replace (total - cs)%Z with 0%Z by lia. simpl. rewrite !Nat.add_0_r.
    split; [reflexivity|]. split; [reflexivity|]. split; [congruence|].
    split; intros _; (split; [reflexivity | apply Forall2_le_refl]).
  - exists child, pos. replace (cs - total)%Z with 0%Z by lia.
    replace (total - cs)%Z with 0%Z by lia. simpl. rewrite !Nat.add_0_r.
    split; [reflexivity|]. split; [reflexivity|]. split; [congruence|].
    split; intros _; (split; [reflexivity | apply Forall2_le_refl]).
  - destruct (Z.gtb_spec cs total) as [G|G].
    + destruct (findIndex (fun val => (val >? 0)%Z) child) as [i|] eqn:F.
      * apply findIndex_Some in F. destruct F as [Hi Hp].
        destruct (IH (updateAt Z.pred i child) (cs - 1)%Z (S it) pos)
          as (r & pos' & Hr & Hl & Hs & Hdown & _).
        -- now rewrite length_updateAt.
        -- rewrite sum_updateAt by exact Hi. lia.
        -- lia.
        -- exists r, pos'. rewrite length_updateAt in Hl.
           split; [rewrite Hr; do 3 f_equal; lia|]. split; [exact Hl|]. split; [exact Hs|].
           split; [|lia]. intros _. destruct Hdown as [D1 D2]; [lia|].
           split; [exact D1|]. eapply Forall2_le_trans; [exact D2|].
           apply Forall2_le_updateAt_pred.
      * apply findIndex_None in F. apply sum_no_positive in F. lia.
    + pose proof (slot_lt rng Hu pos size Hsize) as Hslot.
      set (i := randomIndex (rng pos) size) in *.
      assert (Hi : (i < length child)%nat) by lia.
      destruct (IH (updateAt Z.succ i child) (cs + 1)%Z (S it) (S pos))
        as (r & pos' & Hr & Hl & Hs & _ & Hup).
      * now rewrite length_updateAt.
      * rewrite sum_updateAt by exact Hi. lia.
      * lia.
      * exists r, pos'. rewrite length_updateAt in Hl.
        split; [rewrite Hr; do 3 f_equal; lia|]. split; [exact Hl|]. split; [exact Hs|].
        split; [lia|]. intros _. destruct Hup as [U1 U2]; [lia|].
        split; [lia|]. eapply Forall2_le_trans; [|exact U2].
        apply Forall2_le_updateAt_succ.
Qed.

(** X5: [repair] on a child of [size >= 1] integer entries, of any sign,
    with a target of at least 0: it returns after exactly
    [|sum - totalBuffers|] iterations (the safeguard is never taken) a
    chromosome of the same length that sums to the target.  When the sum was
    too high it has only lowered entries and drawn no random number; when it
    was too low it has only raised entries, with one draw for each missing
    buffer. *)
Theorem repair_moves_one_way (rng : nat -> Q) (size total : Z) (child : Chromosome)
    (pos : nat) :
  unit_source rng -> (0 < size)%Z -> (0 <= total)%Z -> Z.of_nat (length child) = size ->
  exists (repaired : Chromosome) (pos' : nat),
    repair_loop rng (deviation child total) size total child (sum child) 0 pos =
      Some (repaired, deviation child total, pos') /\
    repair rng size total child pos = Returns (repaired, pos') /\
    length repaired = length child /\ sum repaired = total /\
    ((total <= sum child)%Z -> pos' = pos /\ Forall2 Z.le repaired child) /\
    ((sum child <= total)%Z ->
     pos' = (pos + deviation child total)%nat /\ Forall2 Z.le child repaired).
Proof.
  intros Hu Hsize Htot Hlen.
  destruct (repair_loop_exact rng size total (deviation child total) Hu Hsize Htot
              child (sum child) 0 pos Hlen eq_refl)
    as (r & pos' & Hr & Hl & Hs & Hdown & Hup).
  { unfold deviation. lia. }
  simpl in Hr. fold (deviation child total) in Hr.
  exists r, pos'. split; [exact Hr|]. split; [unfold repair; now rewrite Hr|].
  split; [exact Hl|]. split; [exact Hs|]. split; [exact Hdown|].
  intros H. destruct (Hup H) as [U1 U2]. split; [|exact U2].
  rewrite U1. unfold deviation. f_equal. lia.
Qed.

Lemma repair_moves_one_way_witness :
  exists (repaired : Chromosome) (pos' : nat),
    repair_loop rng_sample (deviation [4; -1; 2]%Z 3) 3 3 [4; -1; 2]%Z (sum [4; -1; 2]%Z)
      0 1%nat = Some (repaired, deviation [4; -1; 2]%Z 3, pos') /\
    repair rng_sample 3 3 [4; -1; 2]%Z 1%nat = Returns (repaired, pos') /\
    length repaired = length [4; -1; 2]%Z /\ sum repaired = 3%Z /\
    ((3 <= sum [4; -1; 2]%Z)%Z -> pos' = 1%nat /\ Forall2 Z.le repaired [4; -1; 2]%Z) /\
    ((sum [4; -1; 2]%Z <= 3)%Z ->
     pos' = (1 + deviation [4; -1; 2]%Z 3)%nat /\ Forall2 Z.le [4; -1; 2]%Z repaired).
Proof.
  apply (repair_moves_one_way rng_sample 3 3 [4; -1; 2]%Z 1%nat rng_sample_unit).
  - lia.
  - lia.
  - reflexivity.
Defined.

(** X6: [tournamentSelection] on a non-empty population with one fitness
    for each member makes exactly [tournamentSize] draws.  It returns the
    member drawn at the first draw whose fitness no other drawn fitness
    exceeds: that fitness is greater than [-Infinity] and strictly greater
    than every fitness drawn before it that is a number.  It returns [null]
    only when every drawn fitness is [-Infinity] or [NaN]. *)
Theorem tournamentSelection_first_of_greatest (rng : nat -> Q) (population : Population)
    (fitnesses : list float) (tournamentSize : Z) (pos : nat) :
  unit_source rng -> population <> [] -> length fitnesses = length population ->
  let drawn := fun i : nat => randomIndex (rng (pos + i)%nat) (Z.of_nat (length population)) in
  let fit := fun i : nat => nth (drawn i) fitnesses nan in
  let r := tournamentSelection rng population fitnesses tournamentSize pos in
  snd r = (pos + Z.to_nat tournamentSize)%nat /\
  ((fst r = None /\
    forall j : nat, (j < Z.to_nat tournamentSize)%nat ->
      fit j = neg_infinity \/ is_nan (fit j) = true) \/
   exists k : nat,
     (k < Z.to_nat tournamentSize)%nat /\ fst r = nth (drawn k) population None /\
     Num.gt (fit k) neg_infinity = true /\
     (forall j : nat, (j < Z.to_nat tournamentSize)%nat -> Num.gt (fit j) (fit k) = false) /\
     (forall j : nat, (j < k)%nat ->
        Num.gt (fit k) (fit j) = true \/ is_nan (fit j) = true)).
Proof.
  intros Hu Hne Hlen drawn fit r.
  destruct (tournament_loop_max rng Hu population fitnesses Hne Hlen
              (Z.to_nat tournamentSize) None neg_infinity pos NumFacts.le_neg_infinity_refl)
    as (D & [[B N]|K]).
  - split; [exact D|]. left. split; [exact B|].
    intros j Hj. apply NumFacts.gt_neg_infinity_false. now apply N.
  - split; [exact D|]. right. exact K.
Qed.

Lemma tournamentSelection_first_of_greatest_witness :
  let population := [Some [1; 2]; Some [3; 0]; Some [0; 3]]%Z in
  let fitnesses := [3%float; 5%float; 5%float] in
  let drawn := fun i : nat => randomIndex (rng_sample (1 + i)%nat) (Z.of_nat (length population)) in
  let fit := fun i : nat => nth (drawn i) fitnesses nan in
  let r := tournamentSelection rng_sample population fitnesses 4 1%nat in
  snd r = (1 + Z.to_nat 4)%nat /\
  ((fst r = None /\
    forall j : nat, (j < Z.to_nat 4)%nat ->
      fit j = neg_infinity \/ is_nan (fit j) = true) \/
   exists k : nat,
     (k < Z.to_nat 4)%nat /\ fst r = nth (drawn k) population None /\
     Num.gt (fit k) neg_infinity = true /\
     (forall j : nat, (j < Z.to_nat 4)%nat -> Num.gt (fit j) (fit k) = false) /\
     (forall j : nat, (j < k)%nat ->
        Num.gt (fit k) (fit j) = true \/ is_nan (fit j) = true)).
Proof.
  apply (tournamentSelection_first_of_greatest rng_sample
           [Some [1; 2]; Some [3; 0]; Some [0; 3]]%Z [3%float; 5%float; 5%float] 4 1%nat
           rng_sample_unit).
  - discriminate.
  - reflexivity.
Defined.

(** X7: [mutate], with random numbers in [0, 1), returns the chromosome
    unchanged or moves exactly one buffer: one entry that was positive is
    lowered by one, another entry is raised by one, and all the others are
    kept.  The length never changes. *)
Theorem mutate_moves_one_buffer (rng : nat -> Q) (c : Chromosome) (pos : nat) :
  unit_source rng ->
  let mutated := fst (mutate rng c pos) in
  length mutated = length c /\
  (mutated = c \/
   exists i j : nat,
     (i < length c)%nat /\ (j < length c)%nat /\ i <> j /\ (0 < nth i c 0)%Z /\
     forall k : nat,
       nth k mutated 0%Z =
       (nth k c 0 - (if (k =? i)%nat then 1 else 0) + (if (k =? j)%nat then 1 else 0))%Z).
Proof.
  intros Hu. unfold mutate.
  destruct (Nat.leb_spec (length c) 1) as [Hlen|Hlen]; simpl; [split; [reflexivity | now left]|].
  assert (Hsize : (0 < Z.of_nat (length c))%Z) by lia.
  pose proof (slot_lt rng Hu pos (Z.of_nat (length c)) Hsize) as H1.
  pose proof (slot_lt rng Hu (S pos) (Z.of_nat (length c)) Hsize) as H2.
  rewrite Nat2Z.id in H1, H2.
  set (i := randomIndex (rng pos) (Z.of_nat (length c))) in *.
  set (j := randomIndex (rng (S pos)) (Z.of_nat (length c))) in *.
  destruct (Z.gtb_spec (nth i c 0%Z) 0) as [G|G]; simpl; [|split; [reflexivity | now left]].
  split; [now rewrite !length_updateAt|].
  destruct (Nat.eq_dec i j) as [E|E].
  - left. rewrite <- E. apply updateAt_succ_pred.
  - right. exists i, j. repeat split; trivial.
    intros k. rewrite !nth_updateAt, length_updateAt.
    apply Nat.ltb_lt in H1, H2. rewrite H1, H2, !andb_true_r.
    destruct (Nat.eqb_spec k i), (Nat.eqb_spec k j); lia.
Qed.

Lemma mutate_moves_one_buffer_witness :
  let mutated := fst (mutate rng_sample [2; 0; 4; 2; 0]%Z 3%nat) in
  length mutated = length [2; 0; 4; 2; 0]%Z /\
  (mutated = [2; 0; 4; 2; 0]%Z \/
   exists i j : nat,
     (i < length [2; 0; 4; 2; 0]%Z)%nat /\ (j < length [2; 0; 4; 2; 0]%Z)%nat /\ i <> j /\
     (0 < nth i [2; 0; 4; 2; 0]%Z 0)%Z /\
     forall k : nat,
       nth k mutated 0%Z =
       (nth k [2; 0; 4; 2; 0]%Z 0 - (if (k =? i)%nat then 1 else 0) +
        (if (k =? j)%nat then 1 else 0))%Z).
Proof.
  apply (mutate_moves_one_buffer rng_sample [2; 0; 4; 2; 0]%Z 3%nat rng_sample_unit).
Defined.

(** X8: [crossover] of a chromosome that sums to [totalBuffers] with itself
    returns the chromosome twice (both children are the parent again and
    need no repair); it draws one random number, the cut point, and none
    when the chromosome has fewer than two entries. *)
Theorem crossover_identical_parents (rng : nat -> Q) (parent : Chromosome) (total : Z)
    (pos : nat) :
  sum parent = total ->
  crossover rng (Some parent) (Some parent) total pos =
  Returns ((parent, parent), if (length parent <=? 1)%nat then pos else S pos).
Proof.
  intros Hsum. unfold crossover.
  destruct (length parent <=? 1)%nat; [reflexivity|].
  unfold bind, random. rewrite firstn_skipn.
  assert (R : forall p, repair rng (Z.of_nat (length parent)) total parent p =
                        Returns (parent, p)).
  { intros p. unfold repair, deviation. rewrite Hsum, Z.sub_diag. simpl.
    now rewrite Z.eqb_refl. }
  rewrite !R. reflexivity.
Qed.

Lemma crossover_identical_parents_witness :
  crossover rng_sample (Some [3; 0; 3; 2; 0]%Z) (Some [3; 0; 3; 2; 0]%Z) 8 2%nat =
  Returns (([3; 0; 3; 2; 0]%Z, [3; 0; 3; 2; 0]%Z),
           if (length [3; 0; 3; 2; 0]%Z <=? 1)%nat then 2%nat else 3%nat).
Proof.
  apply (crossover_identical_parents rng_sample [3; 0; 3; 2; 0]%Z 8 2%nat).
  reflexivity.
Defined.

(** X9: [createIndividual] calls [Math.random] once for each buffer it
    places, that is [totalBuffers] times (not at all when there is no slot,
    where it returns the empty chromosome, or no buffer, where it returns
    the all-zero chromosome); [initializePopulation] makes [popSize] such
    sequences of draws, one after the other. *)
Theorem createIndividual_draws (rng : nat -> Q) (popSize numBufferSlots totalBuffers : Z)
    (pos : nat) :
  let r := createIndividual rng numBufferSlots totalBuffers pos in
  let each := if (numBufferSlots <=? 0)%Z then 0%nat else Z.to_nat totalBuffers in
  snd r = (pos + each)%nat /\
  ((numBufferSlots <= 0)%Z -> fst r = []) /\
  ((totalBuffers <= 0)%Z -> fst r = repeat 0%Z (Z.to_nat numBufferSlots)) /\
  snd (initializePopulation rng popSize numBufferSlots totalBuffers pos) =
    (pos + Z.to_nat popSize * each)%nat.
Proof.
  assert (D : forall p, snd (createIndividual rng numBufferSlots totalBuffers p) =
                        (p + (if (numBufferSlots <=? 0)%Z then 0 else Z.to_nat totalBuffers))%nat).
  { intros p. unfold createIndividual.
    destruct (numBufferSlots <=? 0)%Z; simpl; [lia | apply createIndividual_loop_draws]. }
  cbv zeta. split; [apply D|]. split; [|split].
  - intros H. unfold createIndividual.
    destruct (Z.leb_spec numBufferSlots 0); [reflexivity | lia].
  - intros H. unfold createIndividual.
    destruct (Z.leb_spec numBufferSlots 0) as [G|G]; simpl.
    + replace (Z.to_nat numBufferSlots) with 0%nat by lia. reflexivity.
    + replace (Z.to_nat totalBuffers) with 0%nat by lia. reflexivity.
  - unfold initializePopulation. generalize (Z.to_nat popSize) as n. intros n. revert pos.
    induction n as [|n IH]; intros pos; simpl; [lia|].
    specialize (D pos).
    destruct (createIndividual rng numBufferSlots totalBuffers pos) as [individual pos1].
    specialize (IH pos1).
    destruct (initializePopulation_loop rng n numBufferSlots totalBuffers pos1) as [rest pos2].
    simpl in *. lia.
Qed.

(** ** The value an input control commits *)

Module ClampFacts.

Lemma lex_le_refl (a : Z * Z * Z) : Num.lex_le a a.
Proof. now right. Qed.

Lemma lex_le_antisym (a b : Z * Z * Z) : Num.lex_le a b -> Num.lex_le b a -> a = b.
Proof.
  intros [H|H] [G|G]; auto. now destruct (NumFacts.lex_lt_asym _ _ H).
Qed.

Lemma ltb_ranked (a b : float) (x y : Z * Z * Z) :
  Num.rank (Prim2SF a) = Some x -> Num.rank (Prim2SF b) = Some y ->
  ((a <? b)%float = true <-> Num.lex_lt x y).
Proof.
  intros Hx Hy. rewrite NumFacts.ltb_rank. split.
  - intros (x' & y' & Hx' & Hy' & H). congruence.
  - intros H. now exists x, y.
Qed.

Lemma eqb_ranked (a b : float) (x : Z * Z * Z) :
  Num.rank (Prim2SF a) = Some x -> Num.rank (Prim2SF b) = Some x -> (a =? b)%float = true.
Proof.
  intros Ha Hb. rewrite FloatAxioms.eqb_spec. unfold SFeqb.
  pose proof (NumFacts.SFcompare_rank (Prim2SF a) (Prim2SF b)) as H.
  destruct (SFcompare (Prim2SF a) (Prim2SF b)) as [[| |]|].
  - reflexivity.
  - destruct H as (x' & y' & Hx' & Hy' & H).
    rewrite Ha in Hx'. rewrite Hb in Hy'. injection Hx' as <-. injection Hy' as <-.
    now destruct (NumFacts.lex_lt_irrefl _ H).
  - destruct H as (x' & y' & Hx' & Hy' & H).
    rewrite Ha in Hx'. rewrite Hb in Hy'. injection Hx' as <-. injection Hy' as <-.
    now destruct (NumFacts.lex_lt_irrefl _ H).
  - destruct H; congruence.
Qed.

Lemma ranked_not_nan (a : float) (x : Z * Z * Z) :
  Num.rank (Prim2SF a) = Some x -> is_nan a = false.
Proof. intros H. apply NumOrder.number_nan, NumOrder.number_iff. now exists x. Qed.

(** [Math.min] of two numbers is one of them, and is at most each. *)
Lemma Math_min_rank (a b : float) (x y : Z * Z * Z) :
  Num.rank (Prim2SF a) = Some x -> Num.rank (Prim2SF b) = Some y ->
  exists z, Num.rank (Prim2SF (Math_min a b)) = Some z /\
            Num.lex_le z x /\ Num.lex_le z y /\ (z = x \/ z = y).
Proof.
  intros Hx Hy. unfold Math_min.
  rewrite (ranked_not_nan a x Hx), (ranked_not_nan b y Hy). simpl.
  pose proof (ltb_ranked a b x y Hx Hy) as L1.
  pose proof (ltb_ranked b a y x Hy Hx) as L2.
  destruct (a <? b)%float.
  - exists x. split; [exact Hx|]. split; [apply lex_le_refl|].
    split; [left; now apply L1 | now left].
  - destruct (b <? a)%float.
    + exists y. split; [exact Hy|]. split; [left; now apply L2|].
      split; [apply lex_le_refl | now right].
    + assert (E : x = y).
      { destruct (NumOrder.lex_total x y) as [H|[H|H]]; trivial.
        - apply L1 in H. discriminate.
        - apply L2 in H. discriminate. }
      subst y. exists x. split; [now destruct (is_neg_zero a)|].
      split; [apply lex_le_refl|]. split; [apply lex_le_refl | now left].
Qed.

(** [Math.max] of two numbers is one of them, and is at least each. *)
Lemma Math_max_rank (a b : float) (x y : Z * Z * Z) :
  Num.rank (Prim2SF a) = Some x -> Num.rank (Prim2SF b) = Some y ->
  exists z, Num.rank (Prim2SF (Math_max a b)) = Some z /\
            Num.lex_le x z /\ Num.lex_le y z /\ (z = x \/ z = y).
Proof.
  intros Hx Hy. unfold Math_max.
  rewrite (ranked_not_nan a x Hx), (ranked_not_nan b y Hy). simpl.
  pose proof (ltb_ranked a b x y Hx Hy) as L1.
  pose proof (ltb_ranked b a y x Hy Hx) as L2.
  destruct (a <? b)%float.
  - exists y. split; [exact Hy|]. split; [left; now apply L1|].
    split; [apply lex_le_refl | now right].
  - destruct (b <? a)%float.
    + exists x. split; [exact Hx|]. split; [apply lex_le_refl|].
      split; [left; now apply L2 | now left].
    + assert (E : x = y).
      { destruct (NumOrder.lex_total x y) as [H|[H|H]]; trivial.
        - apply L1 in H. discriminate.
        - apply L2 in H. discriminate. }
      subst y. exists x. split; [now destruct (is_neg_zero a)|].
      split; [apply lex_le_refl|]. split; [apply lex_le_refl | now left].
Qed.

(** The value committed for a number, or for [min] in its place. *)
Lemma clamp_rank (a min max : float) (x lo hi : Z * Z * Z) :
  Num.rank (Prim2SF a) = Some x ->
  Num.rank (Prim2SF min) = Some lo -> Num.rank (Prim2SF max) = Some hi ->
  Num.lex_le lo hi ->
  exists z, Num.rank (Prim2SF (Math_max (Math_min a max) min)) = Some z /\
            Num.lex_le lo z /\ Num.lex_le z hi /\
            (Num.lex_le lo x -> Num.lex_le x hi -> z = x) /\
            (Num.lex_le x lo -> z = lo) /\ (Num.lex_le hi x -> z = hi).
Proof.
  intros Hx Hlo Hhi Hle.
  destruct (Math_min_rank a max x hi Hx Hhi) as (m & Hm & M1 & M2 & M3).
  destruct (Math_max_rank (Math_min a max) min m lo Hm Hlo) as (z & Hz & Z1 & Z2 & Z3).
  exists z. split; [exact Hz|]. split; [exact Z2|].
  assert (Zhi : Num.lex_le z hi) by (destruct Z3 as [-> | ->]; trivial).
  split; [exact Zhi|]. split; [|split].
  - intros H1 H2.
    assert (m = x) as ->.
    { destruct M3 as [-> | ->]; [reflexivity|]. now apply lex_le_antisym. }
    destruct Z3 as [-> | ->]; [reflexivity|]. now apply lex_le_antisym.
  - intros H. destruct Z3 as [-> | ->]; [|reflexivity].
    apply lex_le_antisym; [|exact Z2]. apply (NumFacts.lex_le_trans _ x _); assumption.
  - intros H.
    assert (m = hi) as ->.
    { destruct M3 as [-> | ->]; [|reflexivity]. now apply lex_le_antisym. }
    destruct Z3 as [-> | ->]; [reflexivity|]. now apply lex_le_antisym.
Qed.

End ClampFacts.

(** X10: [handleBlur] of an input control whose bounds are numbers with
    [min <= max] commits a number within the bounds whatever was typed:
    [min] when the text is not a number ([NaN]) or reads as a number below
    [min], [max] when it reads as a number above [max], and the number read
    itself when it lies within the bounds (up to the sign of zero). *)
Theorem handleBlur_within_bounds (parsed min max : float) :
  Num.le min max = true ->
  let committed := handleBlur parsed min max in
  Num.le min committed = true /\ Num.le committed max = true /\
  (is_nan parsed = true -> (committed =? min)%float = true) /\
  (Num.le parsed min = true -> (committed =? min)%float = true) /\
  (Num.le max parsed = true -> (committed =? max)%float = true) /\
  (Num.le min parsed = true -> Num.le parsed max = true ->
   (committed =? parsed)%float = true).
Proof.
  intros Hle. apply NumOrder.le_iff in Hle. destruct Hle as (lo & hi & Hlo & Hhi & Hle).
  unfold handleBlur. cbv zeta.
  assert (Hcase : exists a x, (if is_nan parsed then min else parsed) = a /\
                              Num.rank (Prim2SF a) = Some x /\
                              (is_nan parsed = true -> x = lo) /\
                              (is_nan parsed = false -> a = parsed)).
  { destruct (is_nan parsed) eqn:E.
    - exists min, lo. repeat split; trivial. discriminate.
    - apply NumOrder.number_nan, NumOrder.number_iff in E. destruct E as [x Hx].
      exists parsed, x. repeat split; trivial. discriminate. }
  destruct Hcase as (a & x & -> & Hx & Hnan & Hnum).
  destruct (ClampFacts.clamp_rank a min max x lo hi Hx Hlo Hhi Hle)
    as (z & Hz & Z1 & Z2 & Zin & Zlo & Zhi).
  assert (Hparsed : forall y : Z * Z * Z, Num.rank (Prim2SF parsed) = Some y -> y = x).
  { intros y Hy. rewrite (Hnum (ClampFacts.ranked_not_nan parsed y Hy)) in Hx. congruence. }
  split; [apply NumOrder.le_iff; now exists lo, z|].
  split; [apply NumOrder.le_iff; now exists z, hi|].
  split; [|split; [|split]].
  - intros E. apply (ClampFacts.eqb_ranked _ _ lo); trivial.
    rewrite Hz. f_equal. apply Zlo. rewrite (Hnan E). apply ClampFacts.lex_le_refl.
  - intros H. apply NumOrder.le_iff in H. destruct H as (y & lo' & Hy & Hlo' & H).
    apply Hparsed in Hy. subst y. rewrite Hlo in Hlo'. injection Hlo' as <-.
    apply (ClampFacts.eqb_ranked _ _ lo); trivial. rewrite Hz. f_equal. now apply Zlo.
  - intros H. apply NumOrder.le_iff in H. destruct H as (hi' & y & Hhi' & Hy & H).
    apply Hparsed in Hy. subst y. rewrite Hhi in Hhi'. injection Hhi' as <-.
    apply (ClampFacts.eqb_ranked _ _ hi); trivial. rewrite Hz. f_equal. now apply Zhi.
  - intros H1 H2.
    apply NumOrder.le_iff in H1. destruct H1 as (lo' & y & Hlo' & Hy & H1).
    apply NumOrder.le_iff in H2. destruct H2 as (y' & hi' & Hy' & Hhi' & H2).
    pose proof Hy as Hy0. apply Hparsed in Hy. apply Hparsed in Hy'. subst y y'.
    rewrite Hlo in Hlo'. injection Hlo' as <-. rewrite Hhi in Hhi'. injection Hhi' as <-.
    apply (ClampFacts.eqb_ranked _ _ x); trivial. rewrite Hz. f_equal. now apply Zin.
Qed.

Lemma handleBlur_within_bounds_witness :
  let committed := handleBlur 25 2 20 in
  Num.le 2 committed = true /\ Num.le committed 20 = true /\
  (is_nan 25 = true -> (committed =? 2)%float = true) /\
  (Num.le 25 2 = true -> (committed =? 2)%float = true) /\
  (Num.le 20 25 = true -> (committed =? 20)%float = true) /\
  (Num.le 2 25 = true -> Num.le 25 20 = true -> (committed =? 25)%float = true).
Proof.
  apply (handleBlur_within_bounds 25 2 20). reflexivity.
Defined.

(** ** Runs without a population *)

Section EmptyPopulation.

Variable Math_exp : float -> float.
Variable Math_pow : float -> float -> float.
Variable rng : nat -> Q.
Variable params : OptimizationParams.
Variable settings : GASettings.

Hypothesis no_population : (populationSize settings <= 0)%Z.

Let nothing : LoopState :=
  {| population := []; bestEver := None; bestFitnessEver := neg_infinity |}.

Let empty_report (gen : Z) : ProgressData.t :=
  {| ProgressData.generation := gen;
     ProgressData.bestFitness := neg_infinity;
     ProgressData.avgFitness := nan |}.

Lemma generation_step_empty (gen : Z) (pos : nat) :
  generation_step Math_exp Math_pow rng params settings gen nothing pos =
  Returns ((nothing, empty_report (gen + 1)), pos).
Proof.
  unfold generation_step, nothing. simpl.
  replace (Z.to_nat (populationSize settings)) with 0%nat by lia.
  unfold bind. simpl.
  destruct (Z.ltb_spec 1 (populationSize settings)) as [G|_]; [lia|].
  unfold ret.
  assert (E : forall (A : Type) (x : A), slice0 [x] (populationSize settings) = []).
  { intros A x. unfold slice0. destruct (Z.ltb_spec (populationSize settings) 0).
    - replace (Z.to_nat (Z.of_nat (length [x]) + populationSize settings))
        with 0%nat by (simpl length; lia).
      reflexivity.
    - replace (Z.to_nat (populationSize settings)) with 0%nat by lia. reflexivity. }
  cbv beta. rewrite !E. reflexivity.
Qed.

Lemma generations_loop_empty (n : nat) :
  forall (g : nat) (pos : nat),
  generations_loop Math_exp Math_pow rng params settings n (Z.of_nat g) nothing pos =
  (map (fun i => {| evaluatedPopulation := []; nextPopulation := [];
                    report := empty_report (Z.of_nat i) |}) (seq (S g) n),
   Returns (nothing, pos)).
Proof.
  induction n as [|n IH]; intros g pos; simpl; [reflexivity|].
  rewrite generation_step_empty.
  replace (Z.of_nat g + 1)%Z with (Z.of_nat (S g)) by lia.
  rewrite IH. reflexivity.
Qed.

End EmptyPopulation.

(** X11: with at least two stations and a population size of 0 or less,
    nothing is ever evaluated: the run yields one report for each generation,
    numbered from 1, each with the best fitness [-Infinity] and the average
    [NaN] (0 divided by 0), and then throws instead of returning a result,
    the best individual being [undefined]. *)
Theorem runGA_empty_population (Math_exp : float -> float)
    (Math_pow : float -> float -> float) (rng : nat -> Q)
    (params : OptimizationParams) (settings : GASettings) :
  (2 <= numStations params)%Z -> (populationSize settings <= 0)%Z ->
  let r := runGA Math_exp Math_pow rng params settings in
  progress r =
    map (fun i => {| ProgressData.generation := Z.of_nat i;
                     ProgressData.bestFitness := neg_infinity;
                     ProgressData.avgFitness := nan |})
      (seq 1 (Z.to_nat (generations settings))) /\
  result r = Throws.
Proof.
  intros Hst Hpop. unfold runGA, progress.
  destruct (Z.leb_spec (numStations params - 1) 0) as [G|_]; [lia|].
  unfold initializePopulation.
  replace (Z.to_nat (populationSize settings)) with 0%nat by lia.
  cbn [initializePopulation_loop nth].
  pose proof (generations_loop_empty Math_exp Math_pow rng params settings Hpop
                (Z.to_nat (generations settings)) 0 0) as H.
  change (Z.of_nat 0) with 0%Z in H. rewrite H.
  cbn [trace result finalResult bestEver]. rewrite map_map. split; reflexivity.
Qed.

Lemma runGA_empty_population_witness :
  let settings := {| populationSize := 0; generations := 2; mutationRate := 1 # 10;
                     crossoverRate := 4 # 5; tournamentSize := 5 |} in
  let r := runGA exp_sample pow_sample rng_sample params_sample settings in
  progress r =
    map (fun i => {| ProgressData.generation := Z.of_nat i;
                     ProgressData.bestFitness := neg_infinity;
                     ProgressData.avgFitness := nan |})
      (seq 1 (Z.to_nat (generations settings))) /\
  result r = Throws.
Proof.
  apply (runGA_empty_population exp_sample pow_sample rng_sample params_sample
           {| populationSize := 0; generations := 2; mutationRate := 1 # 10;
              crossoverRate := 4 # 5; tournamentSize := 5 |}).
  - simpl. lia.
  - simpl. lia.
Defined.

(** ** The reports of any run, and the caller that collects them *)

Lemma last_cons {A : Type} (a d : A) (l : list A) : last (a :: l) d = last l a.
Proof.
  revert a d. induction l as [|b l IH]; intros a d; [reflexivity|].
  change (last (a :: b :: l) d) with (last (b :: l) d). now rewrite !IH.
Qed.

Lemma last_numbering (k : nat) : last (map Z.of_nat (seq 1 k)) 0%Z = Z.of_nat k.
Proof.
  destruct k as [|k]; [reflexivity|].
  rewrite seq_S, map_app. simpl map. now rewrite last_last.
Qed.

(** The best fitness the loop ends with is the last one it reported. *)
Lemma generations_loop_last (Math_exp : float -> float)
    (Math_pow : float -> float -> float) (rng : nat -> Q)
    (params : OptimizationParams) (settings : GASettings) (n : nat) :
  forall (gen : Z) (st : LoopState) (pos : nat) (st' : LoopState) (pos' : nat),
  let r := generations_loop Math_exp Math_pow rng params settings n gen st pos in
  snd r = Returns (st', pos') ->
  last (map ProgressData.bestFitness (map report (fst r))) (bestFitnessEver st) =
  bestFitnessEver st'.
Proof.
  induction n as [|n IH]; intros gen st pos st' pos'; simpl.
  - intros E. now injection E as <- _.
  - destruct (generation_step Math_exp Math_pow rng params settings gen st pos)
      as [[[st1 pd] pos1]| |] eqn:G; cbn [fst snd]; try discriminate.
    specialize (IH (gen + 1)%Z st1 pos1 st' pos'). cbv zeta in IH.
    destruct (generations_loop Math_exp Math_pow rng params settings n (gen + 1) st1 pos1)
      as [records final].
    cbn [fst snd map] in *. intros E. rewrite last_cons.
    apply generation_step_inv in G. destruct G as (fits & np & _ & _ & _ & _ & _ & ->).
    cbn [report ProgressData.bestFitness]. now apply IH.
Qed.

(** What the loop of [handleRunOptimization] has stored after a list of
    reports. *)
Lemma fold_left_receive (reports : list ProgressData.t) :
  forall st : App.state,
  let st' := fold_left App.receive reports st in
  App.isRunning st' = App.isRunning st /\
  App.progress st' = App.progress st ++ reports /\
  App.result st' = App.result st /\
  App.currentGeneration st' =
    last (map ProgressData.generation reports) (App.currentGeneration st).
Proof.
  induction reports as [|pd reports IH]; intros st; cbv zeta; cbn [fold_left map].
  - now rewrite app_nil_r.
  - destruct (IH (App.receive st pd)) as (H1 & H2 & H3 & H4).
    rewrite H1, H2, H3, H4, last_cons.
    cbn [App.receive App.isRunning App.progress App.result App.currentGeneration].
    rewrite <- app_assoc. repeat split; reflexivity.
Qed.

(** The reports of a run are numbered from 1 on. *)
Lemma runGA_numbering (Math_exp : float -> float)
    (Math_pow : float -> float -> float) (rng : nat -> Q)
    (params : OptimizationParams) (settings : GASettings) :
  let r := runGA Math_exp Math_pow rng params settings in
  map ProgressData.generation (progress r) = map Z.of_nat (seq 1 (length (progress r))).
Proof.
  unfold runGA, progress.
  destruct (numStations params - 1 <=? 0)%Z; simpl; [reflexivity|].
  destruct (initializePopulation rng (populationSize settings) (numStations params - 1)
              (totalBuffers params) 0) as [population0 pos0].
  pose proof (generations_loop_numbering Math_exp Math_pow rng params settings
                (Z.to_nat (generations settings)) 0
                {| population := population0; bestEver := nth 0 population0 None;
                   bestFitnessEver := neg_infinity |} pos0) as N.
  cbv zeta in N. change (Z.of_nat 0) with 0%Z in N.
  destruct (generations_loop Math_exp Math_pow rng params settings
              (Z.to_nat (generations settings)) 0
              {| population := population0; bestEver := nth 0 population0 None;
                 bestFitnessEver := neg_infinity |} pos0) as [records final].
  simpl in *. destruct N as (_ & N2 & _). now rewrite !length_map in *.
Qed.

(** X12: the reports of any run, whatever its input: there are at most
    [generations] of them and they are numbered 1, 2, ... without a gap.
    When the run returns a result there are exactly [generations] of them
    (none with fewer than two stations), and the best fitness of the result
    is the one of the last report ([-Infinity] when there is no report). *)
Theorem runGA_report_count (Math_exp : float -> float)
    (Math_pow : float -> float -> float) (rng : nat -> Q)
    (params : OptimizationParams) (settings : GASettings) :
  let r := runGA Math_exp Math_pow rng params settings in
  (length (progress r) <= Z.to_nat (generations settings))%nat /\
  map ProgressData.generation (progress r) = map Z.of_nat (seq 1 (length (progress r))) /\
  forall res : OptimizationResult.t,
    result r = Returns res ->
    length (progress r) =
      (if (numStations params - 1 <=? 0)%Z then 0%nat else Z.to_nat (generations settings)) /\
    OptimizationResult.bestFitness res =
      last (map ProgressData.bestFitness (progress r)) neg_infinity.
Proof.
  unfold runGA, progress.
  destruct (numStations params - 1 <=? 0)%Z; simpl.
  { split; [lia|]. split; [reflexivity|]. intros res E. injection E as <-. now split. }
  destruct (initializePopulation rng (populationSize settings) (numStations params - 1)
              (totalBuffers params) 0) as [population0 pos0].
  pose proof (generations_loop_numbering Math_exp Math_pow rng params settings
                (Z.to_nat (generations settings)) 0
                {| population := population0; bestEver := nth 0 population0 None;
                   bestFitnessEver := neg_infinity |} pos0) as N.
  pose proof (generations_loop_last Math_exp Math_pow rng params settings
                (Z.to_nat (generations settings)) 0
                {| population := population0; bestEver := nth 0 population0 None;
                   bestFitnessEver := neg_infinity |} pos0) as Hlast.
  cbv zeta in N, Hlast. change (Z.of_nat 0) with 0%Z in N.
  destruct (generations_loop Math_exp Math_pow rng params settings
              (Z.to_nat (generations settings)) 0
              {| population := population0; bestEver := nth 0 population0 None;
                 bestFitnessEver := neg_infinity |} pos0) as [records final].
  simpl in *. destruct N as (N1 & N2 & N3). rewrite !length_map.
  split; [exact N1|]. split; [exact N2|].
  intros res Hres. destruct final as [[st pos]| |]; try discriminate.
  split; [exact (N3 st pos eq_refl)|].
  rewrite (Hlast st pos eq_refl). unfold finalResult in Hres.
  destruct (bestEver st); [|discriminate]. now injection Hres as <-.
Qed.

(** X13: [handleRunOptimization] on a run of the generator that returns a
    result leaves [isRunning] false, the result stored, all the reports of
    the run in [progress], in the order they were yielded, and
    [currentGeneration] at their number. *)
Theorem handleRunOptimization_completes (Math_exp : float -> float)
    (Math_pow : float -> float -> float) (rng : nat -> Q)
    (params : OptimizationParams) (gaSettings : GASettings) (res : OptimizationResult.t) :
  let r := runGA Math_exp Math_pow rng params gaSettings in
  result r = Returns res ->
  handleRunOptimization Math_exp Math_pow rng params gaSettings =
  {| App.isRunning := false;
     App.progress := progress r;
     App.result := Some res;
     App.currentGeneration := Z.of_nat (length (progress r)) |}.
Proof.
  intros r Hres. unfold handleRunOptimization, App.consume, run_result. fold r. rewrite Hres.
  destruct (fold_left_receive (map report (trace r))
              {| App.isRunning := true; App.progress := []; App.result := None;
                 App.currentGeneration := 0 |}) as (_ & H2 & _ & H4).
  cbv zeta in H2, H4. rewrite H2, H4. simpl.
  pose proof (runGA_numbering Math_exp Math_pow rng params gaSettings) as N.
  cbv zeta in N. fold r in N. unfold progress in N. rewrite N, last_numbering.
  reflexivity.
Qed.

Lemma handleRunOptimization_completes_witness :
  let res :=
    {| OptimizationResult.bestAllocation := [3; 0; 3; 2; 0]%Z;
       OptimizationResult.predictedThroughput :=
         predictThroughput exp_sample pow_sample [3; 0; 3; 2; 0]%Z;
       OptimizationResult.totalBuffersUsed := 8;
       OptimizationResult.bestFitness :=
         calculateFitness exp_sample pow_sample [3; 0; 3; 2; 0]%Z 1 2 |} in
  let r := runGA exp_sample pow_sample rng_sample params_sample settings_sample in
  handleRunOptimization exp_sample pow_sample rng_sample params_sample settings_sample =
  {| App.isRunning := false;
     App.progress := progress r;
     App.result := Some res;
     App.currentGeneration := Z.of_nat (length (progress r)) |}.
Proof.
  apply (handleRunOptimization_completes exp_sample pow_sample rng_sample params_sample
           settings_sample).
  vm_compute. reflexivity.
Defined.

(** X14: [handleRunOptimization] has no [try]: on a run of the generator
    that throws it stops at the rejected [gaRunner.next()], so [isRunning]
    stays true and [result] stays [null]; [progress] holds the reports
    yielded before the exception and [currentGeneration] their number. *)
Theorem handleRunOptimization_throws (Math_exp : float -> float)
    (Math_pow : float -> float -> float) (rng : nat -> Q)
    (params : OptimizationParams) (gaSettings : GASettings) :
  let r := runGA Math_exp Math_pow rng params gaSettings in
  result r = Throws ->
  handleRunOptimization Math_exp Math_pow rng params gaSettings =
  {| App.isRunning := true;
     App.progress := progress r;
     App.result := None;
     App.currentGeneration := Z.of_nat (length (progress r)) |}.
Proof.
  intros r Hres. unfold handleRunOptimization, App.consume, run_result. fold r. rewrite Hres.
  pose proof (fold_left_receive (map report (trace r))
                {| App.isRunning := true; App.progress := []; App.result := None;
                   App.currentGeneration := 0 |}) as H.
  cbv zeta in H.
  destruct (fold_left App.receive (map report (trace r))
              {| App.isRunning := true; App.progress := []; App.result := None;
                 App.currentGeneration := 0 |}) as [running reports stored current].
  simpl in H. destruct H as (-> & -> & -> & ->).
  pose proof (runGA_numbering Math_exp Math_pow rng params gaSettings) as N.
  cbv zeta in N. fold r in N. unfold progress in *. rewrite N, last_numbering.
  reflexivity.
Qed.

Lemma handleRunOptimization_throws_witness :
  let r := runGA exp_sample pow_sample rng_sample params_overflow settings_selection in
  handleRunOptimization exp_sample pow_sample rng_sample params_overflow settings_selection =
  {| App.isRunning := true;
     App.progress := progress r;
     App.result := None;
     App.currentGeneration := Z.of_nat (length (progress r)) |}.
Proof.
  apply (handleRunOptimization_throws exp_sample pow_sample rng_sample params_overflow
           settings_selection).
  vm_compute. reflexivity.
Defined.

(** ** Runs without crossover and mutation *)

Section SelectionOnly.

Variable Math_exp : float -> float.
Variable Math_pow : float -> float -> float.
Variable rng : nat -> Q.
Variable params : OptimizationParams.
Variable settings : GASettings.

Hypothesis rng_unit : unit_source rng.
Hypothesis no_crossover : (crossoverRate settings <= 0)%Q.
Hypothesis no_mutation : (mutationRate settings <= 0)%Q.

(** The references a run can hold then: [null] and the members of the
    initial population. *)
Variable pool : Population.
Let pooled (p : Ref) : Prop := p = None \/ In p pool.

Lemma rate_never_met (rate : Q) (pos : nat) : (rate <= 0)%Q -> Qltb (rng pos) rate = false.
Proof.
  intros H. unfold Qltb. destruct (rng_unit pos) as [H0 _].
  assert (E : Qle_bool rate (rng pos) = true).
  { apply Qle_bool_iff. eapply Qle_trans; eassumption. }
  now rewrite E.
Qed.

Lemma reproduce_selection_only (population : Population) (fitnesses : list float)
    (newPopulation : Population) (pos : nat) :
  Forall pooled population -> Forall pooled newPopulation ->
  post (reproduce rng params settings population fitnesses newPopulation) pos
    (fun filled _ => Forall pooled filled) False.
Proof.
  intros Hpop Hnew. unfold reproduce. apply post_bind, post_lift, post_bind, post_random.
  rewrite (rate_never_met _ _ no_crossover).
  apply post_bind, post_ret, post_bind, post_random.
  rewrite (rate_never_met _ _ no_mutation).
  apply post_bind, post_ret, post_ret.
  apply Forall_app. split; [exact Hnew|]. constructor; [|constructor].
  destruct (tournamentSelection_member rng population fitnesses (tournamentSize settings) pos)
    as [H|H].
  - left. exact H.
  - rewrite Forall_forall in Hpop. now apply Hpop.
Qed.

Lemma reproduce_loop_selection_only (fuel : nat) (population : Population)
    (fitnesses : list float) :
  Forall pooled population ->
  forall (newPopulation : Population) (pos : nat) (filled : Population) (pos' : nat),
  Forall pooled newPopulation ->
  reproduce_loop rng params settings fuel population fitnesses newPopulation pos =
    Returns (filled, pos') ->
  Forall pooled filled.
Proof.
  intros Hpop.
  induction fuel as [|fuel IH]; intros newPopulation pos filled pos' Hnew; simpl;
    destruct (Z.of_nat (length newPopulation) <? populationSize settings)%Z.
  - discriminate.
  - unfold ret. intros H. now injection H as <- <-.
  - unfold bind.
    pose proof (reproduce_selection_only population fitnesses newPopulation pos Hpop Hnew) as R.
    unfold post in R.
    destruct (reproduce rng params settings population fitnesses newPopulation pos)
      as [[np1 pos1]| |]; try discriminate.
    now apply IH.
  - unfold ret. intros H. now injection H as <- <-.
Qed.

Lemma generation_step_selection_only (gen : Z) (st st' : LoopState) (pd : ProgressData.t)
    (pos pos' : nat) :
  generation_step Math_exp Math_pow rng params settings gen st pos = Returns ((st', pd), pos') ->
  Forall pooled (population st) -> pooled (bestEver st) ->
  Forall pooled (population st') /\ pooled (bestEver st').
Proof.
  intros H Hpop Hbest. apply generation_step_inv in H.
  destruct H as (fits & np & _ & _ & Hi & Hr & Hp & _). cbv zeta in Hi.
  assert (Hb : pooled (bestEver st')).
  { rewrite Hi. destruct (Num.gt _ (bestFitnessEver st)); [|exact Hbest].
    destruct (scan_best (population st) fits neg_infinity None 0%float) as [[_ ->]|Hin].
    - now left.
    - rewrite Forall_forall in Hpop. now apply Hpop. }
  split; [|exact Hb]. rewrite Hp. apply Forall_slice0.
  eapply reproduce_loop_selection_only; [exact Hpop| |exact Hr].
  constructor; [exact Hb | constructor].
Qed.

Lemma generations_loop_selection_only (n : nat) :
  forall (gen : Z) (st : LoopState) (pos : nat),
  Forall pooled (population st) -> pooled (bestEver st) ->
  let r := generations_loop Math_exp Math_pow rng params settings n gen st pos in
  Forall (fun rec => Forall pooled (nextPopulation rec)) (fst r) /\
  forall (st' : LoopState) (pos' : nat), snd r = Returns (st', pos') -> pooled (bestEver st').
Proof.
  induction n as [|n IH]; intros gen st pos Hpop Hbest; simpl.
  - split; [constructor|]. intros st' pos' E. now injection E as <- _.
  - destruct (generation_step Math_exp Math_pow rng params settings gen st pos)
      as [[[st1 pd] pos1]| |] eqn:G; simpl; try (split; [constructor | discriminate]).
    destruct (generation_step_selection_only _ _ _ _ _ _ G Hpop Hbest) as [G1 G2].
    specialize (IH (gen + 1)%Z st1 pos1 G1 G2). cbv zeta in IH.
    destruct (generations_loop Math_exp Math_pow rng params settings n (gen + 1) st1 pos1)
      as [records final].
    simpl in *. destruct IH as [I1 I2]. split; [|exact I2].
    constructor; [exact G1 | exact I1].
Qed.

End SelectionOnly.

(** X15: with random numbers in [0, 1) and both rates at 0 (or below), a
    run creates no chromosome after the initial population: every member of
    every population it builds is a member of the initial population or
    [null], and so is the best allocation it returns. *)
Theorem selection_only_keeps_initial_chromosomes (Math_exp : float -> float)
    (Math_pow : float -> float -> float) (rng : nat -> Q)
    (params : OptimizationParams) (settings : GASettings) :
  unit_source rng ->
  (2 <= numStations params)%Z ->
  (crossoverRate settings <= 0)%Q -> (mutationRate settings <= 0)%Q ->
  let r := runGA Math_exp Math_pow rng params settings in
  let population0 :=
    fst (initializePopulation rng (populationSize settings) (numStations params - 1)
           (totalBuffers params) 0) in
  Forall (fun rec =>
            Forall (fun p : Ref => p = None \/ In p population0) (nextPopulation rec))
    (trace r) /\
  forall res : OptimizationResult.t,
    result r = Returns res -> In (Some (OptimizationResult.bestAllocation res)) population0.
Proof.
  intros Hu Hst Hc Hm. unfold runGA.
  destruct (Z.leb_spec (numStations params - 1) 0) as [G|_]; [lia|].
  destruct (initializePopulation rng (populationSize settings) (numStations params - 1)
              (totalBuffers params) 0) as [population0 pos0].
  assert (Hpop : Forall (fun p : Ref => p = None \/ In p population0) population0).
  { apply Forall_forall. intros p Hp. now right. }
  assert (Hbest : nth 0 population0 None = None \/ In (nth 0 population0 None) population0).
  { destruct (nth_in_or_default 0 population0 None) as [H|H]; [now right | now left]. }
  pose proof (generations_loop_selection_only Math_exp Math_pow rng params settings Hu Hc Hm
                population0 (Z.to_nat (generations settings)) 0
                {| population := population0; bestEver := nth 0 population0 None;
                   bestFitnessEver := neg_infinity |} pos0 Hpop Hbest) as H.
  cbv zeta in H.
  destruct (generations_loop Math_exp Math_pow rng params settings
              (Z.to_nat (generations settings)) 0
              {| population := population0; bestEver := nth 0 population0 None;
                 bestFitnessEver := neg_infinity |} pos0) as [records final].
  simpl in *. destruct H as [H1 H2]. split; [exact H1|].
  intros res Hres. destruct final as [[st pos]| |]; try discriminate.
  specialize (H2 st pos eq_refl). unfold finalResult in Hres.
  destruct (bestEver st) as [best|]; [|discriminate]. injection Hres as <-. simpl.
  destruct H2 as [H2|H2]; [discriminate | exact H2].
Qed.

Lemma selection_only_keeps_initial_chromosomes_witness :
  let r := runGA exp_sample pow_sample rng_sample params_sample settings_selection in
  let population0 :=
    fst (initializePopulation rng_sample (populationSize settings_selection)
           (numStations params_sample - 1) (totalBuffers params_sample) 0) in
  Forall (fun rec =>
            Forall (fun p : Ref => p = None \/ In p population0) (nextPopulation rec))
    (trace r) /\
  forall res : OptimizationResult.t,
    result r = Returns res -> In (Some (OptimizationResult.bestAllocation res)) population0.
Proof.
  apply (selection_only_keeps_initial_chromosomes exp_sample pow_sample rng_sample
           params_sample settings_selection rng_sample_unit).
  - simpl. lia.
  - unfold Qle. simpl. lia.
  - unfold Qle. simpl. lia.
Defined.
